(** * keybind: keyboard-mapping resolution of xgbutil

    A shallow embedding of package [keybind] (mapsGet, ParseString,
    lookupString, keycodeGet, keysymGet, modGet, XModMap) and the
    properties of its resolver.

    Conventions of the embedding.
    - Go's [byte], [uint16], [int] and [xgb.Keysym] values are integers of
      [Z]; where the source converts or wraps ([byte(kc)], [i++] on a
      [byte]) the wrap-around is written out.
    - A Go run-time panic is an explicit outcome ([Panic]); a function that
      may panic returns [Res].
    - Output ([fmt.Printf], [log.Printf]) is a list of events collected
      next to the outcome ([IO]).
    - The only loop whose counter can wrap ([modGet]) is run on fuel; the
      other loops range over finitely many values fixed on entry. *)

From Stdlib Require Import ZArith Lia Ascii String.
From stdpp Require Import base numbers option list strings gmap.

Local Open Scope Z_scope.

(** ** Outcomes of Go code *)

Inductive GoPanic : Type :=
  | IndexOutOfRange
  | SliceOutOfRange
  | DivideByZero
  | Explicit (msg : string).

Inductive Res (A : Type) : Type :=
  | Ret (a : A)
  | Panic (p : GoPanic).
Arguments Ret {A} a.
Arguments Panic {A} p.

#[global] Instance Res_ret : MRet Res := @Ret.
#[global] Instance Res_bind : MBind Res :=
  λ A B f m, match m with Ret a => f a | Panic p => Panic p end.

(** [l[i]] of Go: a panic outside [0, len l). *)
Definition index {A} (l : list A) (i : Z) : Res A :=
  if bool_decide (0 ≤ i) then
    match l !! Z.to_nat i with
    | Some x => Ret x
    | None => Panic IndexOutOfRange
    end
  else Panic IndexOutOfRange.

(** [l[lo:hi]] of Go, for a slice whose capacity is its length (a reply
    decoded from the wire). *)
Definition slice {A} (l : list A) (lo hi : Z) : Res (list A) :=
  if bool_decide (0 ≤ lo ∧ lo ≤ hi ∧ hi ≤ Z.of_nat (length l)) then
    Ret (take (Z.to_nat (hi - lo)) (drop (Z.to_nat lo) l))
  else Panic SliceOutOfRange.

(** [byte(n)] of Go. *)
Definition byte (n : Z) : Z := n mod 256.

(** [a / b] on unsigned operands. *)
Definition div (a b : Z) : Res Z :=
  if b =? 0 then Panic DivideByZero else Ret (a / b).

(** A [for] loop over the values [xs] whose body may [return]: the body
    answers [Some a] to return [a] from the enclosing function and [None]
    to go on with the next value. *)
Fixpoint for_return {S A} (xs : list S) (body : S → Res (option A))
  : Res (option A) :=
  match xs with
  | [] => Ret None
  | x :: xs' =>
      match body x with
      | Ret None => for_return xs' body
      | r => r
      end
  end.

(** ** The mapping cache *)

(** [xgb.GetKeyboardMappingReply]: the fields the package reads. *)
Record GetKeyboardMappingReply : Type := {
  KeysymsPerKeycode : Z;   (* byte *)
  Keysyms : list Z;        (* []xgb.Keysym *)
}.

(** [xgb.GetModifierMappingReply]: the fields the package reads. *)
Record GetModifierMappingReply : Type := {
  KeycodesPerModifier : Z; (* byte *)
  Keycodes : list Z;       (* []byte *)
}.

(** What the package reads of [*xgbutil.XUtil] once [Initialize] has run.
    The connection is flattened into the record: [xu.Conn().Setup.MinKeycode]
    is [MinKeycode xu], and the two requests answer with Go's pair of a
    reply pointer and an error ([None] for [nil]; an error is the text
    [%v] prints for it). [KeyMapGet] and [ModMapGet] are the installed
    replies. *)
Record XUtil : Type := {
  MinKeycode : Z;          (* byte *)
  MaxKeycode : Z;          (* byte *)
  GetKeyboardMapping :
    Z → Z → option GetKeyboardMappingReply * option string;
  GetModifierMapping : option GetModifierMappingReply * option string;
  KeyMapGet : GetKeyboardMappingReply;
  ModMapGet : GetModifierMappingReply;
}.

Definition minMaxKeycodeGet (xu : XUtil) : Z * Z :=
  (MinKeycode xu, MaxKeycode xu).

(** ** keysymGet and keycodeGet *)

Definition keysymGet (xu : XUtil) (keycode column : Z) : Res Z :=
  let '(min, _) := minMaxKeycodeGet xu in
  let keyMap := KeyMapGet xu in
  let i := (keycode - min) * KeysymsPerKeycode keyMap + column in
  index (Keysyms keyMap) i.

Definition keycodeGet (xu : XUtil) (keysym : Z) : Res Z :=
  let '(min, max) := minMaxKeycodeGet xu in
  let keyMap := KeyMapGet xu in
  found ← for_return (seqZ min (max - min + 1)) (λ kc,
             for_return (seqZ 0 (KeysymsPerKeycode keyMap)) (λ c,
               s ← keysymGet xu (byte kc) c;
               if keysym =? s then Ret (Some (byte kc)) else Ret None));
  match found with
  | Some kc => Ret kc
  | None => Ret 0
  end.

(** A key map as the server sends it for the setup range: byte-sized
    bounds and one row of [KeysymsPerKeycode] symbols per keycode. *)
Record wf_keymap (xu : XUtil) : Prop := {
  wf_min : 0 ≤ MinKeycode xu;
  wf_min_max : MinKeycode xu ≤ MaxKeycode xu;
  wf_max : MaxKeycode xu ≤ 255;
  wf_cols : 0 ≤ KeysymsPerKeycode (KeyMapGet xu) ≤ 255;
  wf_len : Z.of_nat (length (Keysyms (KeyMapGet xu)))
           = (MaxKeycode xu - MinKeycode xu + 1)
             * KeysymsPerKeycode (KeyMapGet xu);
}.

(** The data model's [KeyCodeMap[kc][c]]. *)
Definition entry (xu : XUtil) (kc c : Z) : Z :=
  nth (Z.to_nat ((kc - MinKeycode xu) * KeysymsPerKeycode (KeyMapGet xu) + c))
      (Keysyms (KeyMapGet xu)) 0.

(** Keycode [kc] produces [keysym] in some column. *)
Definition holds_sym (xu : XUtil) (keysym kc : Z) : Prop :=
  ∃ c, 0 ≤ c < KeysymsPerKeycode (KeyMapGet xu) ∧ entry xu kc c = keysym.

(** [kc] is the least keycode of the range that produces [keysym]. *)
Definition first_keycode_with (xu : XUtil) (keysym kc : Z) : Prop :=
  MinKeycode xu ≤ kc ≤ MaxKeycode xu
  ∧ holds_sym xu keysym kc
  ∧ ∀ kc', MinKeycode xu ≤ kc' < kc → ¬ holds_sym xu keysym kc'.

(** ** Output *)

Inductive event : Type :=
  | Stdout (s : string)   (* written by package fmt *)
  | Logged (s : string).  (* written by package log, time stamp left out *)

Definition IO (A : Type) : Type := (list event * Res A)%type.

#[global] Instance IO_ret : MRet IO := λ A a, ([], Ret a).
#[global] Instance IO_bind : MBind IO :=
  λ A B f m,
    match m with
    | (w, Ret a) => let '(w', r) := f a in (w ++ w', r)
    | (w, Panic p) => (w, Panic p)
    end.

Definition run {A} (r : Res A) : IO A := ([], r).
Definition fmt_Printf (s : string) : IO unit := ([Stdout s], Ret tt).
Definition log_Printf (s : string) : IO unit := ([Logged s], Ret tt).

(** A [for ... range xs] loop that carries the variables [s] it assigns. *)
Fixpoint for_range {S A} (xs : list A) (body : S → A → IO S) (s : S)
  : IO S :=
  match xs with
  | [] => mret s
  | x :: xs' => s' ← body s x; for_range xs' body s'
  end.

Definition tab : string := String (ascii_of_nat 9) EmptyString.
Definition newline : string := String (ascii_of_nat 10) EmptyString.

Definition hex_digit (d : Z) : ascii :=
  nth (Z.to_nat d) (list_ascii_of_string "0123456789ABCDEF") "0"%char.

(** [%X] of a byte. *)
Definition fmt_X (n : Z) : string :=
  if n <? 16 then String (hex_digit n) EmptyString
  else String (hex_digit (n / 16)) (String (hex_digit (n mod 16)) EmptyString).

(** ** Modifier masks *)

(** The modifier masks of package xgb, which are the X11 core protocol's. *)
Definition ModMaskShift : Z := 1.
Definition ModMaskLock : Z := 2.
Definition ModMaskControl : Z := 4.
Definition ModMask1 : Z := 8.
Definition ModMask2 : Z := 16.
Definition ModMask3 : Z := 32.
Definition ModMask4 : Z := 64.
Definition ModMask5 : Z := 128.
Definition ModMaskAny : Z := 32768.

Definition modifiers : list Z := (* order matters! *)
  [ ModMaskShift; ModMaskLock; ModMaskControl;
    ModMask1; ModMask2; ModMask3; ModMask4; ModMask5;
    ModMaskAny ].

(** ** modGet *)

(** The loop of [modGet] from counter value [i]. The counter is a [byte]:
    [i++] wraps at 256, while the bound [len(modMap.Keycodes)] is an [int].
    [None] is fuel run out. *)
Fixpoint modGet_from (fuel : nat) (xu : XUtil) (keycode i : Z)
  : option (Res Z) :=
  match fuel with
  | O => None
  | S fuel' =>
      let modMap := ModMapGet xu in
      if i <? Z.of_nat (length (Keycodes modMap)) then
        match index (Keycodes modMap) i with
        | Panic p => Some (Panic p)
        | Ret k =>
            if k =? keycode then
              Some (row ← div i (KeycodesPerModifier modMap);
                    index modifiers row)
            else modGet_from fuel' xu keycode (byte (i + 1))
        end
      else Some (Ret 0)
  end.

Definition modGet (fuel : nat) (xu : XUtil) (keycode : Z) : option (Res Z) :=
  modGet_from fuel xu keycode 0.

(** ** mapsGet *)

(** The text [%v] prints for an error value. *)
Definition fmt_v (e : option string) : string :=
  match e with
  | Some msg => msg
  | None => "<nil>"
  end.

Definition mapsGet (xu : XUtil)
  : Res (option GetKeyboardMappingReply * option GetModifierMappingReply) :=
  let '(min, max) := minMaxKeycodeGet xu in
  let '(newKeymap, keyErr) := GetKeyboardMapping xu min (byte (max - min + 1)) in
  let '(newModmap, modErr) := GetModifierMapping xu in
  if bool_decide (keyErr ≠ None) then
    Panic (Explicit ("COULD NOT GET KEYBOARD MAPPING: " +:+ fmt_v keyErr
                     +:+ newline +:+ "THIS IS AN UNRECOVERABLE ERROR."
                     +:+ newline))
  else if bool_decide (modErr ≠ None) then
    Panic (Explicit ("COULD NOT GET MODIFIER MAPPING: " +:+ fmt_v keyErr
                     +:+ newline +:+ "THIS IS AN UNRECOVERABLE ERROR."
                     +:+ newline))
  else Ret (newKeymap, newModmap).

(** ** Strings *)

(** [strings.Split(s, sep)] for a separator [sep] of one byte. *)
Fixpoint Split (s : string) (sep : ascii) : list string :=
  match s with
  | EmptyString => [EmptyString]
  | String c s' =>
      if bool_decide (c = sep) then EmptyString :: Split s' sep
      else match Split s' sep with
           | [] => [String c EmptyString]
           | part :: parts => String c part :: parts
           end
  end.

(** Package strings on ASCII text: [strings.ToLower], [strings.ToUpper]
    and [strings.Title] as they act on strings of bytes below 128. They
    instantiate the case functions in the examples; the theorems on
    [ParseString] and [lookupString] hold for any case functions. *)
Definition lower_byte (c : ascii) : ascii :=
  let n := N_of_ascii c in
  if ((65 <=? n) && (n <=? 90))%N then ascii_of_N (n + 32) else c.

Definition upper_byte (c : ascii) : ascii :=
  let n := N_of_ascii c in
  if ((97 <=? n) && (n <=? 122))%N then ascii_of_N (n - 32) else c.

Fixpoint map_bytes (f : ascii → ascii) (s : string) : string :=
  match s with
  | EmptyString => EmptyString
  | String c s' => String (f c) (map_bytes f s')
  end.

Definition ascii_ToLower : string → string := map_bytes lower_byte.
Definition ascii_ToUpper : string → string := map_bytes upper_byte.

(** [isSeparator] of package strings, on a byte below 128: everything
    but letters, digits and the underscore. *)
Definition isSeparator (c : ascii) : bool :=
  let n := N_of_ascii c in
  negb (((48 <=? n) && (n <=? 57)) || ((97 <=? n) && (n <=? 122))
        || ((65 <=? n) && (n <=? 90)) || (n =? 95))%N.

(** [strings.Title]: the letter after a separator is mapped to title
    case, every other byte is kept. *)
Fixpoint Title_from (prev : ascii) (s : string) : string :=
  match s with
  | EmptyString => EmptyString
  | String c s' =>
      String (if isSeparator prev then upper_byte c else c) (Title_from c s')
  end.

Definition ascii_Title (s : string) : string := Title_from " "%char s.

(** What the package imports and the sources at hand do not hold: the
    case functions of Go's package strings, and the two symbol tables of
    keysymdef.go. The package is modelled over any such functions and
    tables. *)
Class GoStrings : Type := {
  ToLower : string → string;
  ToUpper : string → string;
  Title : string → string;
}.

Class SymbolTables : Type := {
  keysyms : gmap string Z;     (* map[string]xgb.Keysym *)
  strKeysyms : gmap Z string;  (* map[xgb.Keysym]string *)
}.

Section Keybind.
Context `{!GoStrings, !SymbolTables}.

(** ** lookupString *)

(** The first half of [lookupString]: the pair [sym, ok] after the four
    table lookups, [None] for [ok == false]. *)
Definition lookupString_sym (str : string) : option Z :=
  match keysyms !! str with
  | Some sym => Some sym
  | None =>
      match keysyms !! Title str with
      | Some sym => Some sym
      | None =>
          match keysyms !! ToLower str with
          | Some sym => Some sym
          | None => keysyms !! ToUpper str
          end
      end
  end.

Definition lookupString (xu : XUtil) (str : string) : Res Z :=
  match lookupString_sym str with
  | None => Ret (byte 0)
  | Some sym => keycodeGet xu sym
  end.

(** ** ParseString *)

(** One round of the loop of [ParseString] on the variables [mods, kc]. *)
Definition ParseString_part (xu : XUtil) (st : Z * Z) (part : string)
  : IO (Z * Z) :=
  let '(mods, kc) := st in
  let low := ToLower part in
  if String.eqb low "shift" then mret (Z.lor mods ModMaskShift, kc)
  else if String.eqb low "lock" then mret (Z.lor mods ModMaskLock, kc)
  else if String.eqb low "control" then mret (Z.lor mods ModMaskControl, kc)
  else if String.eqb low "mod1" then mret (Z.lor mods ModMask1, kc)
  else if String.eqb low "mod2" then mret (Z.lor mods ModMask2, kc)
  else if String.eqb low "mod3" then mret (Z.lor mods ModMask3, kc)
  else if String.eqb low "mod4" then mret (Z.lor mods ModMask4, kc)
  else if String.eqb low "mod5" then mret (Z.lor mods ModMask5, kc)
  else if String.eqb low "any" then mret (Z.lor mods ModMaskAny, kc)
  else (* a key code! *)
    if kc =? 0 then (* only accept the first keycode we see *)
      kc' ← run (lookupString xu part); mret (mods, kc')
    else mret (mods, kc).

Definition ParseString_warning (str : string) : string :=
  "We could not find a valid keycode in the string '" +:+ str
  +:+ "'. Things probably will not work right." +:+ newline.

Definition ParseString (xu : XUtil) (str : string) : IO (Z * Z) :=
  st ← for_range (Split str "-"%char) (ParseString_part xu) (0, 0);
  let '(mods, kc) := st in
  _ ← (if kc =? 0 then log_Printf (ParseString_warning str) else mret tt);
  mret (mods, kc).

(** ** XModMap *)

Definition nice : list string :=
  ["shift"; "lock"; "control"; "mod1"; "mod2"; "mod3"; "mod4"; "mod5"].

(** The body of the inner loop on the variable [comma]. A name missing
    from [strKeysyms] prints as the empty string. *)
Definition XModMap_keycode (xu : XUtil) (comma : string) (kc : Z)
  : IO string :=
  if negb (kc =? 0) then
    ksym ← run (keysymGet xu kc 0);
    ksym ← (if ksym =? 0 then run (keysymGet xu kc 1) else mret ksym);
    _ ← fmt_Printf (comma +:+ " " +:+ default EmptyString (strKeysyms !! ksym)
                    +:+ " (0x" +:+ fmt_X kc +:+ ")");
    mret ","
  else mret comma.

Definition XModMap_row (xu : XUtil) (_ : unit) (mmi : Z) : IO unit :=
  let modMap := ModMapGet xu in
  let kPerMod := KeycodesPerModifier modMap in
  let row := mmi * kPerMod in
  name ← run (index nice mmi);
  _ ← fmt_Printf (name +:+ tab +:+ tab);
  kcs ← run (slice (Keycodes modMap) row (row + kPerMod));
  _ ← for_range kcs (XModMap_keycode xu) EmptyString;
  fmt_Printf newline.

Definition XModMap (xu : XUtil) : IO unit :=
  _ ← fmt_Printf ("Replicating `xmodmap`..." +:+ newline);
  (* skip 'ModMaskAny' *)
  for_range (seqZ 0 (Z.of_nat (length modifiers) - 1)) (XModMap_row xu) tt.

End Keybind.

(** ** Specifications and sample data *)

(** A modifier map as the server sends it: eight rows of
    [KeycodesPerModifier] slots. *)
Record wf_modmap (xu : XUtil) : Prop := {
  wf_per_mod : 0 ≤ KeycodesPerModifier (ModMapGet xu) ≤ 255;
  wf_slots : Z.of_nat (length (Keycodes (ModMapGet xu)))
             = 8 * KeycodesPerModifier (ModMapGet xu);
}.

(** Slot [i] is the first slot of the modifier map that holds [keycode]. *)
Definition first_slot (xu : XUtil) (keycode i : Z) : Prop :=
  0 ≤ i
  ∧ Keycodes (ModMapGet xu) !! Z.to_nat i = Some keycode
  ∧ ∀ j k, 0 ≤ j < i →
           Keycodes (ModMapGet xu) !! Z.to_nat j = Some k → k ≠ keycode.

(** A state that holds the modifier map [m] and an empty key map. *)
Definition xu_of_modmap (m : GetModifierMappingReply) : XUtil :=
  {| MinKeycode := 8; MaxKeycode := 255;
     GetKeyboardMapping := λ _ _, (None, Some "no server");
     GetModifierMapping := (Some m, None);
     KeyMapGet := {| KeysymsPerKeycode := 0; Keysyms := [] |};
     ModMapGet := m |}.

(** Thirty-two keys bound to Shift, no other modifier bound: eight rows
    of 32 slots, 256 slots in all. *)
Definition modmap_32_per_modifier : GetModifierMappingReply :=
  {| KeycodesPerModifier := 32;
     Keycodes := seqZ 8 32 ++ replicate 224 0 |}.

(** Eight rows of 33 slots with 256 bound slots: keycodes 8 to 40 bound
    to each of Shift, Lock, Control and Mod1 to Mod4 (7 rows of 33), and
    keycodes 8 to 32 to Mod5, whose last eight slots are unbound. The
    first unbound slot is slot 256. *)
Definition modmap_33_per_modifier : GetModifierMappingReply :=
  {| KeycodesPerModifier := 33;
     Keycodes := concat (replicate 7 (seqZ 8 33)) ++ seqZ 8 25
                 ++ replicate 8 0 |}.

Section Specification.
Context `{!GoStrings, !SymbolTables}.

(** The bit a lower-cased token names, when it names a modifier. *)
Definition modifier_bit (low : string) : option Z :=
  if String.eqb low "shift" then Some ModMaskShift
  else if String.eqb low "lock" then Some ModMaskLock
  else if String.eqb low "control" then Some ModMaskControl
  else if String.eqb low "mod1" then Some ModMask1
  else if String.eqb low "mod2" then Some ModMask2
  else if String.eqb low "mod3" then Some ModMask3
  else if String.eqb low "mod4" then Some ModMask4
  else if String.eqb low "mod5" then Some ModMask5
  else if String.eqb low "any" then Some ModMaskAny
  else None.

(** The mask of a binding: the bits of its modifier tokens, ORed. *)
Definition mask_of (parts : list string) : Z :=
  foldr Z.lor 0 (omap (λ part, modifier_bit (ToLower part)) parts).

(** The tokens that name no modifier, in the order of the binding. *)
Definition key_parts (parts : list string) : list string :=
  filter (λ part, modifier_bit (ToLower part) = None) parts.

(** The keycode a token resolves to through [lookupString]. *)
Definition resolved (xu : XUtil) (part : string) : Z :=
  match lookupString xu part with
  | Ret kc => kc
  | Panic _ => 0
  end.

(** The rule as the specification words it: the first token that names
    no modifier is the key, whatever it resolves to. *)
Definition first_token_keycode (xu : XUtil) (parts : list string) : Z :=
  match key_parts parts with
  | [] => 0
  | part :: _ => resolved xu part
  end.

Definition first_token_rule (xu : XUtil) (str : string) : Prop :=
  ∃ log, ParseString xu str
         = (log, Ret (mask_of (Split str "-"%char),
                      first_token_keycode xu (Split str "-"%char))).

(** The rule of the code: the first token that names no modifier and
    resolves to a keycode other than 0 is the key. *)
Definition first_resolved_keycode (xu : XUtil) (parts : list string) : Z :=
  default 0 (head (filter (λ kc, kc ≠ 0) (resolved xu <$> key_parts parts))).

(** The four names [lookupString] tries, in its order. *)
Definition lookup_candidates (str : string) : list string :=
  [str; Title str; ToLower str; ToUpper str].

(** The symbol the dump shows for a keycode: its first column, or its
    second column when the first holds the null symbol. *)
Definition displayed_symbol (xu : XUtil) (kc : Z) : Z :=
  if entry xu kc 0 =? 0 then entry xu kc 1 else entry xu kc 0.

(** The slots of row [mmi] of the modifier map, and the bound ones. *)
Definition row_slots (xu : XUtil) (mmi : Z) : list Z :=
  take (Z.to_nat (KeycodesPerModifier (ModMapGet xu)))
       (drop (Z.to_nat (mmi * KeycodesPerModifier (ModMapGet xu)))
             (Keycodes (ModMapGet xu))).

Definition bound_keycodes (xu : XUtil) (mmi : Z) : list Z :=
  filter (λ kc, kc ≠ 0) (row_slots xu mmi).

(** What the dump prints for the bound keycodes of a row; the first one
    goes without a comma. *)
Fixpoint print_keycodes (xu : XUtil) (comma : string) (kcs : list Z)
  : list event :=
  match kcs with
  | [] => []
  | kc :: kcs' =>
      Stdout (comma +:+ " "
              +:+ default EmptyString (strKeysyms !! displayed_symbol xu kc)
              +:+ " (0x" +:+ fmt_X kc +:+ ")")
      :: print_keycodes xu "," kcs'
  end.

Definition print_row (xu : XUtil) (mmi : Z) (name : string) : list event :=
  Stdout (name +:+ tab +:+ tab)
  :: print_keycodes xu EmptyString (bound_keycodes xu mmi)
  ++ [Stdout newline].

(** The whole dump: the heading, then the rows Shift, Lock, Control and
    Mod1 to Mod5 in this order, the row of Any left out. *)
Definition XModMap_output (xu : XUtil) : list event :=
  Stdout ("Replicating `xmodmap`..." +:+ newline)
  :: concat (imap (λ mmi name, print_row xu (Z.of_nat mmi) name) nice).

(** The bound keycodes of the modifier map are keycodes of the key map. *)
Definition modmap_in_keymap (xu : XUtil) : Prop :=
  ∀ kc, kc ∈ Keycodes (ModMapGet xu) → kc ≠ 0 →
        MinKeycode xu ≤ kc ≤ MaxKeycode xu.

End Specification.


(** Package strings on ASCII text, as an instance. *)
Definition ascii_strings : GoStrings :=
  {| ToLower := ascii_ToLower; ToUpper := ascii_ToUpper; Title := ascii_Title |}.

(** A symbol table that knows the name Return and no other. *)
Definition only_Return : SymbolTables :=
  {| keysyms := {[ "Return" := 65293 ]};
     strKeysyms := {[ 65293 := "Return" ]} |}.

(** A small keyboard: keycodes 8 to 11 with two columns each (Shift_L on
    8 in its second column, j and J on 9, Return on 10, j again on 11),
    keycode 8 bound to Shift and keycode 11 to Mod1. *)
Definition sample_tables : SymbolTables :=
  {| keysyms := {[ "j" := 106; "J" := 74; "Return" := 65293;
                   "Shift_L" := 65505 ]};
     strKeysyms := {[ 106 := "j"; 74 := "J"; 65293 := "Return";
                      65505 := "Shift_L" ]} |}.

Definition sample_keymap : GetKeyboardMappingReply :=
  {| KeysymsPerKeycode := 2;
     Keysyms := [0; 65505; 106; 74; 65293; 0; 106; 0] |}.

Definition sample_modmap : GetModifierMappingReply :=
  {| KeycodesPerModifier := 2;
     Keycodes := [8; 0; 0; 0; 0; 0; 0; 11; 0; 0; 0; 0; 0; 0; 0; 0] |}.

Definition sample_xu : XUtil :=
  {| MinKeycode := 8; MaxKeycode := 11;
     GetKeyboardMapping := λ _ _, (Some sample_keymap, None);
     GetModifierMapping := (Some sample_modmap, None);
     KeyMapGet := sample_keymap;
     ModMapGet := sample_modmap |}.

(** * xgraphics: images, pixmaps and icons

    Conventions. Go's [int] is taken at 64 bits. [FindBestIcon], whose
    areas are products of sizes that nothing bounds, has the wrap-around
    of [int] written out. For the functions on images and pixmaps the
    arithmetic of [int] is written exact on [Z], and every theorem bounds
    the sizes it speaks of so that no operation leaves the range of
    [int]. Conversions to [uint8], [uint16] and [int16] are written out. Package image of Go is modelled
    by what its interface documents: an [image.Image] is its bounds and
    the colour [At] gives at a point, an [*image.RGBA] is its rectangle
    and the pixels set in it. *)

(** A [for ... range] or counting loop without output that carries the
    variables [s] it assigns. *)
Fixpoint for_each {S A} (xs : list A) (body : S → A → Res S) (s : S)
  : Res S :=
  match xs with
  | [] => Ret s
  | x :: xs' => s' ← body s x; for_each xs' body s'
  end.

(** [a / b] on [int]: truncated division. *)
Definition quot (a b : Z) : Res Z :=
  if b =? 0 then Panic DivideByZero else Ret (Z.quot a b).

(** [make([]T, n)]. *)
Definition make {A} (n : Z) (zero : A) : Res (list A) :=
  if n <? 0 then Panic (Explicit "makeslice: len out of range")
  else Ret (replicate (Z.to_nat n) zero).

(** [l[i] = v]. *)
Definition store {A} (l : list A) (i : Z) (v : A) : Res (list A) :=
  if bool_decide (0 ≤ i < Z.of_nat (length l)) then Ret (<[Z.to_nat i := v]> l)
  else Panic IndexOutOfRange.

(** A result on [int], with its wrap-around. *)
Definition int (n : Z) : Z := (n + 2 ^ 63) mod 2 ^ 64 - 2 ^ 63.

Definition uint8 (n : Z) : Z := n mod 256.
Definition uint16 (n : Z) : Z := n mod 65536.
Definition int16 (n : Z) : Z := (n + 32768) mod 65536 - 32768.

(** ** Package image *)

(** [image.Rectangle]: [Min] and [Max]. *)
Record Rectangle : Type := {
  MinX : Z; MinY : Z; MaxX : Z; MaxY : Z;
}.

(** [image.Rect]: the rectangle of two corners, put in order. *)
Definition image_Rect (x0 y0 x1 y1 : Z) : Rectangle :=
  {| MinX := Z.min x0 x1; MinY := Z.min y0 y1;
     MaxX := Z.max x0 x1; MaxY := Z.max y0 y1 |}.

(** What [Color.RGBA()] returns: four channels of 16 bits. *)
Record Color : Type := {
  RGBA_r : Z; RGBA_g : Z; RGBA_b : Z; RGBA_a : Z;
}.

(** [image.Image]. *)
Record Image : Type := {
  Bounds : Rectangle;
  At : Z → Z → Color;
}.

(** [color.RGBA]: four channels of 8 bits. *)
Record RGBAColor : Type := {
  cR : Z; cG : Z; cB : Z; cA : Z;
}.

#[global] Instance RGBAColor_eq_dec : EqDecision RGBAColor.
Proof. solve_decision. Defined.

(** [*image.RGBA]: the pixels set so far; every other pixel is zero. *)
Record RGBA : Type := {
  Rect : Rectangle;
  Pix : gmap (Z * Z) RGBAColor;
}.

Definition NewRGBA (r : Rectangle) : RGBA := {| Rect := r; Pix := ∅ |}.

(** [Point{x, y}.In(r)]. *)
Definition In_rect (x y : Z) (r : Rectangle) : bool :=
  (MinX r <=? x) && (x <? MaxX r) && (MinY r <=? y) && (y <? MaxY r).

(** [SetRGBA] of [*image.RGBA]: nothing happens outside the rectangle. *)
Definition SetRGBA (img : RGBA) (x y : Z) (c : RGBAColor) : RGBA :=
  if In_rect x y (Rect img)
  then {| Rect := Rect img; Pix := <[(x, y) := c]> (Pix img) |}
  else img.

(** [Set] of [*image.RGBA] with a [color.Alpha]: the RGBA colour model turns
    alpha [a] into the colour whose four channels are [a]. *)
Definition Set_Alpha (img : RGBA) (x y : Z) (a : Z) : RGBA :=
  SetRGBA img x y {| cR := a; cG := a; cB := a; cA := a |}.

(** [RGBAAt] of [*image.RGBA]. *)
Definition RGBAAt (img : RGBA) (x y : Z) : RGBAColor :=
  if In_rect x y (Rect img)
  then default {| cR := 0; cG := 0; cB := 0; cA := 0 |} (Pix img !! (x, y))
  else {| cR := 0; cG := 0; cB := 0; cA := 0 |}.

(** ** GetDim *)

Definition GetDim (img : Image) : Z * Z :=
  let bounds := Bounds img in
  (MaxX bounds - MinX bounds, MaxY bounds - MinY bounds).

(** ** FindBestIcon *)

(** [ewmh.WmIcon]. *)
Record WmIcon : Type := {
  Width : Z;
  Height : Z;
  Data : list Z;
}.

(** The body of the loop of [FindBestIcon] on the variable [best]. *)
Definition FindBestIcon_icon (parea : Z) (icons : list WmIcon) (best : Z)
    (item : Z * WmIcon) : Res Z :=
  let '(i, icon) := item in
  if best =? -1 then Ret i (* the first valid icon we've seen; use it! *)
  else
    b ← index icons best;
    let bestArea := int (Width b * Height b) in
    let iconArea := int (Width icon * Height icon) in
    if ((parea <=? iconArea) && (iconArea <=? bestArea))
       || ((bestArea <? parea) && (bestArea <? iconArea))
    then Ret i
    else Ret best.

(** [FindBestIcon]; the pointer [&icons[best]] it returns is the index
    [best], [nil] is [None]. *)
Definition FindBestIcon (width height : Z) (icons : list WmIcon)
  : Res (option Z) :=
  if Z.of_nat (length icons) =? 0 then Ret None (* nada nada limonada *)
  else
    let parea := int (width * height) in (* preferred size *)
    best ← for_each (imap (λ i icon, (Z.of_nat i, icon)) icons)
                    (FindBestIcon_icon parea icons) (-1);
    if -1 <? best then Ret (Some best) else Ret None.

(** The area of the icon at an index, 0 outside the list. *)
Definition icon_area (icons : list WmIcon) (i : Z) : Z :=
  match icons !! Z.to_nat i with
  | Some icon => Width icon * Height icon
  | None => 0
  end.

(** The area as the code computes it, on [int]. *)
Definition int_area (icons : list WmIcon) (i : Z) : Z :=
  int (icon_area icons i).

(** Widths and heights whose products fit [int]. *)
Definition icon_sizes_fit (icons : list WmIcon) : Prop :=
  ∀ icon, icon ∈ icons →
          -2147483648 ≤ Width icon ≤ 2147483647
          ∧ -2147483648 ≤ Height icon ≤ 2147483647.

(** [best] is what the documentation of [FindBestIcon] asks for among
    the first [n] icons, on the areas as the code computes them: the
    smallest icon that reaches the preferred area (the last one of that
    area), or, when none reaches it, the biggest icon (the first one of
    that area). *)
Definition best_icon (parea : Z) (icons : list WmIcon) (n best : Z) : Prop :=
  0 ≤ best < n
  ∧ (parea ≤ int_area icons best →
     ∀ j, 0 ≤ j < n → parea ≤ int_area icons j →
          int_area icons best ≤ int_area icons j
          ∧ (int_area icons j = int_area icons best → j ≤ best))
  ∧ (int_area icons best < parea →
     ∀ j, 0 ≤ j < n →
          int_area icons j ≤ int_area icons best
          ∧ (int_area icons j = int_area icons best → best ≤ j)).

(** Three icons of 16, 32 and 64 pixels a side. *)
Definition sample_icons : list WmIcon :=
  [ {| Width := 16; Height := 16; Data := [] |};
    {| Width := 32; Height := 32; Data := [] |};
    {| Width := 64; Height := 64; Data := [] |} ].

(** ** EwmhIconToImage *)

(** The body of the loops of [EwmhIconToImage] on the images [img] and
    [mask]. *)
Definition EwmhIconToImage_pixel (icon : WmIcon) (width : Z)
    (st : RGBA * RGBA) (x y : Z) : Res (RGBA * RGBA) :=
  let '(img, mask) := st in
  argb ← index (Data icon) (x + y * width);
  let alpha := Z.shiftr argb 24 in
  let red := Z.shiftr (Z.lxor (Z.shiftl alpha 24) argb) 16 in
  let green :=
    Z.shiftr (Z.lxor (Z.shiftl alpha 24 + Z.shiftl red 16) argb) 8 in
  let blue :=
    Z.shiftr (Z.lxor (Z.shiftl alpha 24 + Z.shiftl red 16 + Z.shiftl green 8)
                     argb) 0 in
  let c := {| cR := uint8 red; cG := uint8 green; cB := uint8 blue;
              cA := 255 |} in
  Ret (SetRGBA img x y c, Set_Alpha mask x y (uint8 alpha)).

Definition EwmhIconToImage (icon : WmIcon) : Res (RGBA * RGBA) :=
  let '(width, height) := (Width icon, Height icon) in
  let img := NewRGBA (image_Rect 0 0 width height) in
  let mask := NewRGBA (image_Rect 0 0 width height) in
  for_each (seqZ 0 width) (λ st x,
    for_each (seqZ 0 height) (λ st y,
      EwmhIconToImage_pixel icon width st x y) st) (img, mask).

(** The points a pair of nested loops visits, in its order. *)
Definition points (xs ys : list Z) : list (Z * Z) :=
  x ← xs; (λ y, (x, y)) <$> ys.

(** Byte [k] of a word, counted from the low end. *)
Definition byte_of (word : Z) (k : Z) : Z := (word / 2 ^ (8 * k)) mod 256.

(** An icon of two by two pixels: opaque red, half-opaque green, opaque
    blue, transparent white. *)
Definition sample_icon : WmIcon :=
  {| Width := 2; Height := 2;
     Data := [4294901760; 2147548928; 4278190335; 16777215] |}.

(** The icon [sample_icon] with one word of data only. *)
Definition short_icon : WmIcon :=
  {| Width := 2; Height := 2; Data := [4294901760] |}.

(** ** The connection, as package xgraphics uses it *)

Definition ImageFormatXYPixmap : Z := 1.
Definition ImageFormatZPixmap : Z := 2.

(** What [PixmapToImage] and [BitmapToImage] ask of the server: the
    geometry of a drawable, through [xwindow.RawGeometry], as its width
    and height, and [GetImage] (format, drawable, x, y, width, height,
    plane mask), which answers with the bytes of the image. Each answers
    with Go's pair of a pointer and an error. *)
Record ImageConn : Type := {
  RawGeometry : Z → option (Z * Z) * option string;
  GetImage : Z → Z → Z → Z → Z → Z → Z → option (list Z) * option string;
}.

(** Reading through a pointer. *)
Definition deref {A} (p : option A) : Res A :=
  match p with
  | Some a => Ret a
  | None => Panic (Explicit "invalid memory address or nil pointer dereference")
  end.

(** A server that answers every request with the same geometry and the
    same data. *)
Definition sample_conn (width height : Z) (data : list Z) : ImageConn :=
  {| RawGeometry := λ _, (Some (width, height), None);
     GetImage := λ _ _ _ _ _ _ _, (Some data, None) |}.

(** ** PixmapToImage *)

(** The body of the loop that fills [buf], for the counter pair
    [i = 4 * j] and [j]. *)
Definition PixmapToImage_pixel (data : list Z) (buf : list RGBAColor) (j : Z)
  : Res (list RGBAColor) :=
  let i := 4 * j in
  blue ← index data (i + 0);
  green ← index data (i + 1);
  red ← index data (i + 2);
  store buf j {| cR := uint8 red; cG := uint8 green; cB := uint8 blue;
                 cA := 255 |}.

Definition PixmapToImage (xu : ImageConn) (pix : Z)
  : Res (option RGBA * option string) :=
  let '(geom, err) := RawGeometry xu pix in
  if bool_decide (err ≠ None) then Ret (None, err)
  else
    g ← deref geom;
    let '(width, height) := g in
    let '(data, err) := GetImage xu ImageFormatZPixmap pix 0 0
                          (uint16 width) (uint16 height) (2 ^ 32 - 1) in
    if bool_decide (err ≠ None) then Ret (None, err)
    else
      data ← deref data;
      buf ← make (width * height) {| cR := 0; cG := 0; cB := 0; cA := 0 |};
      (* i runs over 0, 4, 8, ... below len(data.Data), j over 0, 1, 2, ... *)
      buf ← for_each (seqZ 0 ((Z.of_nat (length data) + 3) / 4))
                     (PixmapToImage_pixel data) buf;
      img ← for_each (seqZ 0 width) (λ img x,
               for_each (seqZ 0 height) (λ img y,
                 c ← index buf (x + y * width);
                 Ret (SetRGBA img x y c)) img)
             (NewRGBA (image_Rect 0 0 width height));
      Ret (Some img, None).

(** ** BitmapToImage *)

Definition whiteOrBlack (b : Z) : Z :=
  if 0 <? Z.land b 1 then 255 else 0.

(** The body of the loop over the bytes of the bitmap; [buf] holds the
    alpha of each [color.Alpha]. *)
Definition BitmapToImage_byte (data : list Z) (buf : list Z) (i : Z)
  : Res (list Z) :=
  b ← index data i;
  st ← for_each (seqZ 0 8) (λ (st : list Z * Z) k,
          let '(buf, b) := st in
          buf ← store buf (i * 8 + k) (whiteOrBlack b);
          Ret (buf, uint8 (Z.shiftr b 1)))
        (buf, b);
  Ret st.1.

Definition BitmapToImage (xu : ImageConn) (pix : Z)
  : Res (option RGBA * option string) :=
  let '(geom, err) := RawGeometry xu pix in
  if bool_decide (err ≠ None) then Ret (None, err)
  else
    g ← deref geom;
    let '(width, height) := g in
    let '(data, err) := GetImage xu ImageFormatXYPixmap pix 0 0
                          (uint16 width) (uint16 height) (2 ^ 32 - 1) in
    if bool_decide (err ≠ None) then Ret (None, err)
    else
      data ← deref data;
      buf ← make (width * height) 0;
      buf ← for_each (seqZ 0 (Z.of_nat (length data)))
                     (BitmapToImage_byte data) buf;
      img ← for_each (seqZ 0 width) (λ img x,
               for_each (seqZ 0 height) (λ img y,
                 a ← index buf (x + y * width);
                 Ret (Set_Alpha img x y a)) img)
             (NewRGBA (image_Rect 0 0 width height));
      Ret (Some img, None).

(** ** CreatePixmap *)

(** The requests [CreatePixmap] and [Grab] send. *)
Inductive request : Type :=
  | CreatePixmapReq (depth pid drawable width height : Z)
  | PutImageReq (format drawable gc width height dstX dstY leftPad depth : Z)
                (data : list Z)
  | GrabKeyReq (ownerEvents : bool)
               (grabWindow modifiers key pointerMode keyboardMode : Z).

(** What [CreatePixmap] reads of [xu]. *)
Record Display : Type := {
  RootDepth : Z;
  RootWin : Z;
  GC : Z;
}.

(** The body of the loops that fill [imgData]. *)
Definition CreatePixmap_pixel (img : Image) (width : Z) (imgData : list Z)
    (x y : Z) : Res (list Z) :=
  let c := At img x y in
  let i := 4 * (x + y * width) in
  imgData ← store imgData (i + 0) (byte (Z.shiftr (RGBA_b c) 8));
  imgData ← store imgData (i + 1) (byte (Z.shiftr (RGBA_g c) 8));
  imgData ← store imgData (i + 2) (byte (Z.shiftr (RGBA_r c) 8));
  store imgData (i + 3) (byte (Z.shiftr (RGBA_a c) 8)).

(** The first half of [CreatePixmap]: the bytes of the image. *)
Definition CreatePixmap_data (img : Image) : Res (list Z) :=
  let '(width, height) := GetDim img in
  imgData ← make (width * height * 4) 0;
  for_each (seqZ 0 width) (λ imgData x,
    for_each (seqZ 0 height) (λ imgData y,
      CreatePixmap_pixel img width imgData x y) imgData) imgData.

(** The body of the loop that sends the bytes, on the variables [ypos]
    and [startBytes] and the requests sent so far. *)
Definition CreatePixmap_send (xu : Display) (pid width rowsPer : Z)
    (imgData : list Z) (st : list request * Z * Z) (i : Z)
  : Res (list request * Z * Z) :=
  let '(sent, ypos, startBytes) := st in
  let endBytes := startBytes + rowsPer * width * 4 in
  let endBytes :=
    if Z.of_nat (length imgData) <? endBytes then Z.of_nat (length imgData)
    else endBytes in
  data ← slice imgData startBytes endBytes;
  len4 ← quot (Z.of_nat (length data)) 4;
  h ← quot len4 width;
  Ret (sent ++ [PutImageReq ImageFormatZPixmap pid (GC xu)
                            (uint16 width) (uint16 h) 0 (int16 ypos) 0 24 data],
       ypos + rowsPer, endBytes).

(** [CreatePixmap], with the greatest size of a request, which package
    xgbutil declares, and the id [NewId] hands out as arguments; it
    returns the requests sent and the id. *)
Definition CreatePixmap (MAX_REQ_SIZE : Z) (xu : Display) (pid : Z)
    (img : Image) : Res (list request * Z) :=
  let '(width, height) := GetDim img in
  imgData ← CreatePixmap_data img;
  let imgDataLen := Z.of_nat (length imgData) in
  let created := [CreatePixmapReq (RootDepth xu) pid (RootWin xu)
                                  (uint16 width) (uint16 height)] in
  q ← quot imgDataLen (MAX_REQ_SIZE - 28);
  let sends := q + 1 in
  rowsPer ← quot (MAX_REQ_SIZE - 28) (width * 4);
  st ← for_each (seqZ 0 sends) (CreatePixmap_send xu pid width rowsPer imgData)
                (created, 0, 0);
  Ret (st.1.1, pid).

(** The data of the [PutImage] requests of a run, in the order sent. *)
Definition put_data (reqs : list request) : list (list Z) :=
  omap (λ r, match r with
             | PutImageReq _ _ _ _ _ _ _ _ _ data => Some data
             | _ => None
             end) reqs.

(** A red and a blue pixel side by side, as package image gives opaque
    colours of 8 bits: each channel twice in 16 bits. *)
Definition sample_image : Image :=
  {| Bounds := {| MinX := 0; MinY := 0; MaxX := 2; MaxY := 1 |};
     At := λ x _, if x =? 0
                  then {| RGBA_r := 65535; RGBA_g := 0; RGBA_b := 0;
                          RGBA_a := 65535 |}
                  else {| RGBA_r := 0; RGBA_g := 0; RGBA_b := 65535;
                          RGBA_a := 65535 |} |}.

Definition sample_display : Display :=
  {| RootDepth := 24; RootWin := 1; GC := 2 |}.

Definition black : Color :=
  {| RGBA_r := 0; RGBA_g := 0; RGBA_b := 0; RGBA_a := 65535 |}.

(** A black image of a given width and height. *)
Definition black_image (width height : Z) : Image :=
  {| Bounds := {| MinX := 0; MinY := 0; MaxX := width; MaxY := height |};
     At := λ _ _, black |}.

(** The four bytes [CreatePixmap] stores for a colour: blue, green, red
    and alpha, each the high byte of its 16 bits. *)
Definition BGRA_bytes (c : Color) : list Z :=
  [ byte (Z.shiftr (RGBA_b c) 8); byte (Z.shiftr (RGBA_g c) 8);
    byte (Z.shiftr (RGBA_r c) 8); byte (Z.shiftr (RGBA_a c) 8) ].

(** Four bytes written from index [i] on. *)
Definition write4 (l : list Z) (i : Z) (bytes : list Z) : list Z :=
  foldl (λ l kb, <[Z.to_nat (i + Z.of_nat kb.1) := kb.2]> l) l
        (imap (λ k b, (k, b)) bytes).

(** Where the data of send [i] starts: [R] bytes a send, never past the
    [L] bytes there are. *)
Definition send_start (L R i : Z) : Z := Z.min L (i * R).

(** The data of send [i]. *)
Definition send_data (imgData : list Z) (R i : Z) : list Z :=
  let L := Z.of_nat (length imgData) in
  take (Z.to_nat (send_start L R (i + 1) - send_start L R i))
       (drop (Z.to_nat (send_start L R i)) imgData).

(** The request of send [i]. *)
Definition send_request (xu : Display) (pid width rowsPer : Z)
    (imgData : list Z) (i : Z) : request :=
  let data := send_data imgData (rowsPer * width * 4) i in
  PutImageReq ImageFormatZPixmap pid (GC xu) (uint16 width)
              (uint16 (Z.of_nat (length data) / 4 / width)) 0
              (int16 (i * rowsPer)) 0 24 data.

(** The alpha [BitmapToImage] gives pixel [j] of a bitmap: bit [j mod 8]
    of byte [j / 8], the low bit first, as 255 or 0. *)
Definition bitmap_alpha (data : list Z) (j : Z) : Z :=
  whiteOrBlack (Z.shiftr (nth (Z.to_nat (j / 8)) data 0) (j mod 8)).

(** The indices of [buf] that the byte [i] of a bitmap fills. *)
Definition bitmap_indices (i : Z) : list Z :=
  (λ k, i * 8 + k) <$> seqZ 0 8.

(** * keybind: Grab *)

Definition GrabModeAsync : Z := 1.

(** The masks a window manager ignores as a rule: none, Lock, Mod2 and
    both. *)
Definition sample_IgnoreMods : list Z :=
  [0; ModMaskLock; ModMask2; Z.lor ModMaskLock ModMask2].

(** [Grab], with the list [xgbutil.IgnoreMods], which package xgbutil
    declares, as an argument; it returns the requests sent. *)
Definition Grab (IgnoreMods : list Z) (win mods key : Z) : list request :=
  foldl (λ sent m,
           sent ++ [GrabKeyReq true win (Z.lor mods m) key
                               GrabModeAsync GrabModeAsync])
        [] IgnoreMods.


(** The sample keyboard on a connection whose request for the modifier
    mapping fails. *)
Definition failing_xu : XUtil :=
  {| MinKeycode := 8; MaxKeycode := 11;
     GetKeyboardMapping := λ _ _, (Some sample_keymap, None);
     GetModifierMapping := (None, Some "connection closed");
     KeyMapGet := sample_keymap;
     ModMapGet := sample_modmap |}.
(** ** Lemmas on loops and indexing *)

Lemma index_Ret {A} (l : list A) i x :
  0 ≤ i → l !! Z.to_nat i = Some x → index l i = Ret x.
Proof.
  intros Hi Hl. unfold index. rewrite bool_decide_eq_true_2 by done.
  by rewrite Hl.
Qed.

Lemma index_Panic {A} (l : list A) i :
  i < 0 ∨ Z.of_nat (length l) ≤ i → index l i = Panic IndexOutOfRange.
Proof.
  intros Hi. unfold index. case_bool_decide; [|done].
  rewrite lookup_ge_None_2; [done|lia].
Qed.

Lemma index_nth (l : list Z) i :
  0 ≤ i < Z.of_nat (length l) → index l i = Ret (nth (Z.to_nat i) l 0).
Proof.
  intros Hi. apply index_Ret; [lia|].
  destruct (nth_lookup_or_length l (Z.to_nat i) 0); [done|lia].
Qed.

Lemma for_return_None {S A} (xs : list S) (body : S → Res (option A)) :
  (∀ x, x ∈ xs → body x = Ret None) → for_return xs body = Ret None.
Proof.
  induction xs as [|x xs IH]; intros Hall; [done|]. simpl.
  rewrite (Hall x) by left. apply IH. intros y Hy. apply Hall. by right.
Qed.

Lemma for_return_first {S A} (l1 l2 : list S) x (body : S → Res (option A)) a :
  (∀ y, y ∈ l1 → body y = Ret None) →
  body x = Ret (Some a) →
  for_return (l1 ++ x :: l2) body = Ret (Some a).
Proof.
  intros Hall Hx. induction l1 as [|y l1 IH]; simpl.
  - by rewrite Hx.
  - rewrite (Hall y) by left. apply IH. intros z Hz. apply Hall. by right.
Qed.

Lemma for_return_cases {S A} (xs : list S) (body : S → Res (option A)) :
  (∀ x, x ∈ xs → ∃ o, body x = Ret o) →
  (for_return xs body = Ret None ∧ ∀ x, x ∈ xs → body x = Ret None)
  ∨ (∃ l1 x l2 a, xs = l1 ++ x :: l2
       ∧ (∀ y, y ∈ l1 → body y = Ret None)
       ∧ body x = Ret (Some a)
       ∧ for_return xs body = Ret (Some a)).
Proof.
  induction xs as [|x xs IH]; intros Hret.
  - left. split; [done|]. intros x Hx. by apply elem_of_nil in Hx.
  - destruct (Hret x) as [[a|] Hx]; [by left| |].
    + right. exists [], x, xs, a. simpl. rewrite Hx.
      split_and!; try done. intros y Hy. by apply elem_of_nil in Hy.
    + destruct IH as [[Hnone Hall]|(l1 & y & l2 & a & -> & Hl1 & Hy & Hres)].
      * intros z Hz. apply Hret. by right.
      * left. simpl. rewrite Hx. split; [done|].
        intros z [->|Hz]%elem_of_cons; auto.
      * right. exists (x :: l1), y, l2, a. simpl. rewrite Hx.
        split_and!; try done. intros z [->|Hz]%elem_of_cons; auto.
Qed.

Lemma seqZ_split_before m n (l1 l2 : list Z) x :
  seqZ m n = l1 ++ x :: l2 →
  m ≤ x < m + n ∧ ∀ y, m ≤ y < x → y ∈ l1.
Proof.
  intros Heq.
  assert (Hx : seqZ m n !! length l1 = Some x).
  { rewrite Heq. by apply list_lookup_middle. }
  apply lookup_seqZ in Hx as [-> Hlen]. split; [lia|].
  intros y Hy.
  assert (Hy' : seqZ m n !! Z.to_nat (y - m) = Some y).
  { apply lookup_seqZ. split; lia. }
  rewrite Heq, lookup_app_l in Hy' by lia.
  by eapply list_elem_of_lookup_2.
Qed.

Lemma byte_id n : 0 ≤ n ≤ 255 → byte n = n.
Proof. intros Hn. unfold byte. apply Z.mod_small. lia. Qed.

(** ** keysymGet *)

Lemma keysymGet_index_bounds xu keycode column :
  wf_keymap xu →
  MinKeycode xu ≤ keycode ≤ MaxKeycode xu →
  0 ≤ column < KeysymsPerKeycode (KeyMapGet xu) →
  0 ≤ (keycode - MinKeycode xu) * KeysymsPerKeycode (KeyMapGet xu) + column
    < Z.of_nat (length (Keysyms (KeyMapGet xu))).
Proof.
  intros Hwf Hkc Hc. rewrite (wf_len _ Hwf). nia.
Qed.

Lemma keysymGet_entry xu keycode column :
  wf_keymap xu →
  MinKeycode xu ≤ keycode ≤ MaxKeycode xu →
  0 ≤ column < KeysymsPerKeycode (KeyMapGet xu) →
  keysymGet xu keycode column = Ret (entry xu keycode column).
Proof.
  intros Hwf Hkc Hc. unfold keysymGet, entry. simpl.
  apply index_nth. by apply keysymGet_index_bounds.
Qed.

(** C9. Under the documented precondition (a keycode of [min, max], a
    column below [KeysymsPerKeycode], a table of (max - min + 1) *
    KeysymsPerKeycode symbols) the index [keysymGet] computes lies inside
    the table and the lookup returns the symbol stored there; with a
    keycode outside [min, max] the lookup panics on the index, it yields
    no default symbol. *)
Theorem keysymGet_in_range xu keycode column :
  wf_keymap xu →
  0 ≤ column < KeysymsPerKeycode (KeyMapGet xu) →
  let i := (keycode - MinKeycode xu) * KeysymsPerKeycode (KeyMapGet xu)
           + column in
  (MinKeycode xu ≤ keycode ≤ MaxKeycode xu →
     0 ≤ i < Z.of_nat (length (Keysyms (KeyMapGet xu)))
     ∧ ∃ sym, Keysyms (KeyMapGet xu) !! Z.to_nat i = Some sym
              ∧ keysymGet xu keycode column = Ret sym)
  ∧ (keycode < MinKeycode xu ∨ MaxKeycode xu < keycode →
     keysymGet xu keycode column = Panic IndexOutOfRange).
Proof.
  intros Hwf Hc i. split.
  - intros Hkc.
    pose proof (keysymGet_index_bounds xu keycode column Hwf Hkc Hc) as Hi.
    split; [done|].
    destruct (lookup_lt_is_Some_2 (Keysyms (KeyMapGet xu)) (Z.to_nat i))
      as [sym Hsym]; [subst i; lia|].
    exists sym. split; [done|].
    unfold keysymGet. simpl. apply index_Ret; [apply Hi|done].
  - intros Hout. unfold keysymGet. simpl. apply index_Panic.
    rewrite (wf_len _ Hwf). destruct Hout; [left|right]; nia.
Qed.

(** ** keycodeGet *)

Lemma keycodeGet_columns xu keysym kc :
  wf_keymap xu →
  MinKeycode xu ≤ kc ≤ MaxKeycode xu →
  let cols :=
    for_return (seqZ 0 (KeysymsPerKeycode (KeyMapGet xu))) (λ c,
      s ← keysymGet xu (byte kc) c;
      if keysym =? s then Ret (Some (byte kc)) else Ret None) in
  (holds_sym xu keysym kc ∧ cols = Ret (Some kc))
  ∨ (¬ holds_sym xu keysym kc ∧ cols = Ret None).
Proof.
  intros Hwf Hkc cols.
  pose proof (wf_min _ Hwf). pose proof (wf_max _ Hwf).
  assert (Hbody : ∀ c, c ∈ seqZ 0 (KeysymsPerKeycode (KeyMapGet xu)) →
    (s ← keysymGet xu (byte kc) c;
     if keysym =? s then Ret (Some (byte kc)) else Ret None)
    = Ret (if keysym =? entry xu kc c then Some kc else None)).
  { intros c Hc%elem_of_seqZ. rewrite byte_id by lia.
    rewrite keysymGet_entry by (done || lia). simpl.
    by destruct (keysym =? entry xu kc c). }
  destruct (for_return_cases (seqZ 0 (KeysymsPerKeycode (KeyMapGet xu)))
    (λ c, s ← keysymGet xu (byte kc) c;
          if keysym =? s then Ret (Some (byte kc)) else Ret None))
    as [[Hnone Hall]|(l1 & c & l2 & a & Heq & _ & Hc & Hres)].
  - intros c Hc. rewrite Hbody by done. eauto.
  - right. split; [|done]. intros (c & Hc & Hent).
    assert (Hin : c ∈ seqZ 0 (KeysymsPerKeycode (KeyMapGet xu))).
    { apply elem_of_seqZ. lia. }
    specialize (Hall c Hin). rewrite Hbody in Hall by done.
    rewrite <- Hent, Z.eqb_refl in Hall. done.
  - left. assert (Hin : c ∈ seqZ 0 (KeysymsPerKeycode (KeyMapGet xu))).
    { rewrite Heq. apply elem_of_app. right. by left. }
    rewrite Hbody in Hc by done.
    destruct (keysym =? entry xu kc c) eqn:Heqb; [|done].
    injection Hc as <-. split; [|done].
    exists c. apply elem_of_seqZ in Hin. apply Z.eqb_eq in Heqb. split; [lia|done].
Qed.

Lemma keycodeGet_spec xu keysym :
  wf_keymap xu →
  ∃ kc, keycodeGet xu keysym = Ret kc
        ∧ (first_keycode_with xu keysym kc
           ∨ (kc = 0 ∧ ∀ kc', MinKeycode xu ≤ kc' ≤ MaxKeycode xu →
                              ¬ holds_sym xu keysym kc')).
Proof.
  intros Hwf. unfold keycodeGet. simpl.
  set (body := λ kc : Z,
    for_return (seqZ 0 (KeysymsPerKeycode (KeyMapGet xu))) (λ c,
      s ← keysymGet xu (byte kc) c;
      if keysym =? s then Ret (Some (byte kc)) else Ret None)).
  assert (Hbody : ∀ kc, MinKeycode xu ≤ kc ≤ MaxKeycode xu →
    (holds_sym xu keysym kc ∧ body kc = Ret (Some kc))
    ∨ (¬ holds_sym xu keysym kc ∧ body kc = Ret None)).
  { intros kc Hkc. by apply keycodeGet_columns. }
  destruct (for_return_cases
    (seqZ (MinKeycode xu) (MaxKeycode xu - MinKeycode xu + 1)) body)
    as [[Hnone Hall]|(l1 & kc & l2 & a & Heq & Hl1 & Hkc & Hres)].
  - intros kc Hkc%elem_of_seqZ.
    destruct (Hbody kc) as [[_ ->]|[_ ->]]; [lia|eauto..].
  - exists 0. rewrite Hnone. split; [done|]. right. split; [done|].
    intros kc Hkc Hholds.
    destruct (Hbody kc Hkc) as [[_ Hsome]|[Hno _]]; [|done].
    rewrite Hall in Hsome by (apply elem_of_seqZ; lia). done.
  - exists a. rewrite Hres. split; [done|]. left.
    apply seqZ_split_before in Heq as [Hrange Hbefore].
    destruct (Hbody kc) as [[Hholds Hsome]|[_ Hnone]]; [lia| |congruence].
    assert (a = kc) as -> by congruence.
    split_and!; [lia..|done|].
    intros kc' Hkc' Hholds'.
    destruct (Hbody kc') as [[_ Hsome']|[Hno _]]; [lia| |done].
    rewrite Hl1 in Hsome' by (apply Hbefore; lia). done.
Qed.

(** The first column of a keycode's row that holds a symbol. *)
Lemma holds_sym_least_column xu keysym kc :
  holds_sym xu keysym kc →
  ∃ c, 0 ≤ c < KeysymsPerKeycode (KeyMapGet xu)
       ∧ entry xu kc c = keysym
       ∧ ∀ c', 0 ≤ c' < c → entry xu kc c' ≠ keysym.
Proof.
  assert (Hscan : ∀ n : nat,
    (∀ c', 0 ≤ c' < Z.of_nat n → entry xu kc c' ≠ keysym)
    ∨ (∃ c, 0 ≤ c < Z.of_nat n ∧ entry xu kc c = keysym
            ∧ ∀ c', 0 ≤ c' < c → entry xu kc c' ≠ keysym)).
  { induction n as [|n [IH|(c & Hc & He & Hleast)]].
    - left. lia.
    - destruct (decide (entry xu kc (Z.of_nat n) = keysym)) as [He|Hne].
      + right. exists (Z.of_nat n). split_and!; [lia..|done|done].
      + left. intros c' Hc'.
        destruct (decide (c' = Z.of_nat n)) as [->|]; [done|apply IH; lia].
    - right. exists c. split_and!; [lia..|done|done]. }
  intros (c & Hc & He).
  destruct (Hscan (Z.to_nat (KeysymsPerKeycode (KeyMapGet xu))))
    as [Hnone|(c0 & Hc0 & He0 & Hleast)].
  - exfalso. apply (Hnone c); [lia|done].
  - exists c0. split_and!; [lia..|done|done].
Qed.

(** C3. On a well-formed key map [keycodeGet] returns, and what it returns
    is the keycode of the first position, in the order of ascending
    keycodes from min to max and of ascending columns within a keycode,
    whose entry is the keysym; it returns 0 when no entry is the keysym. *)
Theorem keycodeGet_first_match xu keysym :
  wf_keymap xu →
  ∃ r, keycodeGet xu keysym = Ret r
    ∧ ((∃ c, MinKeycode xu ≤ r ≤ MaxKeycode xu
             ∧ 0 ≤ c < KeysymsPerKeycode (KeyMapGet xu)
             ∧ entry xu r c = keysym
             ∧ ∀ kc' c', MinKeycode xu ≤ kc' ≤ MaxKeycode xu →
                         0 ≤ c' < KeysymsPerKeycode (KeyMapGet xu) →
                         kc' < r ∨ (kc' = r ∧ c' < c) →
                         entry xu kc' c' ≠ keysym)
       ∨ (r = 0
          ∧ ∀ kc' c', MinKeycode xu ≤ kc' ≤ MaxKeycode xu →
                      0 ≤ c' < KeysymsPerKeycode (KeyMapGet xu) →
                      entry xu kc' c' ≠ keysym)).
Proof.
  intros Hwf.
  destruct (keycodeGet_spec xu keysym Hwf)
    as (r & Hr & [(Hrange & Hholds & Hfirst)|[-> Hnone]]);
    exists r || exists 0; (split; [done|]).
  - left. destruct (holds_sym_least_column _ _ _ Hholds)
      as (c & Hc & He & Hleast).
    exists c. split_and!; [lia..|done|].
    intros kc' c' Hkc' Hc' [Hlt|[-> Hlt]].
    + intros He'. apply (Hfirst kc'); [lia|]. by exists c'.
    + apply Hleast. lia.
  - right. split; [done|]. intros kc' c' Hkc' Hc' He'.
    apply (Hnone kc' Hkc'). by exists c'.
Qed.


(** ** modGet *)

(** A run of misses: from counter [i], [n] slots that do not hold the
    keycode are stepped over, as long as the counter stays a byte. *)
Lemma modGet_from_skip xu keycode (n : nat) : ∀ fuel i,
  0 ≤ i ≤ 255 → i + Z.of_nat n ≤ 256 →
  i + Z.of_nat n ≤ Z.of_nat (length (Keycodes (ModMapGet xu))) →
  (∀ j k, i ≤ j < i + Z.of_nat n →
          Keycodes (ModMapGet xu) !! Z.to_nat j = Some k → k ≠ keycode) →
  modGet_from (n + fuel) xu keycode i
  = modGet_from fuel xu keycode (byte (i + Z.of_nat n)).
Proof.
  induction n as [|n IH]; intros fuel i Hi Hbyte Hlen Hmiss.
  - simpl. by rewrite Z.add_0_r, byte_id by lia.
  - cbn [Nat.add modGet_from].
    destruct (Z.ltb_spec i (Z.of_nat (length (Keycodes (ModMapGet xu)))));
      [|lia].
    destruct (lookup_lt_is_Some_2 (Keycodes (ModMapGet xu)) (Z.to_nat i))
      as [k Hk]; [lia|].
    rewrite (index_Ret _ _ k) by (done || lia).
    destruct (Z.eqb_spec k keycode) as [->|_].
    { exfalso. eapply (Hmiss i); [lia|done|done]. }
    destruct (decide (i + 1 = 256)) as [Hwrap|Hno].
    + assert (n = 0%nat) as -> by lia. simpl.
      by replace (i + Z.of_nat 1) with (i + 1) by lia.
    + rewrite (byte_id (i + 1)) by lia. rewrite IH; [|lia..|].
      * f_equal. f_equal. lia.
      * intros j k' Hj. apply Hmiss. lia.
Qed.

Lemma modGet_found xu keycode i fuel :
  0 ≤ i ≤ 255 →
  Keycodes (ModMapGet xu) !! Z.to_nat i = Some keycode →
  (∀ j k, 0 ≤ j < i →
          Keycodes (ModMapGet xu) !! Z.to_nat j = Some k → k ≠ keycode) →
  modGet (Z.to_nat i + S fuel) xu keycode
  = Some (row ← div i (KeycodesPerModifier (ModMapGet xu));
          index modifiers row).
Proof.
  intros Hi Hslot Hfirst.
  pose proof (lookup_lt_Some _ _ _ Hslot) as Hlen.
  unfold modGet. rewrite modGet_from_skip; [|lia..|].
  - rewrite Z.add_0_l, Z2Nat.id, byte_id by lia. cbn [modGet_from].
    destruct (Z.ltb_spec i (Z.of_nat (length (Keycodes (ModMapGet xu)))));
      [|lia].
    rewrite (index_Ret _ _ keycode) by (done || lia).
    by rewrite Z.eqb_refl.
  - intros j k Hj. apply Hfirst. lia.
Qed.

Lemma modGet_absent xu keycode fuel :
  Z.of_nat (length (Keycodes (ModMapGet xu))) ≤ 255 →
  keycode ∉ Keycodes (ModMapGet xu) →
  modGet (length (Keycodes (ModMapGet xu)) + S fuel) xu keycode
  = Some (Ret 0).
Proof.
  intros Hlen Hno. unfold modGet. rewrite modGet_from_skip; [|lia..|].
  - rewrite Z.add_0_l, byte_id by lia. cbn [modGet_from].
    by rewrite Z.ltb_irrefl.
  - intros j k _ Hk ->. apply Hno. by eapply list_elem_of_lookup_2.
Qed.

(** With 256 slots or more and the keycode in none of the first 256, the
    counter wraps from 255 to 0 and the scan goes round for ever: no
    amount of fuel brings a result. *)
Lemma modGet_from_wraps xu keycode :
  256 ≤ Z.of_nat (length (Keycodes (ModMapGet xu))) →
  keycode ∉ take 256 (Keycodes (ModMapGet xu)) →
  ∀ fuel i, 0 ≤ i ≤ 255 → modGet_from fuel xu keycode i = None.
Proof.
  intros Hlen Hno. induction fuel as [|fuel IH]; intros i Hi; [done|].
  cbn [modGet_from].
  destruct (Z.ltb_spec i (Z.of_nat (length (Keycodes (ModMapGet xu)))));
    [|lia].
  destruct (lookup_lt_is_Some_2 (Keycodes (ModMapGet xu)) (Z.to_nat i))
    as [k Hk]; [lia|].
  rewrite (index_Ret _ _ k) by (done || lia).
  destruct (Z.eqb_spec k keycode) as [->|_].
  - exfalso. apply Hno. apply (list_elem_of_lookup_2 _ (Z.to_nat i)).
    rewrite lookup_take_lt by lia. done.
  - apply IH. unfold byte.
    pose proof (Z.mod_pos_bound (i + 1) 256). lia.
Qed.

Lemma modGet_wraps xu keycode :
  256 ≤ Z.of_nat (length (Keycodes (ModMapGet xu))) →
  keycode ∉ take 256 (Keycodes (ModMapGet xu)) →
  ∀ fuel, modGet fuel xu keycode = None.
Proof.
  intros Hlen Hno fuel. unfold modGet. by apply modGet_from_wraps.
Qed.

Lemma modifiers_lookup row :
  0 ≤ row < 9 → ∃ bit, index modifiers row = Ret bit ∧ bit ≠ 0.
Proof.
  intros Hrow.
  assert (Hcases : row = 0 ∨ row = 1 ∨ row = 2 ∨ row = 3 ∨ row = 4
                   ∨ row = 5 ∨ row = 6 ∨ row = 7 ∨ row = 8) by lia.
  destruct_or! Hcases; subst row; eexists; (split; [reflexivity|done]).
Qed.

(** On a modifier map of at most 255 slots in eight rows, [modGet]
    returns once the fuel covers the table: the mask of the row of the
    first slot that holds the keycode, which is not 0, or 0 when no slot
    holds it. *)
Theorem modGet_small_table xu keycode :
  wf_modmap xu →
  Z.of_nat (length (Keycodes (ModMapGet xu))) ≤ 255 →
  ∃ r, (∀ fuel, (length (Keycodes (ModMapGet xu)) < fuel)%nat →
                modGet fuel xu keycode = Some (Ret r))
    ∧ ((∃ i, first_slot xu keycode i
             ∧ index modifiers (i / KeycodesPerModifier (ModMapGet xu))
               = Ret r
             ∧ r ≠ 0)
       ∨ (r = 0 ∧ keycode ∉ Keycodes (ModMapGet xu))).
Proof.
  intros [Hper Hslots] Hlen.
  destruct (list_find (λ k, k = keycode) (Keycodes (ModMapGet xu)))
    as [[n k]|] eqn:Hfind.
  - apply list_find_Some in Hfind as (Hn & -> & Hbefore).
    pose proof (lookup_lt_Some _ _ _ Hn) as Hlt.
    assert (Hdiv : 0 ≤ Z.of_nat n / KeycodesPerModifier (ModMapGet xu) < 9).
    { split; [apply Z.div_pos; lia|]. apply Z.div_lt_upper_bound; lia. }
    destruct (modifiers_lookup _ Hdiv) as (bit & Hbit & Hnz).
    exists bit. split.
    + intros fuel Hfuel.
      replace fuel with (Z.to_nat (Z.of_nat n) + S (fuel - n - 1))%nat by lia.
      rewrite modGet_found; [|lia|by rewrite Nat2Z.id|].
      * unfold div. destruct (Z.eqb_spec (KeycodesPerModifier (ModMapGet xu)) 0);
          [lia|]. simpl. by rewrite Hbit.
      * intros j k' Hj Hk' ->. apply (Hbefore (Z.to_nat j) keycode); [done|lia|done].
    + left. exists (Z.of_nat n). split_and!; [|done..].
      split_and!; [lia|by rewrite Nat2Z.id|].
      intros j k' Hj Hk' ->. apply (Hbefore (Z.to_nat j) keycode); [done|lia|done].
  - apply list_find_None in Hfind.
    assert (Hno : keycode ∉ Keycodes (ModMapGet xu)).
    { intros Hin. rewrite Forall_forall in Hfind. by apply (Hfind keycode). }
    exists 0. split; [|by right].
    intros fuel Hfuel.
    replace fuel
      with (length (Keycodes (ModMapGet xu))
            + S (fuel - length (Keycodes (ModMapGet xu)) - 1))%nat by lia.
    by apply modGet_absent.
Qed.

(** C5. [modGet] on a modifier map of eight rows of 32 slots, for a
    keycode that no slot holds: the byte counter wraps at 256 and the scan
    never ends, so 0 is never returned. *)
Theorem modGet_absent_keycode_never_returns :
  wf_modmap (xu_of_modmap modmap_32_per_modifier)
  ∧ (50 ∉ Keycodes (ModMapGet (xu_of_modmap modmap_32_per_modifier)))
  ∧ ∀ fuel, modGet fuel (xu_of_modmap modmap_32_per_modifier) 50 = None.
Proof.
  assert (Hno : 50 ∉ seqZ 8 32 ++ replicate 224 0).
  { intros [Hin|Hin]%elem_of_app.
    - apply elem_of_seqZ in Hin. lia.
    - by apply elem_of_replicate in Hin as [? _]. }
  split_and!.
  - by split.
  - done.
  - apply modGet_wraps; [done|].
    intros Hin. apply Hno. by apply (subseteq_take 256).
Qed.

(** C8. [modGet] with keycode 0 on a modifier map of eight rows of 33
    slots whose first unbound slot is slot 256, in the row of Mod5: the
    byte counter never reaches that slot and the scan never ends, so no
    mask is returned. *)
Theorem modGet_zero_unbound_slot_never_reached :
  wf_modmap (xu_of_modmap modmap_33_per_modifier)
  ∧ first_slot (xu_of_modmap modmap_33_per_modifier) 0 256
  ∧ index modifiers (256 / 33) = Ret ModMask5
  ∧ ∀ fuel, modGet fuel (xu_of_modmap modmap_33_per_modifier) 0 = None.
Proof.
  assert (Hno : 0 ∉ take 256
            (Keycodes (ModMapGet (xu_of_modmap modmap_33_per_modifier)))).
  { apply (bool_decide_unpack _). by vm_compute. }
  split; [by split|]. split; [|split].
  - split; [done|]. split; [done|].
    intros j k Hj Hk ->. apply Hno. apply elem_of_take.
    exists (Z.to_nat j). split; [done|lia].
  - done.
  - by apply modGet_wraps.
Qed.

(** ** lookupString and ParseString *)

Lemma IO_bind_ret {A B} (a : A) (f : A → IO B) : (mret a ≫= f) = f a.
Proof.
  unfold mret, IO_ret, mbind, IO_bind. by destruct (f a).
Qed.

Lemma IO_bind_run_Ret {A B} (a : A) (f : A → IO B) : (run (Ret a) ≫= f) = f a.
Proof. apply IO_bind_ret. Qed.

Section Resolver.
Context `{!GoStrings, !SymbolTables}.

Lemma lookupString_returns xu part :
  wf_keymap xu → lookupString xu part = Ret (resolved xu part).
Proof.
  intros Hwf. unfold resolved, lookupString.
  destruct (lookupString_sym part) as [sym|]; [|done].
  by destruct (keycodeGet_spec xu sym Hwf) as (kc & -> & _).
Qed.

Lemma ParseString_part_modifier xu mods kc part bit :
  modifier_bit (ToLower part) = Some bit →
  ParseString_part xu (mods, kc) part = mret (Z.lor mods bit, kc).
Proof.
  unfold modifier_bit, ParseString_part.
  repeat (destruct (String.eqb _ _); [by intros [= <-]|]). done.
Qed.

Lemma ParseString_part_key xu mods kc part :
  modifier_bit (ToLower part) = None →
  ParseString_part xu (mods, kc) part
  = if kc =? 0 then kc' ← run (lookupString xu part); mret (mods, kc')
    else mret (mods, kc).
Proof.
  unfold modifier_bit, ParseString_part.
  repeat (destruct (String.eqb _ _); [done|]). done.
Qed.

Lemma mask_of_modifier part parts bit :
  modifier_bit (ToLower part) = Some bit →
  mask_of (part :: parts) = Z.lor bit (mask_of parts).
Proof. intros Hbit. unfold mask_of. simpl. by rewrite Hbit. Qed.

Lemma mask_of_key part parts :
  modifier_bit (ToLower part) = None → mask_of (part :: parts) = mask_of parts.
Proof. intros Hbit. unfold mask_of. simpl. by rewrite Hbit. Qed.

Lemma first_resolved_modifier xu part parts bit :
  modifier_bit (ToLower part) = Some bit →
  first_resolved_keycode xu (part :: parts) = first_resolved_keycode xu parts.
Proof.
  intros Hbit. unfold first_resolved_keycode, key_parts.
  rewrite filter_cons_False; [done|]. by rewrite Hbit.
Qed.

Lemma first_resolved_key xu part parts :
  modifier_bit (ToLower part) = None →
  first_resolved_keycode xu (part :: parts)
  = if resolved xu part =? 0 then first_resolved_keycode xu parts
    else resolved xu part.
Proof.
  intros Hbit. unfold first_resolved_keycode, key_parts.
  rewrite filter_cons_True by done. rewrite fmap_cons.
  destruct (Z.eqb_spec (resolved xu part) 0) as [Hz|Hnz].
  - by rewrite filter_cons_False by (by intros ?).
  - by rewrite filter_cons_True by done.
Qed.

(** The loop of [ParseString] from any state of [mods] and [kc]. *)
Lemma ParseString_loop xu parts : ∀ mods kc,
  wf_keymap xu →
  for_range parts (ParseString_part xu) (mods, kc)
  = mret (Z.lor mods (mask_of parts),
          if kc =? 0 then first_resolved_keycode xu parts else kc).
Proof.
  induction parts as [|part parts IH]; intros mods kc Hwf.
  - simpl. rewrite Z.lor_0_r. by destruct (Z.eqb_spec kc 0) as [->|].
  - cbn [for_range].
    destruct (modifier_bit (ToLower part)) as [bit|] eqn:Hbit.
    + rewrite (ParseString_part_modifier _ _ _ _ bit), IO_bind_ret by done.
      rewrite IH by done.
      rewrite (mask_of_modifier _ _ bit), Z.lor_assoc by done.
      by rewrite (first_resolved_modifier _ _ _ bit) by done.
    + rewrite ParseString_part_key, mask_of_key, first_resolved_key by done.
      destruct (Z.eqb_spec kc 0) as [->|Hkc].
      * rewrite lookupString_returns, IO_bind_run_Ret, IO_bind_ret by done.
        by rewrite IH by done.
      * rewrite IO_bind_ret, IH by done.
        by destruct (Z.eqb_spec kc 0).
Qed.

Lemma ParseString_result xu str :
  wf_keymap xu →
  ParseString xu str
  = (if first_resolved_keycode xu (Split str "-"%char) =? 0
     then [Logged (ParseString_warning str)] else [],
     Ret (mask_of (Split str "-"%char),
          first_resolved_keycode xu (Split str "-"%char))).
Proof.
  intros Hwf. unfold ParseString.
  rewrite ParseString_loop, IO_bind_ret by done. simpl.
  by destruct (first_resolved_keycode xu (Split str "-"%char) =? 0).
Qed.

End Resolver.

Lemma sample_xu_wf : wf_keymap sample_xu.
Proof. by split. Qed.

(** C1, as stated, fails: in the binding x-j the first token that names
    no modifier, x, resolves to no keycode, and the second one, j, is
    then looked up and decides the keycode (9); the first-token rule
    would give keycode 0. *)
Lemma ParseString_first_token_rule_fails :
  wf_keymap sample_xu
  ∧ @ParseString ascii_strings sample_tables sample_xu "x-j" = ([], Ret (0, 9))
  ∧ ¬ @first_token_rule ascii_strings sample_tables sample_xu "x-j".
Proof.
  split_and!; [apply sample_xu_wf|by vm_compute|].
  intros [log Hrule]. vm_compute in Hrule. discriminate Hrule.
Qed.

Section Bindings.
Context `{!GoStrings, !SymbolTables}.

(** The token that decides: a token that names no modifier and resolves
    to a keycode other than 0, when the tokens before it that name no
    modifier all resolve to 0. The tokens after it do not count. *)
Lemma first_resolved_keycode_decides xu before part after :
  modifier_bit (ToLower part) = None →
  resolved xu part ≠ 0 →
  (∀ p, p ∈ before → modifier_bit (ToLower p) = None → resolved xu p = 0) →
  first_resolved_keycode xu (before ++ part :: after) = resolved xu part.
Proof.
  intros Hkey Hnz. induction before as [|p before IH]; intros Hbefore.
  - simpl. rewrite first_resolved_key by done.
    by destruct (Z.eqb_spec (resolved xu part) 0).
  - simpl. destruct (modifier_bit (ToLower p)) as [bit|] eqn:Hbit.
    + rewrite (first_resolved_modifier _ _ _ bit) by done.
      apply IH. intros q Hq. apply Hbefore. by right.
    + rewrite first_resolved_key, Hbefore by (done || left). simpl.
      apply IH. intros q Hq. apply Hbefore. by right.
Qed.

(** C1, amended. On a well-formed key map [ParseString] splits the binding
    on the hyphen; each token whose lower case is a modifier name ORs
    that bit into the mask; of the other tokens the first one that
    [lookupString] resolves to a keycode other than 0 gives the keycode,
    tokens that resolve to 0 before it are passed over and every later
    token is ignored; the keycode is 0, with the warning logged, when no
    token resolves. *)
Theorem ParseString_first_resolved_token xu str :
  wf_keymap xu →
  ParseString xu str
  = (if first_resolved_keycode xu (Split str "-"%char) =? 0
     then [Logged (ParseString_warning str)] else [],
     Ret (mask_of (Split str "-"%char),
          first_resolved_keycode xu (Split str "-"%char)))
  ∧ ∀ before part after,
      Split str "-"%char = before ++ part :: after →
      modifier_bit (ToLower part) = None →
      resolved xu part ≠ 0 →
      (∀ p, p ∈ before → modifier_bit (ToLower p) = None →
            resolved xu p = 0) →
      ParseString xu str
      = ([], Ret (mask_of (Split str "-"%char), resolved xu part)).
Proof.
  intros Hwf. split; [by apply ParseString_result|].
  intros before part after Hsplit Hkey Hnz Hbefore.
  rewrite ParseString_result, Hsplit by done.
  rewrite first_resolved_keycode_decides by done.
  by destruct (Z.eqb_spec (resolved xu part) 0).
Qed.

Lemma first_resolved_none xu parts :
  (∀ part, part ∈ parts → modifier_bit (ToLower part) = None →
           resolved xu part = 0) →
  first_resolved_keycode xu parts = 0.
Proof.
  induction parts as [|part parts IH]; intros Hall; [done|].
  destruct (modifier_bit (ToLower part)) as [bit|] eqn:Hbit.
  - rewrite (first_resolved_modifier _ _ _ bit) by done.
    apply IH. intros p Hp. apply Hall. by right.
  - rewrite first_resolved_key, Hall by (done || left). simpl.
    apply IH. intros p Hp. apply Hall. by right.
Qed.

(** C7. On a well-formed key map, when every token of the binding that
    names no modifier is a name the symbol table does not know, or names
    a symbol that no keycode of the key map produces, [ParseString]
    returns (it does not panic) the mask of the modifier tokens with
    keycode 0, and logs the warning. *)
Theorem ParseString_unresolved_warns xu str :
  wf_keymap xu →
  (∀ part, part ∈ Split str "-"%char →
           modifier_bit (ToLower part) = None →
           lookupString_sym part = None
           ∨ ∃ sym, lookupString_sym part = Some sym
                    ∧ ∀ kc, MinKeycode xu ≤ kc ≤ MaxKeycode xu →
                            ¬ holds_sym xu sym kc) →
  ParseString xu str
  = ([Logged (ParseString_warning str)],
     Ret (mask_of (Split str "-"%char), 0)).
Proof.
  intros Hwf Hmiss. rewrite ParseString_result by done.
  rewrite first_resolved_none; [done|].
  intros part Hin Hkey. unfold resolved, lookupString.
  destruct (Hmiss part Hin Hkey) as [->|(sym & -> & Hnone)]; [done|].
  destruct (keycodeGet_spec xu sym Hwf)
    as (kc & -> & [(Hrange & Hholds & _)|[-> _]]); [|done].
  by destruct (Hnone kc Hrange).
Qed.

(** The symbol half of [lookupString] returns the first hit among the
    four names. *)
Lemma lookupString_sym_first_hit str :
  lookupString_sym str
  = head (omap (λ name, keysyms !! name) (lookup_candidates str)).
Proof.
  unfold lookupString_sym, lookup_candidates. simpl.
  destruct (keysyms !! str); [done|].
  destruct (keysyms !! Title str); [done|].
  destruct (keysyms !! ToLower str); [done|].
  by destruct (keysyms !! ToUpper str).
Qed.

End Bindings.

(** C2, as stated, fails: with a table that holds only the name Return,
    RETURN is not found. [strings.Title] upper-cases the first letter and
    keeps the rest, so none of RETURN, RETURN, return, RETURN is in the
    table. *)
Lemma lookupString_RETURN_not_found :
  @lookup_candidates ascii_strings "RETURN"
  = ["RETURN"; "RETURN"; "return"; "RETURN"]
  ∧ ¬ is_Some (@lookupString_sym ascii_strings only_Return "RETURN").
Proof.
  split; [done|]. intros [sym Hsym]. vm_compute in Hsym. discriminate Hsym.
Qed.

(** C2, amended. [lookupString] tries four names in this order: the name
    as given, its [strings.Title] form (the first letter of each word in
    upper case, the other letters as they are), its lower case, its upper
    case; the first one in the table gives the symbol and no fifth is
    tried. With a table that holds only the name Return, the lookups of
    return and Return give the same symbol, and RETURN and rEtUrN are not
    found. *)
Theorem lookupString_four_names :
  (∀ (S : GoStrings) (T : SymbolTables) str,
     lookupString_sym str
     = head (omap (λ name, keysyms !! name)
                  [str; Title str; ToLower str; ToUpper str]))
  ∧ @lookupString_sym ascii_strings only_Return "return" = Some 65293
  ∧ @lookupString_sym ascii_strings only_Return "Return" = Some 65293
  ∧ @lookupString_sym ascii_strings only_Return "RETURN" = None
  ∧ @lookupString_sym ascii_strings only_Return "rEtUrN" = None.
Proof.
  split_and!; [|by vm_compute..].
  intros S T str. apply lookupString_sym_first_hit.
Qed.

(** ** mapsGet *)

(** C6. [mapsGet] panics exactly when the keyboard-mapping request or the
    modifier-mapping request answers with an error; when it returns, both
    requests have succeeded and it returns both their replies. *)
Theorem mapsGet_panics_iff_a_request_fails xu :
  let keyq := GetKeyboardMapping xu (MinKeycode xu)
               (byte (MaxKeycode xu - MinKeycode xu + 1)) in
  let modq := GetModifierMapping xu in
  ((∃ msg, mapsGet xu = Panic (Explicit msg))
   ↔ keyq.2 ≠ None ∨ modq.2 ≠ None)
  ∧ (∀ r, mapsGet xu = Ret r →
          keyq.2 = None ∧ modq.2 = None ∧ r = (keyq.1, modq.1))
  ∧ ((∃ r, mapsGet xu = Ret r) ↔ keyq.2 = None ∧ modq.2 = None).
Proof.
  intros keyq modq. unfold mapsGet. simpl. fold keyq modq.
  destruct keyq as [newKeymap keyErr], modq as [newModmap modErr]. simpl.
  repeat case_bool_decide.
  - split_and!.
    + split; [by left|eauto].
    + done.
    + split; [by intros [? ?]|by intros [? _]].
  - split_and!.
    + split; [by right|eauto].
    + done.
    + split; [by intros [? ?]|by intros [_ ?]].
  - assert (keyErr = None) as -> by (by destruct keyErr).
    assert (modErr = None) as -> by (by destruct modErr).
    split_and!.
    + split; [by intros [? ?]|by intros [?|?]].
    + by intros r [= <-].
    + split; eauto.
Qed.

(** ** XModMap *)

Lemma IO_bind_out {A B} (w : list event) (a : A) (f : A → IO B) :
  ((w, Ret a) ≫= f) = (w ++ (f a).1, (f a).2).
Proof. unfold mbind, IO_bind. by destruct (f a). Qed.

Lemma fmt_Printf_bind {B} (s : string) (f : unit → IO B) :
  (fmt_Printf s ≫= f) = (Stdout s :: (f tt).1, (f tt).2).
Proof. unfold fmt_Printf. by rewrite IO_bind_out. Qed.

Lemma for_range_outputs {A} (xs : list A) (body : unit → A → IO unit)
    (out : A → list event) :
  (∀ x, x ∈ xs → body tt x = (out x, Ret tt)) →
  for_range xs body tt = (concat (out <$> xs), Ret tt).
Proof.
  induction xs as [|x xs IH]; intros Hbody; [done|].
  cbn [for_range]. rewrite (Hbody x) by left. rewrite IO_bind_out.
  rewrite IH by (intros y Hy; apply Hbody; by right). done.
Qed.

Section Dump.
Context `{!SymbolTables}.

Lemma XModMap_keycode_bound xu comma kc :
  wf_keymap xu →
  2 ≤ KeysymsPerKeycode (KeyMapGet xu) →
  MinKeycode xu ≤ kc ≤ MaxKeycode xu →
  kc ≠ 0 →
  XModMap_keycode xu comma kc
  = (print_keycodes xu comma [kc], Ret ","%string).
Proof.
  intros Hwf Hcols Hkc Hnz. unfold XModMap_keycode.
  destruct (Z.eqb_spec kc 0) as [|_]; [done|]. cbn [negb].
  rewrite !keysymGet_entry by (done || lia).
  rewrite IO_bind_run_Ret. cbn [print_keycodes]. unfold displayed_symbol.
  destruct (entry xu kc 0 =? 0).
  - by rewrite IO_bind_run_Ret.
  - by rewrite IO_bind_ret.
Qed.

Lemma XModMap_keycode_unbound xu comma :
  XModMap_keycode xu comma 0 = mret comma.
Proof. done. Qed.

Lemma print_keycodes_bound xu kcs : ∀ comma,
  wf_keymap xu →
  2 ≤ KeysymsPerKeycode (KeyMapGet xu) →
  (∀ kc, kc ∈ kcs → kc ≠ 0 → MinKeycode xu ≤ kc ≤ MaxKeycode xu) →
  ∃ comma',
    for_range kcs (XModMap_keycode xu) comma
    = (print_keycodes xu comma (filter (λ kc, kc ≠ 0) kcs), Ret comma').
Proof.
  induction kcs as [|kc kcs IH]; intros comma Hwf Hcols Hin.
  - by exists comma.
  - cbn [for_range]. destruct (decide (kc = 0)) as [->|Hnz].
    + rewrite filter_cons_False by (by intros ?).
      rewrite XModMap_keycode_unbound, IO_bind_ret.
      apply IH; [done..|]. intros kc' Hkc'. apply Hin. by right.
    + rewrite filter_cons_True by done.
      rewrite XModMap_keycode_bound; [|done|done|apply Hin; [left|done]|done].
      destruct (IH ","%string) as [comma' Hrest]; [done|done| |].
      { intros kc' Hkc'. apply Hin. by right. }
      exists comma'. rewrite IO_bind_out, Hrest. done.
Qed.

Lemma XModMap_row_output xu (mmi : nat) name :
  wf_keymap xu →
  2 ≤ KeysymsPerKeycode (KeyMapGet xu) →
  wf_modmap xu →
  modmap_in_keymap xu →
  nice !! mmi = Some name →
  XModMap_row xu tt (Z.of_nat mmi) = (print_row xu (Z.of_nat mmi) name, Ret tt).
Proof.
  intros Hwf Hcols [Hper Hslots] Hbound Hname.
  pose proof (lookup_lt_Some _ _ _ Hname) as Hmmi. simpl in Hmmi.
  unfold XModMap_row.
  rewrite (index_Ret _ _ name) by (lia || by rewrite Nat2Z.id).
  rewrite IO_bind_run_Ret, fmt_Printf_bind.
  unfold slice. rewrite bool_decide_eq_true_2 by (rewrite Hslots; nia).
  rewrite IO_bind_run_Ret.
  replace (Z.of_nat mmi * KeycodesPerModifier (ModMapGet xu)
           + KeycodesPerModifier (ModMapGet xu)
           - Z.of_nat mmi * KeycodesPerModifier (ModMapGet xu))
    with (KeycodesPerModifier (ModMapGet xu)) by lia.
  fold (row_slots xu (Z.of_nat mmi)).
  destruct (print_keycodes_bound xu (row_slots xu (Z.of_nat mmi)) EmptyString)
    as [comma' Hloop]; [done..| |].
  { intros kc Hkc. apply Hbound. unfold row_slots in Hkc.
    by apply subseteq_take, subseteq_drop in Hkc. }
  rewrite Hloop, IO_bind_out. unfold print_row, bound_keycodes. simpl.
  done.
Qed.

(** C10. On a well-formed key map of two columns or more and a
    well-formed modifier map whose bound keycodes are keycodes of the key
    map, [XModMap] returns after printing the heading and then, for each
    of the rows Shift, Lock, Control, Mod1 to Mod5 in this order and not
    for Any, the name of the row, the keycodes of the row's slots that
    are not 0, each with the name of the keysym of its column 0, or of
    its column 1 when column 0 holds keysym 0, and a line end. *)
Theorem XModMap_prints_bound_keycodes xu :
  wf_keymap xu →
  2 ≤ KeysymsPerKeycode (KeyMapGet xu) →
  wf_modmap xu →
  modmap_in_keymap xu →
  XModMap xu = (XModMap_output xu, Ret tt).
Proof.
  intros Hwf Hcols Hmod Hbound. unfold XModMap, XModMap_output.
  rewrite fmt_Printf_bind.
  rewrite (for_range_outputs _ _
    (λ mmi, print_row xu mmi (default EmptyString (nice !! Z.to_nat mmi)))).
  - done.
  - intros mmi Hmmi%elem_of_seqZ. simpl in Hmmi.
    destruct (lookup_lt_is_Some_2 nice (Z.to_nat mmi)) as [name Hname];
      [simpl; lia|].
    rewrite Hname. simpl. rewrite <- (Z2Nat.id mmi) at 1 2 by lia.
    by apply XModMap_row_output.
Qed.

End Dump.

(** ** The theorems at the sample keyboard *)

Ltac sample_wf := constructor; simpl; lia.

(** C9 at the sample keyboard: keycode 9, column 1 is inside the table;
    keycode 12 is outside the range and the lookup panics. *)
Lemma keysymGet_in_range_witness :
  wf_keymap sample_xu
  ∧ (0 ≤ (9 - 8) * 2 + 1 < 8
     ∧ ∃ sym, Keysyms sample_keymap !! Z.to_nat ((9 - 8) * 2 + 1) = Some sym
              ∧ keysymGet sample_xu 9 1 = Ret sym)
  ∧ keysymGet sample_xu 12 1 = Panic IndexOutOfRange.
Proof.
  assert (Hwf : wf_keymap sample_xu) by sample_wf.
  assert (Hc : 0 ≤ 1 < KeysymsPerKeycode (KeyMapGet sample_xu))
    by (simpl; lia).
  split; [|split].
  - exact Hwf.
  - apply (proj1 (keysymGet_in_range sample_xu 9 1 Hwf Hc)). simpl. lia.
  - apply (proj2 (keysymGet_in_range sample_xu 12 1 Hwf Hc)). simpl. lia.
Defined.

(** C3 at the sample keyboard: keysym 106 (j) is found. *)
Lemma keycodeGet_first_match_witness :
  wf_keymap sample_xu
  ∧ ∃ r, keycodeGet sample_xu 106 = Ret r ∧ 8 ≤ r ≤ 11.
Proof.
  assert (Hwf : wf_keymap sample_xu) by sample_wf.
  split; [exact Hwf|].
  destruct (keycodeGet_first_match sample_xu 106 Hwf) as (r & Hr & Hcase).
  exists r. split; [exact Hr|].
  destruct Hcase as [(c & Hrange & _)|[_ Hnone]]; [exact Hrange|].
  exfalso. apply (Hnone 9 0); [simpl; lia..|reflexivity].
Defined.


(** C1, amended, at the sample keyboard: x resolves to nothing, J gives
    keycode 9 and Return is ignored. *)
Lemma ParseString_first_resolved_token_witness :
  wf_keymap sample_xu
  ∧ @ParseString ascii_strings sample_tables sample_xu "shift-x-J-Return"
    = ([], Ret (1, 9)).
Proof.
  assert (Hwf : wf_keymap sample_xu) by sample_wf.
  split; [exact Hwf|].
  rewrite (proj1 (@ParseString_first_resolved_token ascii_strings
                    sample_tables sample_xu "shift-x-J-Return" Hwf)).
  vm_compute. reflexivity.
Defined.

(** C7 at the sample keyboard: neither x nor F1 is a known name. *)
Lemma ParseString_unresolved_warns_witness :
  wf_keymap sample_xu
  ∧ @ParseString ascii_strings sample_tables sample_xu "Any-x-F1"
    = ([Logged (ParseString_warning "Any-x-F1")], Ret (32768, 0)).
Proof.
  assert (Hwf : wf_keymap sample_xu) by sample_wf.
  split; [exact Hwf|].
  apply (@ParseString_unresolved_warns ascii_strings sample_tables
           sample_xu "Any-x-F1" Hwf).
  intros part Hin Hkey. vm_compute in Hin.
  apply elem_of_cons in Hin as [->|Hin]; [vm_compute in Hkey; discriminate|].
  apply elem_of_cons in Hin as [->|Hin]; [left; vm_compute; reflexivity|].
  apply elem_of_cons in Hin as [->|Hin]; [left; vm_compute; reflexivity|].
  by apply elem_of_nil in Hin.
Defined.

(** C10 at the sample keyboard. *)
Lemma XModMap_prints_bound_keycodes_witness :
  wf_keymap sample_xu ∧ wf_modmap sample_xu
  ∧ @XModMap sample_tables sample_xu
    = (@XModMap_output sample_tables sample_xu, Ret tt).
Proof.
  assert (Hwf : wf_keymap sample_xu) by sample_wf.
  assert (Hmod : wf_modmap sample_xu) by sample_wf.
  split; [exact Hwf|split; [exact Hmod|]].
  apply (@XModMap_prints_bound_keycodes sample_tables sample_xu Hwf);
    [simpl; lia|exact Hmod|].
  intros kc Hin Hnz. simpl in Hin.
  repeat (apply elem_of_cons in Hin as [->|Hin]; [simpl; lia || done|]).
  by apply elem_of_nil in Hin.
Defined.

(** * xgraphics *)

(** ** Loops *)

Lemma for_each_app {S A} (xs ys : list A) (body : S → A → Res S) s :
  for_each (xs ++ ys) body s = (s' ← for_each xs body s; for_each ys body s').
Proof.
  revert s. induction xs as [|x xs IH]; intros s; [done|].
  simpl. destruct (body s x) as [s'|p]; [apply IH|done].
Qed.

Lemma Res_bind_Ret {A B} (a : A) (f : A → Res B) : (Ret a ≫= f) = f a.
Proof. done. Qed.

Lemma Res_bind_id {A} (m : Res A) : (m ≫= Ret) = m.
Proof. by destruct m. Qed.

Lemma for_each_snoc {S A} (xs : list A) x (body : S → A → Res S) s :
  for_each (xs ++ [x]) body s = (s' ← for_each xs body s; body s' x).
Proof.
  rewrite for_each_app. destruct (for_each xs body s) as [s'|p]; [|done].
  rewrite !Res_bind_Ret. simpl. apply Res_bind_id.
Qed.

(** A loop whose body never panics on the states it meets computes the
    left fold of its effect. *)
Lemma for_each_pure {S A} (Inv : S → Prop) (g : S → A → S) (xs : list A)
    (body : S → A → Res S) s :
  Inv s →
  (∀ s x, Inv s → x ∈ xs → body s x = Ret (g s x) ∧ Inv (g s x)) →
  for_each xs body s = Ret (foldl g s xs) ∧ Inv (foldl g s xs).
Proof.
  revert s. induction xs as [|x xs IH]; intros s Hs Hbody; [done|].
  simpl. destruct (Hbody s x Hs) as [-> Hs']; [left|]. simpl.
  apply IH; [done|]. intros s' y Hs'' Hy. apply Hbody; [done|by right].
Qed.

(** ** FindBestIcon *)

Lemma int_fit n : - 2 ^ 63 ≤ n < 2 ^ 63 → int n = n.
Proof. intros Hn. unfold int. rewrite Z.mod_small; lia. Qed.

Lemma int_area_lookup icons i icon :
  icons !! i = Some icon →
  int_area icons (Z.of_nat i) = int (Width icon * Height icon).
Proof. intros Hi. unfold int_area, icon_area. by rewrite Nat2Z.id, Hi. Qed.

(** Sizes of 32 bits have areas that [int] holds. *)
Lemma int_area_fit icons i :
  icon_sizes_fit icons → int_area icons i = icon_area icons i.
Proof.
  intros Hfit. unfold int_area, icon_area.
  destruct (icons !! Z.to_nat i) as [icon|] eqn:Hicon; [|done].
  destruct (Hfit icon) as [Hw Hh]; [by eapply list_elem_of_lookup_2|].
  apply int_fit. nia.
Qed.

Lemma FindBestIcon_icon_first parea icons i icon :
  FindBestIcon_icon parea icons (-1) (i, icon) = Ret i.
Proof. done. Qed.

(** One more icon keeps [best] the best of the icons seen. *)
Lemma FindBestIcon_icon_keeps parea icons (n : nat) best icon :
  icons !! n = Some icon →
  best_icon parea icons (Z.of_nat n) best →
  ∃ best', FindBestIcon_icon parea icons best (Z.of_nat n, icon) = Ret best'
           ∧ best_icon parea icons (Z.of_nat (S n)) best'.
Proof.
  intros Hicon (Hbest & Hreach & Hshort).
  pose proof (lookup_lt_Some _ _ _ Hicon) as Hn.
  destruct (lookup_lt_is_Some_2 icons (Z.to_nat best)) as [b Hb]; [lia|].
  unfold FindBestIcon_icon.
  destruct (Z.eqb_spec best (-1)) as [|_]; [lia|].
  rewrite (index_Ret _ _ b) by (done || lia). simpl.
  assert (Hab : int_area icons best = int (Width b * Height b)).
  { unfold int_area, icon_area. by rewrite Hb. }
  assert (Han : int_area icons (Z.of_nat n) = int (Width icon * Height icon)).
  { by apply int_area_lookup. }
  rewrite <- Hab, <- Han.
  assert (Hsplit : ∀ j, 0 ≤ j < Z.of_nat (S n) → 0 ≤ j < Z.of_nat n ∨ j = Z.of_nat n)
    by lia.
  destruct (Z.leb_spec parea (int_area icons (Z.of_nat n))) as [Hp|Hp];
    destruct (Z.leb_spec (int_area icons (Z.of_nat n)) (int_area icons best))
      as [Hle|Hle];
    destruct (Z.ltb_spec (int_area icons best) parea) as [Hbp|Hbp];
    destruct (Z.ltb_spec (int_area icons best) (int_area icons (Z.of_nat n)))
      as [Hlt|Hlt];
    simpl; eexists; (split; [reflexivity|]);
    (split; [lia|]); split; intros Hcase j Hj;
    destruct (Hsplit j Hj) as [Hj'| ->];
    try (specialize (Hreach ltac:(lia) j));
    try (specialize (Hshort ltac:(lia) j));
    try lia.
Qed.

Lemma imap_take_S {A B} (f : nat → A → B) (l : list A) (n : nat) x :
  l !! n = Some x →
  imap f (take (S n) l) = imap f (take n l) ++ [f n x].
Proof.
  intros Hx. rewrite (take_S_r _ _ x) by done.
  rewrite imap_app. simpl. rewrite Nat.add_0_r, length_take_le; [done|].
  apply lookup_lt_Some in Hx. lia.
Qed.

(** The loop of [FindBestIcon] over the first [n] icons, for [n] of 1 or
    more. *)
Lemma FindBestIcon_loop parea icons (n : nat) :
  (0 < n ≤ length icons)%nat →
  ∃ best,
    for_each (imap (λ i icon, (Z.of_nat i, icon)) (take n icons))
             (FindBestIcon_icon parea icons) (-1) = Ret best
    ∧ best_icon parea icons (Z.of_nat n) best.
Proof.
  induction n as [|n IH]; intros Hn; [lia|].
  destruct (lookup_lt_is_Some_2 icons n) as [icon Hicon]; [lia|].
  rewrite (imap_take_S _ _ _ icon), for_each_snoc by done.
  destruct n as [|n].
  - exists 0. split; [done|]. unfold best_icon.
    split; [lia|]. split; intros _ j Hj; by replace j with 0 by lia.
  - destruct IH as (best & -> & Hbest); [lia|].
    destruct (FindBestIcon_icon_keeps parea icons (S n) best icon Hicon Hbest)
      as (best' & Hstep & Hbest').
    exists best'. split; [|done]. by rewrite Res_bind_Ret.
Qed.

Lemma FindBestIcon_best width height icons :
  icons ≠ [] →
  ∃ best, FindBestIcon width height icons = Ret (Some best)
          ∧ best_icon (int (width * height)) icons
                      (Z.of_nat (length icons)) best.
Proof.
  intros Hne. unfold FindBestIcon.
  destruct (Z.eqb_spec (Z.of_nat (length icons)) 0) as [Hlen|Hlen].
  { destruct icons; [done|simpl in Hlen; lia]. }
  destruct (FindBestIcon_loop (int (width * height)) icons (length icons))
    as (best & Hloop & Hbest); [lia|].
  rewrite firstn_all in Hloop. rewrite Hloop. simpl.
  exists best. split; [|done].
  destruct Hbest as [Hrange _]. by destruct (Z.ltb_spec (-1) best); [|lia].
Qed.

(** X1. [FindBestIcon] returns nil exactly when there is no icon, and
    otherwise a pointer to one of the icons given, whatever the sizes
    are. *)
Theorem FindBestIcon_nil_iff_no_icons width height icons :
  (FindBestIcon width height icons = Ret None ↔ icons = [])
  ∧ (icons ≠ [] →
     ∃ best icon, FindBestIcon width height icons = Ret (Some best)
                  ∧ 0 ≤ best
                  ∧ icons !! Z.to_nat best = Some icon).
Proof.
  split.
  - split; [|by intros ->].
    intros Hnone. destruct (decide (icons = [])) as [|Hne]; [done|].
    destruct (FindBestIcon_best width height icons Hne) as (best & Hbest & _).
    congruence.
  - intros Hne.
    destruct (FindBestIcon_best width height icons Hne)
      as (best & Hbest & Hrange & _).
    destruct (lookup_lt_is_Some_2 icons (Z.to_nat best)) as [icon Hicon]; [lia|].
    exists best, icon. split_and!; [done|lia|done].
Qed.

(** X2. When no icon reaches the preferred area width * height,
    [FindBestIcon] returns the biggest icon, and of several biggest ones
    the first; the sizes are such that no area leaves the range of
    [int]. *)
Theorem FindBestIcon_biggest_when_none_reaches width height icons :
  icon_sizes_fit icons →
  -2147483648 ≤ width ≤ 2147483647 → -2147483648 ≤ height ≤ 2147483647 →
  icons ≠ [] →
  (∀ j, 0 ≤ j < Z.of_nat (length icons) → icon_area icons j < width * height) →
  ∃ best, FindBestIcon width height icons = Ret (Some best)
          ∧ 0 ≤ best < Z.of_nat (length icons)
          ∧ ∀ j, 0 ≤ j < Z.of_nat (length icons) →
                 icon_area icons j ≤ icon_area icons best
                 ∧ (icon_area icons j = icon_area icons best → best ≤ j).
Proof.
  intros Hfit Hw Hh Hne Hsmall.
  destruct (FindBestIcon_best width height icons Hne)
    as (best & Hbest & Hrange & _ & Hshort).
  rewrite int_fit in Hshort by nia.
  exists best. split_and!; [done|lia..|].
  intros j Hj. rewrite <- !(int_area_fit icons) by done.
  apply Hshort; [|done]. rewrite int_area_fit by done. by apply Hsmall.
Qed.

(** X3. When some icon reaches the preferred area width * height,
    [FindBestIcon] returns the smallest icon that reaches it, and of
    several such ones the last; the sizes are such that no area leaves
    the range of [int]. *)
Theorem FindBestIcon_smallest_that_reaches width height icons k :
  icon_sizes_fit icons →
  -2147483648 ≤ width ≤ 2147483647 → -2147483648 ≤ height ≤ 2147483647 →
  0 ≤ k < Z.of_nat (length icons) →
  width * height ≤ icon_area icons k →
  ∃ best, FindBestIcon width height icons = Ret (Some best)
          ∧ 0 ≤ best < Z.of_nat (length icons)
          ∧ width * height ≤ icon_area icons best
          ∧ ∀ j, 0 ≤ j < Z.of_nat (length icons) →
                 width * height ≤ icon_area icons j →
                 icon_area icons best ≤ icon_area icons j
                 ∧ (icon_area icons j = icon_area icons best → j ≤ best).
Proof.
  intros Hfit Hw Hh Hk Hreaches.
  assert (Hne : icons ≠ []) by (intros ->; simpl in Hk; lia).
  destruct (FindBestIcon_best width height icons Hne)
    as (best & Hbest & Hrange & Hreach & Hshort).
  rewrite int_fit in Hreach, Hshort by nia.
  assert (Harea : ∀ j, int_area icons j = icon_area icons j)
    by (intros j; by apply int_area_fit).
  assert (Hb : width * height ≤ icon_area icons best).
  { destruct (decide (width * height ≤ icon_area icons best)) as [|Hlt];
      [done|].
    destruct (Hshort ltac:(rewrite Harea; lia) k Hk) as [Hle _].
    rewrite !Harea in Hle. lia. }
  exists best. split_and!; [done|lia..|done|].
  intros j Hj Hreach_j. rewrite <- !Harea.
  apply Hreach; [| |]; rewrite ?Harea; done.
Qed.

(** ** Nested loops over the points of an image *)

Lemma foldl_points {S} (g : S → Z * Z → S) (xs ys : list Z) s :
  foldl (λ s x, foldl (λ s y, g s (x, y)) s ys) s xs
  = foldl g s (points xs ys).
Proof.
  revert s. unfold points. induction xs as [|x xs IH]; intros s; [done|].
  simpl. rewrite foldl_app, foldl_fmap. apply IH.
Qed.

Lemma elem_of_points xs ys x y : (x, y) ∈ points xs ys ↔ x ∈ xs ∧ y ∈ ys.
Proof.
  unfold points. rewrite list_elem_of_bind. split.
  - intros (x' & Hin & Hx'). apply list_elem_of_fmap in Hin as (y' & [= -> ->] & Hy').
    done.
  - intros [Hx Hy]. exists x. split; [|done].
    apply list_elem_of_fmap. by exists y.
Qed.

(** Two nested loops whose body never panics on the states they meet
    compute the left fold of its effect over the points visited. *)
Lemma for_each_points {S} (Inv : S → Prop) (g : S → Z * Z → S)
    (xs ys : list Z) (body : S → Z → Z → Res S) s :
  Inv s →
  (∀ s x y, Inv s → x ∈ xs → y ∈ ys →
            body s x y = Ret (g s (x, y)) ∧ Inv (g s (x, y))) →
  for_each xs (λ s x, for_each ys (λ s y, body s x y) s) s
  = Ret (foldl g s (points xs ys))
  ∧ Inv (foldl g s (points xs ys)).
Proof.
  intros Hs Hbody. rewrite <- foldl_points.
  apply (for_each_pure Inv (λ s x, foldl (λ s y, g s (x, y)) s ys)); [done|].
  intros s' x Hs' Hx.
  apply (for_each_pure Inv (λ s y, g s (x, y))); [done|].
  intros s'' y Hs'' Hy. by apply Hbody.
Qed.

(** A loop whose body, on every state, returns or panics with [p], and
    panics with [p] at one of the values, panics with [p]. *)
Lemma for_each_panics {S A} (xs : list A) (body : S → A → Res S) p x s :
  x ∈ xs →
  (∀ s, body s x = Panic p) →
  (∀ s y, y ∈ xs → (∃ s', body s y = Ret s') ∨ body s y = Panic p) →
  for_each xs body s = Panic p.
Proof.
  revert s. induction xs as [|y xs IH]; intros s Hx Hpanic Hbody.
  - by apply elem_of_nil in Hx.
  - simpl. destruct (Hbody s y) as [[s' Hs]|Hs]; [left| |by rewrite Hs].
    rewrite Hs, Res_bind_Ret.
    apply elem_of_cons in Hx as [->|Hx]; [by rewrite Hpanic in Hs|].
    apply IH; [done..|]. intros s'' z Hz. apply Hbody. by right.
Qed.

(** The pixels of an image after a run of [SetRGBA] at points of its
    rectangle. *)
Lemma foldl_SetRGBA_Rect (f : Z * Z → RGBAColor) ps img :
  Rect (foldl (λ im p, SetRGBA im p.1 p.2 (f p)) img ps) = Rect img.
Proof.
  revert img. induction ps as [|p ps IH]; intros img; [done|].
  simpl. rewrite IH. unfold SetRGBA. by destruct (In_rect _ _ _).
Qed.

Lemma foldl_SetRGBA_lookup (f : Z * Z → RGBAColor) ps img q :
  (∀ p, p ∈ ps → In_rect p.1 p.2 (Rect img) = true) →
  Pix (foldl (λ im p, SetRGBA im p.1 p.2 (f p)) img ps) !! q
  = if bool_decide (q ∈ ps) then Some (f q) else Pix img !! q.
Proof.
  revert img. induction ps as [|p ps IH] using rev_ind; intros img Hin.
  - by rewrite bool_decide_eq_false_2 by apply not_elem_of_nil.
  - destruct p as [px py]. rewrite foldl_app. simpl. unfold SetRGBA at 1.
    rewrite foldl_SetRGBA_Rect.
    assert (Hp : In_rect px py (Rect img) = true).
    { apply (Hin (px, py)), elem_of_app. right. by left. }
    rewrite Hp.
    simpl. destruct (decide (q = (px, py))) as [->|Hne].
    + rewrite lookup_insert_eq.
      by rewrite bool_decide_eq_true_2 by (apply elem_of_app; right; by left).
    + rewrite lookup_insert_ne by done.
      rewrite IH by (intros p' Hp'; apply Hin, elem_of_app; by left).
      rewrite (bool_decide_ext (q ∈ ps ++ [(px, py)]) (q ∈ ps)); [done|].
      rewrite elem_of_app, list_elem_of_singleton.
      split; [intros [?|?]; [done|congruence]|by left].
Qed.

Lemma In_rect_origin x y w h :
  0 ≤ w → 0 ≤ h →
  In_rect x y (image_Rect 0 0 w h) = bool_decide (0 ≤ x < w ∧ 0 ≤ y < h).
Proof.
  intros Hw Hh. unfold In_rect, image_Rect. simpl.
  rewrite Z.min_l, Z.min_l, Z.max_r, Z.max_r by lia.
  case_bool_decide as H.
  - rewrite !andb_true_iff, !Z.leb_le, !Z.ltb_lt. lia.
  - apply not_true_is_false. rewrite !andb_true_iff, !Z.leb_le, !Z.ltb_lt. lia.
Qed.

(** ** EwmhIconToImage *)

(** Clearing the bits below [k] and XOR-ing with the word leaves the bits
    below [k]. *)
Lemma lxor_shiftl_shiftr a k :
  0 ≤ k → Z.lxor (Z.shiftl (Z.shiftr a k) k) a = a mod 2 ^ k.
Proof.
  intros Hk. apply Z.bits_inj'. intros n Hn.
  rewrite Z.lxor_spec, Z.shiftl_spec by done.
  destruct (Z.lt_ge_cases n k) as [Hlt|Hge].
  - rewrite Z.mod_pow2_bits_low by lia.
    rewrite (Z.testbit_neg_r _ (n - k)) by lia. done.
  - rewrite Z.mod_pow2_bits_high by lia.
    rewrite Z.shiftr_spec by lia. replace (n - k + k) with n by lia.
    apply xorb_nilpotent.
Qed.

(** The four channels [EwmhIconToImage] computes are the four low bytes
    of the ARGB word. *)
Lemma EwmhIconToImage_channels argb :
  let alpha := Z.shiftr argb 24 in
  let red := Z.shiftr (Z.lxor (Z.shiftl alpha 24) argb) 16 in
  let green :=
    Z.shiftr (Z.lxor (Z.shiftl alpha 24 + Z.shiftl red 16) argb) 8 in
  let blue :=
    Z.shiftr (Z.lxor (Z.shiftl alpha 24 + Z.shiftl red 16 + Z.shiftl green 8)
                     argb) 0 in
  uint8 alpha = byte_of argb 3 ∧ uint8 red = byte_of argb 2
  ∧ uint8 green = byte_of argb 1 ∧ uint8 blue = byte_of argb 0.
Proof.
  intros alpha red green blue.
  assert (Hred : red = argb mod 2 ^ 24 / 2 ^ 16).
  { unfold red, alpha. by rewrite lxor_shiftl_shiftr, Z.shiftr_div_pow2. }
  assert (H16 : Z.shiftl alpha 24 + Z.shiftl red 16
                = Z.shiftl (Z.shiftr argb 16) 16).
  { rewrite Hred. unfold alpha.
    rewrite !Z.shiftl_mul_pow2, !Z.shiftr_div_pow2 by lia.
    change (2 ^ 24) with 16777216. change (2 ^ 16) with 65536.
    Z.div_mod_to_equations. lia. }
  assert (Hgreen : green = argb mod 2 ^ 16 / 2 ^ 8).
  { unfold green. by rewrite H16, lxor_shiftl_shiftr, Z.shiftr_div_pow2. }
  assert (H8 : Z.shiftl alpha 24 + Z.shiftl red 16 + Z.shiftl green 8
               = Z.shiftl (Z.shiftr argb 8) 8).
  { rewrite H16, Hgreen.
    rewrite !Z.shiftl_mul_pow2, !Z.shiftr_div_pow2 by lia.
    change (2 ^ 16) with 65536. change (2 ^ 8) with 256.
    Z.div_mod_to_equations. lia. }
  assert (Hblue : blue = argb mod 2 ^ 8).
  { unfold blue. by rewrite H8, lxor_shiftl_shiftr, Z.shiftr_0_r. }
  unfold uint8, byte_of. rewrite Hred, Hgreen, Hblue. unfold alpha.
  rewrite Z.shiftr_div_pow2 by lia. simpl Z.mul.
  change (2 ^ 24) with 16777216. change (2 ^ 16) with 65536.
  change (2 ^ 8) with 256. change (2 ^ 0) with 1.
  split_and!; Z.div_mod_to_equations; lia.
Qed.

Lemma foldl_pair {S1 S2 A} (g1 : S1 → A → S1) (g2 : S2 → A → S2) xs s1 s2 :
  foldl (λ st x, (g1 st.1 x, g2 st.2 x)) (s1, s2) xs
  = (foldl g1 s1 xs, foldl g2 s2 xs).
Proof.
  revert s1 s2. induction xs as [|x xs IH]; intros s1 s2; [done|].
  simpl. apply IH.
Qed.

(** The pixel of an image of rectangle (0, 0, w, h) filled by [SetRGBA]
    at every point. *)
Lemma RGBAAt_filled (f : Z * Z → RGBAColor) w h x y :
  0 ≤ w → 0 ≤ h → 0 ≤ x < w → 0 ≤ y < h →
  RGBAAt (foldl (λ im p, SetRGBA im p.1 p.2 (f p))
                (NewRGBA (image_Rect 0 0 w h))
                (points (seqZ 0 w) (seqZ 0 h))) x y
  = f (x, y).
Proof.
  intros Hw Hh Hx Hy. unfold RGBAAt.
  rewrite foldl_SetRGBA_Rect. simpl.
  rewrite In_rect_origin, bool_decide_eq_true_2 by lia.
  rewrite foldl_SetRGBA_lookup.
  - rewrite bool_decide_eq_true_2; [done|].
    apply elem_of_points. rewrite !elem_of_seqZ. lia.
  - intros [px py] [Hpx Hpy]%elem_of_points. simpl.
    apply elem_of_seqZ in Hpx, Hpy.
    rewrite In_rect_origin by lia. apply bool_decide_eq_true_2. lia.
Qed.

(** X4. [EwmhIconToImage] on an icon whose data holds width * height
    words returns an image and a mask of the icon's size; the pixel at
    (x, y) of the image has, of the ARGB word at x + y * width, byte 2 as
    red, byte 1 as green, byte 0 as blue, and is opaque; the pixel of the
    mask has byte 3, the alpha, in its four channels. *)
Theorem EwmhIconToImage_pixels icon :
  0 ≤ Width icon → 0 ≤ Height icon →
  Width icon * Height icon ≤ Z.of_nat (length (Data icon)) →
  ∃ img mask,
    EwmhIconToImage icon = Ret (img, mask)
    ∧ Rect img = image_Rect 0 0 (Width icon) (Height icon)
    ∧ Rect mask = image_Rect 0 0 (Width icon) (Height icon)
    ∧ ∀ x y, 0 ≤ x < Width icon → 0 ≤ y < Height icon →
        ∃ argb,
          Data icon !! Z.to_nat (x + y * Width icon) = Some argb
          ∧ RGBAAt img x y
            = {| cR := byte_of argb 2; cG := byte_of argb 1;
                 cB := byte_of argb 0; cA := 255 |}
          ∧ RGBAAt mask x y
            = {| cR := byte_of argb 3; cG := byte_of argb 3;
                 cB := byte_of argb 3; cA := byte_of argb 3 |}.
Proof.
  intros Hw Hh Hlen. unfold EwmhIconToImage.
  set (word := λ p : Z * Z, nth (Z.to_nat (p.1 + p.2 * Width icon)) (Data icon) 0).
  set (colour := λ p : Z * Z,
    {| cR := byte_of (word p) 2; cG := byte_of (word p) 1;
       cB := byte_of (word p) 0; cA := 255 |}).
  set (alpha := λ p : Z * Z,
    {| cR := byte_of (word p) 3; cG := byte_of (word p) 3;
       cB := byte_of (word p) 3; cA := byte_of (word p) 3 |}).
  assert (Hword : ∀ x y, 0 ≤ x < Width icon → 0 ≤ y < Height icon →
    0 ≤ x + y * Width icon < Z.of_nat (length (Data icon))) by (intros; nia).
  destruct (for_each_points (λ _, True)
    (λ st p, (SetRGBA st.1 p.1 p.2 (colour p), SetRGBA st.2 p.1 p.2 (alpha p)))
    (seqZ 0 (Width icon)) (seqZ 0 (Height icon))
    (EwmhIconToImage_pixel icon (Width icon))
    (NewRGBA (image_Rect 0 0 (Width icon) (Height icon)),
     NewRGBA (image_Rect 0 0 (Width icon) (Height icon)))) as [Hrun _].
  { done. }
  { intros [img mask] x y _ Hx%elem_of_seqZ Hy%elem_of_seqZ. split; [|done].
    unfold EwmhIconToImage_pixel.
    rewrite index_nth by (apply Hword; lia). rewrite Res_bind_Ret.
    destruct (EwmhIconToImage_channels
                (nth (Z.to_nat (x + y * Width icon)) (Data icon) 0))
      as (Ha & Hr & Hg & Hb).
    cbv zeta in Ha, Hr, Hg, Hb. rewrite Ha, Hr, Hg, Hb. done. }
  rewrite Hrun.
  rewrite (foldl_pair (λ im p, SetRGBA im p.1 p.2 (colour p))
                      (λ im p, SetRGBA im p.1 p.2 (alpha p))).
  eexists _, _. split; [done|].
  rewrite !foldl_SetRGBA_Rect. split; [done|]. split; [done|].
  intros x y Hx Hy. exists (word (x, y)). split_and!.
  - unfold word. simpl.
    destruct (nth_lookup_or_length (Data icon)
                (Z.to_nat (x + y * Width icon)) 0) as [|Hge]; [done|].
    specialize (Hword x y Hx Hy). lia.
  - by rewrite RGBAAt_filled.
  - by rewrite RGBAAt_filled.
Qed.

(** X5. [EwmhIconToImage] on an icon of positive width and height (with
    4 * width * height in the range of [int]) whose data holds fewer than
    width * height words panics on an index. *)
Theorem EwmhIconToImage_short_data_panics icon :
  0 < Width icon → 0 < Height icon →
  4 * (Width icon * Height icon) < 2 ^ 63 →
  Z.of_nat (length (Data icon)) < Width icon * Height icon →
  EwmhIconToImage icon = Panic IndexOutOfRange.
Proof.
  intros Hw Hh _ Hlen. unfold EwmhIconToImage.
  assert (Hbody : ∀ st x y,
    (∃ st', EwmhIconToImage_pixel icon (Width icon) st x y = Ret st')
    ∨ EwmhIconToImage_pixel icon (Width icon) st x y = Panic IndexOutOfRange).
  { intros [img mask] x y. unfold EwmhIconToImage_pixel, index.
    case_bool_decide; [|by right].
    destruct (Data icon !! Z.to_nat (x + y * Width icon)); [left|by right].
    rewrite Res_bind_Ret. eauto. }
  assert (Hcolumn : ∀ st x,
    (∃ st', for_each (seqZ 0 (Height icon))
              (λ st y, EwmhIconToImage_pixel icon (Width icon) st x y) st
            = Ret st')
    ∨ for_each (seqZ 0 (Height icon))
        (λ st y, EwmhIconToImage_pixel icon (Width icon) st x y) st
      = Panic IndexOutOfRange).
  { intros st x. revert st.
    induction (seqZ 0 (Height icon)) as [|y ys IH]; intros st; [left; by eexists|].
    simpl. destruct (Hbody st x y) as [[st' ->]| ->]; [|by right].
    rewrite Res_bind_Ret. apply IH. }
  apply (for_each_panics _ _ _ (Width icon - 1)).
  - apply elem_of_seqZ. lia.
  - intros st. apply (for_each_panics _ _ _ (Height icon - 1)).
    + apply elem_of_seqZ. lia.
    + intros [img mask]. unfold EwmhIconToImage_pixel.
      rewrite index_Panic; [done|]. right. nia.
    + intros st' y _. apply Hbody.
  - intros st x _. apply Hcolumn.
Qed.

(** ** CreatePixmap: the bytes of the image *)

Lemma store_Ret {A} (l : list A) i v :
  0 ≤ i < Z.of_nat (length l) → store l i v = Ret (<[Z.to_nat i := v]> l).
Proof. intros Hi. unfold store. by rewrite bool_decide_eq_true_2. Qed.

Lemma CreatePixmap_pixel_writes img width imgData x y :
  0 ≤ 4 * (x + y * width) →
  4 * (x + y * width) + 3 < Z.of_nat (length imgData) →
  CreatePixmap_pixel img width imgData x y
  = Ret (write4 imgData (4 * (x + y * width)) (BGRA_bytes (At img x y))).
Proof.
  intros Hlo Hhi. unfold CreatePixmap_pixel.
  rewrite store_Ret by lia. rewrite Res_bind_Ret.
  rewrite store_Ret by (rewrite length_insert; lia). rewrite Res_bind_Ret.
  rewrite store_Ret by (rewrite !length_insert; lia). rewrite Res_bind_Ret.
  rewrite store_Ret by (rewrite !length_insert; lia).
  unfold write4, BGRA_bytes. simpl. by rewrite !Z.add_0_r.
Qed.

Lemma write4_length l i c :
  length (write4 l i (BGRA_bytes c)) = length l.
Proof. unfold write4. simpl. by rewrite !length_insert. Qed.

Lemma write4_lookup l i c (k : nat) :
  0 ≤ i → i + 3 < Z.of_nat (length l) → (k < 4)%nat →
  write4 l i (BGRA_bytes c) !! Z.to_nat (i + Z.of_nat k) = BGRA_bytes c !! k.
Proof.
  intros Hi Hlen Hk. unfold write4, BGRA_bytes. simpl.
  destruct k as [|[|[|[|k]]]]; [..|lia]; simpl;
    repeat first
      [ rewrite list_lookup_insert_eq by (rewrite ?length_insert; lia); done
      | rewrite list_lookup_insert_ne by lia ].
Qed.

Lemma write4_lookup_other l i c (j : nat) :
  0 ≤ i → (Z.of_nat j < i ∨ i + 3 < Z.of_nat j) →
  write4 l i (BGRA_bytes c) !! j = l !! j.
Proof.
  intros Hi Hj. unfold write4, BGRA_bytes. simpl.
  by rewrite !list_lookup_insert_ne by lia.
Qed.

(** Row-major indices of different points differ. *)
Lemma row_major_inj w x y x' y' :
  0 ≤ x < w → 0 ≤ x' < w → x + y * w = x' + y' * w → x = x' ∧ y = y'.
Proof.
  intros Hx Hx' Heq.
  destruct (Z.lt_trichotomy y y') as [Hlt|[->|Hgt]]; [nia|lia|nia].
Qed.

Lemma foldl_write4_length (val : Z * Z → Color) w ps : ∀ l,
  length (foldl (λ l p, write4 l (4 * (p.1 + p.2 * w)) (BGRA_bytes (val p)))
                l ps)
  = length l.
Proof.
  induction ps as [|p ps IH]; intros l; [done|].
  cbn [foldl]. by rewrite IH, write4_length.
Qed.

(** The bytes after a run of [write4] at points of a [w] by [h] image:
    the point written holds its four bytes. *)
Lemma foldl_write4_lookup (val : Z * Z → Color) w h ps : ∀ l x y (k : nat),
  0 < w →
  Z.of_nat (length l) = w * h * 4 →
  (∀ p, p ∈ ps → 0 ≤ p.1 < w ∧ 0 ≤ p.2 < h) →
  (x, y) ∈ ps → (k < 4)%nat →
  foldl (λ l p, write4 l (4 * (p.1 + p.2 * w)) (BGRA_bytes (val p))) l ps
    !! Z.to_nat (4 * (x + y * w) + Z.of_nat k)
  = BGRA_bytes (val (x, y)) !! k.
Proof.
  induction ps as [|[px py] ps IH] using rev_ind; intros l x y k Hw Hlen Hps Hin Hk.
  - by apply elem_of_nil in Hin.
  - rewrite foldl_app. cbn [foldl fst snd].
    assert (Hp : 0 ≤ px < w ∧ 0 ≤ py < h).
    { apply (Hps (px, py)), elem_of_app. right. by left. }
    assert (Hps' : ∀ p, p ∈ ps → 0 ≤ p.1 < w ∧ 0 ≤ p.2 < h).
    { intros p Hp'. apply Hps, elem_of_app. by left. }
    assert (Hxy : 0 ≤ x < w ∧ 0 ≤ y < h) by (by apply (Hps (x, y))).
    simpl in Hxy, Hp.
    destruct (decide ((x, y) = (px, py))) as [[= -> ->]|Hne].
    + apply write4_lookup; [nia|rewrite foldl_write4_length; nia|done].
    + rewrite write4_lookup_other.
      * apply elem_of_app in Hin as [Hin|Hin%list_elem_of_singleton]; [|done].
        by apply IH.
      * nia.
      * assert (x + y * w ≠ px + py * w).
        { intros Heq. apply Hne.
          destruct (row_major_inj w x y px py) as [-> ->]; [lia..|done]. }
        lia.
Qed.

Lemma CreatePixmap_data_bytes img :
  0 < (GetDim img).1 ≤ 65535 → 0 ≤ (GetDim img).2 ≤ 65535 →
  ∃ imgData,
    CreatePixmap_data img = Ret imgData
    ∧ Z.of_nat (length imgData) = (GetDim img).1 * (GetDim img).2 * 4
    ∧ ∀ x y (k : nat), 0 ≤ x < (GetDim img).1 → 0 ≤ y < (GetDim img).2 →
        (k < 4)%nat →
        imgData !! Z.to_nat (4 * (x + y * (GetDim img).1) + Z.of_nat k)
        = BGRA_bytes (At img x y) !! k.
Proof.
  unfold CreatePixmap_data. destruct (GetDim img) as [w h]. simpl.
  intros Hw Hh. unfold make.
  destruct (Z.ltb_spec (w * h * 4) 0) as [|_]; [nia|]. rewrite Res_bind_Ret.
  destruct (for_each_points
    (λ l, Z.of_nat (length l) = w * h * 4)
    (λ l p, write4 l (4 * (p.1 + p.2 * w)) (BGRA_bytes (At img p.1 p.2)))
    (seqZ 0 w) (seqZ 0 h) (CreatePixmap_pixel img w)
    (replicate (Z.to_nat (w * h * 4)) 0)) as [Hrun Hlen].
  { rewrite length_replicate. lia. }
  { intros l x y Hl Hx%elem_of_seqZ Hy%elem_of_seqZ. simpl.
    rewrite CreatePixmap_pixel_writes by nia.
    split; [done|]. by rewrite write4_length. }
  rewrite Hrun. eexists. split; [done|]. split; [done|].
  intros x y k Hx Hy Hk.
  apply (foldl_write4_lookup (λ p, At img p.1 p.2) w h); [lia| |  |  |done].
  - rewrite length_replicate. nia.
  - intros [px py] [Hpx Hpy]%elem_of_points. simpl.
    apply elem_of_seqZ in Hpx, Hpy. lia.
  - apply elem_of_points. rewrite !elem_of_seqZ. lia.
Qed.

(** ** CreatePixmap: the requests *)

Lemma seqZ_snoc (n : nat) :
  seqZ 0 (Z.of_nat (S n)) = seqZ 0 (Z.of_nat n) ++ [Z.of_nat n].
Proof.
  by rewrite seqZ_S, Z.add_0_l.
Qed.

Lemma quot_Ret a b : 0 ≤ a → 0 < b → quot a b = Ret (a / b).
Proof.
  intros Ha Hb. unfold quot. destruct (Z.eqb_spec b 0); [lia|].
  by rewrite Z.quot_div_nonneg.
Qed.

Lemma slice_Ret {A} (l : list A) lo hi :
  0 ≤ lo → lo ≤ hi → hi ≤ Z.of_nat (length l) →
  slice l lo hi = Ret (take (Z.to_nat (hi - lo)) (drop (Z.to_nat lo) l)).
Proof. intros. unfold slice. by rewrite bool_decide_eq_true_2. Qed.

Lemma send_start_next L R i :
  0 ≤ L → 0 ≤ R → 0 ≤ i →
  (if L <? send_start L R i + R then L else send_start L R i + R)
  = send_start L R (i + 1).
Proof.
  intros HL HR Hi. unfold send_start.
  destruct (Z.ltb_spec L (Z.min L (i * R) + R)); lia.
Qed.

Lemma CreatePixmap_send_step xu pid width rowsPer imgData sent i :
  0 < width → 0 ≤ rowsPer → 0 ≤ i →
  CreatePixmap_send xu pid width rowsPer imgData
    (sent, i * rowsPer,
     send_start (Z.of_nat (length imgData)) (rowsPer * width * 4) i) i
  = Ret (sent ++ [send_request xu pid width rowsPer imgData i],
         (i + 1) * rowsPer,
         send_start (Z.of_nat (length imgData)) (rowsPer * width * 4) (i + 1)).
Proof.
  intros Hw Hrows Hi. unfold CreatePixmap_send.
  rewrite send_start_next by nia.
  assert (Hstart : ∀ j, 0 ≤ j →
    0 ≤ send_start (Z.of_nat (length imgData)) (rowsPer * width * 4) j
      ≤ Z.of_nat (length imgData)) by (intros; unfold send_start; nia).
  assert (Hmono :
    send_start (Z.of_nat (length imgData)) (rowsPer * width * 4) i
    ≤ send_start (Z.of_nat (length imgData)) (rowsPer * width * 4) (i + 1))
    by (unfold send_start; nia).
  rewrite slice_Ret by (apply Hstart; lia) || done. rewrite Res_bind_Ret.
  fold (send_data imgData (rowsPer * width * 4) i).
  rewrite quot_Ret by lia. rewrite Res_bind_Ret.
  rewrite quot_Ret by (done || apply Z.div_pos; lia). rewrite Res_bind_Ret.
  unfold send_request. do 3 f_equal. lia.
Qed.

Lemma CreatePixmap_send_loop xu pid width rowsPer imgData sent (n : nat) :
  0 < width → 0 ≤ rowsPer →
  for_each (seqZ 0 (Z.of_nat n))
           (CreatePixmap_send xu pid width rowsPer imgData) (sent, 0, 0)
  = Ret (sent ++ (send_request xu pid width rowsPer imgData
                  <$> seqZ 0 (Z.of_nat n)),
         Z.of_nat n * rowsPer,
         send_start (Z.of_nat (length imgData)) (rowsPer * width * 4)
                    (Z.of_nat n)).
Proof.
  intros Hw Hrows. induction n as [|n IH].
  - simpl. rewrite app_nil_r. unfold send_start. do 2 f_equal. lia.
  - rewrite seqZ_snoc, for_each_snoc, IH, Res_bind_Ret.
    rewrite CreatePixmap_send_step by lia.
    rewrite fmap_app, app_assoc. simpl. do 3 f_equal; lia.
Qed.

(** The data of the first [n] sends, end to end, are the bytes before
    the start of send [n]. *)
Lemma concat_send_data imgData R (n : nat) :
  0 ≤ R →
  concat (send_data imgData R <$> seqZ 0 (Z.of_nat n))
  = take (Z.to_nat (send_start (Z.of_nat (length imgData)) R (Z.of_nat n)))
         imgData.
Proof.
  intros HR. induction n as [|n IH].
  - simpl. unfold send_start. by rewrite Z.min_r by lia.
  - rewrite seqZ_snoc, fmap_app, concat_app, IH. simpl. rewrite app_nil_r.
    unfold send_data. rewrite Nat2Z.inj_succ, <- Z.add_1_r.
    set (a := send_start (Z.of_nat (length imgData)) R (Z.of_nat n)).
    set (b := send_start (Z.of_nat (length imgData)) R (Z.of_nat n + 1)).
    assert (0 ≤ a ≤ b) by (unfold a, b, send_start; nia).
    rewrite <- (take_drop (Z.to_nat a) (take (Z.to_nat b) imgData)).
    rewrite take_take, Nat.min_l by lia. f_equal.
    rewrite skipn_firstn_comm. f_equal. lia.
Qed.

Lemma put_data_sends xu pid width rowsPer imgData (sends : list Z) :
  put_data (send_request xu pid width rowsPer imgData <$> sends)
  = send_data imgData (rowsPer * width * 4) <$> sends.
Proof.
  unfold put_data. induction sends as [|i sends IH]; [done|].
  csimpl. by f_equal.
Qed.

(** What [CreatePixmap] returns for an image of positive width: the
    request that creates the pixmap, then its sends. *)
Lemma CreatePixmap_sends MAX_REQ_SIZE xu pid img imgData :
  28 < MAX_REQ_SIZE →
  0 < (GetDim img).1 →
  CreatePixmap_data img = Ret imgData →
  let width := (GetDim img).1 in
  let sends := Z.of_nat (length imgData) / (MAX_REQ_SIZE - 28) + 1 in
  let rowsPer := (MAX_REQ_SIZE - 28) / (width * 4) in
  0 < sends ∧ 0 ≤ rowsPer
  ∧ rowsPer * width * 4 ≤ MAX_REQ_SIZE - 28
  ∧ CreatePixmap MAX_REQ_SIZE xu pid img
    = Ret (CreatePixmapReq (RootDepth xu) pid (RootWin xu) (uint16 width)
                           (uint16 (GetDim img).2)
           :: (send_request xu pid width rowsPer imgData <$> seqZ 0 sends),
           pid).
Proof.
  intros HM Hw Hdata width sends rowsPer.
  assert (Hsends : 0 ≤ Z.of_nat (length imgData) / (MAX_REQ_SIZE - 28))
    by (apply Z.div_pos; lia).
  assert (Hrows : 0 ≤ rowsPer) by (apply Z.div_pos; lia).
  assert (HR : rowsPer * width * 4 ≤ MAX_REQ_SIZE - 28).
  { unfold rowsPer. pose proof (Z.mul_div_le (MAX_REQ_SIZE - 28) (width * 4)).
    lia. }
  split_and!; [lia|done|done|].
  unfold CreatePixmap. subst width. destruct (GetDim img) as [w h] eqn:Hdim.
  cbn [fst snd] in *. rewrite Hdata. unfold mbind, Res_bind.
  rewrite quot_Ret by lia. rewrite quot_Ret by lia.
  replace (Z.of_nat (length imgData) / (MAX_REQ_SIZE - 28) + 1)
    with (Z.of_nat (Z.to_nat sends)) by (unfold sends; lia).
  rewrite CreatePixmap_send_loop by done. cbn [fst app].
  by rewrite Z2Nat.id by (unfold sends; lia).
Qed.

Lemma send_start_rows w h rowsPer i :
  0 < w →
  send_start (w * h * 4) (rowsPer * w * 4) i = 4 * w * Z.min h (i * rowsPer).
Proof. intros Hw. unfold send_start. nia. Qed.

Lemma put_data_cons_create depth pid drawable width height reqs :
  put_data (CreatePixmapReq depth pid drawable width height :: reqs)
  = put_data reqs.
Proof. done. Qed.

(** X7. [CreatePixmap] keeps to the size of a request: for an image of
    positive width, every [PutImage] request it sends carries at most
    MAX_REQ_SIZE - 28 bytes, and a whole number of rows of the image. *)
Theorem CreatePixmap_requests_fit MAX_REQ_SIZE xu pid img :
  28 < MAX_REQ_SIZE ≤ 2 ^ 31 →
  0 < (GetDim img).1 ≤ 65535 → 0 ≤ (GetDim img).2 ≤ 65535 →
  ∃ reqs,
    CreatePixmap MAX_REQ_SIZE xu pid img = Ret (reqs, pid)
    ∧ ∀ data, data ∈ put_data reqs →
        Z.of_nat (length data) ≤ MAX_REQ_SIZE - 28
        ∧ ∃ rows, 0 ≤ rows
                  ∧ Z.of_nat (length data) = rows * ((GetDim img).1 * 4).
Proof.
  intros HM Hw Hh.
  destruct (CreatePixmap_data_bytes img Hw Hh) as (imgData & Hdata & Hlen & _).
  destruct (CreatePixmap_sends MAX_REQ_SIZE xu pid img imgData)
    as (Hsends & Hrows & HR & Hrun); [lia..|done|].
  eexists. split; [exact Hrun|].
  intros data. rewrite put_data_cons_create, put_data_sends.
  intros (i & -> & Hi%elem_of_seqZ)%list_elem_of_fmap.
  unfold send_data. rewrite length_take_le.
  - rewrite Hlen, !send_start_rows by lia. split; [nia|].
    exists (Z.min (GetDim img).2 ((i + 1) * ((MAX_REQ_SIZE - 28) / ((GetDim img).1 * 4)))
            - Z.min (GetDim img).2 (i * ((MAX_REQ_SIZE - 28) / ((GetDim img).1 * 4)))).
    split; nia.
  - rewrite length_drop, Hlen, !send_start_rows by lia.
    rewrite <- (Nat2Z.id (length imgData)), Hlen. nia.
Qed.

Lemma CreatePixmap_requests MAX_REQ_SIZE xu pid img :
  28 < MAX_REQ_SIZE ≤ 2 ^ 31 →
  0 < (GetDim img).1 ≤ 65535 → 0 ≤ (GetDim img).2 ≤ 65535 →
  let '(width, height) := GetDim img in
  let sends := width * height * 4 / (MAX_REQ_SIZE - 28) + 1 in
  let rowsPer := (MAX_REQ_SIZE - 28) / (width * 4) in
  ∃ imgData puts,
    CreatePixmap_data img = Ret imgData
    ∧ CreatePixmap MAX_REQ_SIZE xu pid img
      = Ret (CreatePixmapReq (RootDepth xu) pid (RootWin xu) width height
             :: puts, pid)
    ∧ Z.of_nat (length puts) = sends
    ∧ concat (put_data puts)
      = take (Z.to_nat (4 * width * Z.min height (sends * rowsPer))) imgData
    ∧ ∀ i, 0 ≤ i < sends →
        let first := Z.min height (i * rowsPer) in
        let rows := Z.min height ((i + 1) * rowsPer) - first in
        puts !! Z.to_nat i
        = Some (PutImageReq ImageFormatZPixmap pid (GC xu) width rows 0
                  (int16 (i * rowsPer)) 0 24
                  (take (Z.to_nat (4 * width * rows))
                        (drop (Z.to_nat (4 * width * first)) imgData))).
Proof.
  intros HM Hw Hh.
  destruct (CreatePixmap_data_bytes img Hw Hh) as (imgData & Hdata & Hlen & _).
  destruct (CreatePixmap_sends MAX_REQ_SIZE xu pid img imgData)
    as (Hsends & Hrows & HR & Hrun); [lia..|done|].
  destruct (GetDim img) as [w h]. cbn [fst snd] in *.
  rewrite Hlen in Hrun, Hsends.
  set (sends := w * h * 4 / (MAX_REQ_SIZE - 28) + 1) in *.
  set (rowsPer := (MAX_REQ_SIZE - 28) / (w * 4)) in *.
  exists imgData, (send_request xu pid w rowsPer imgData <$> seqZ 0 sends).
  assert (Hu16 : ∀ n, 0 ≤ n ≤ 65535 → uint16 n = n).
  { intros n Hn. unfold uint16. apply Z.mod_small. lia. }
  split_and!.
  - done.
  - rewrite Hrun. by rewrite !Hu16 by lia.
  - rewrite length_fmap, length_seqZ. lia.
  - rewrite put_data_sends.
    rewrite <- (Z2Nat.id sends) at 1 by lia.
    rewrite concat_send_data by nia.
    rewrite Z2Nat.id, Hlen, send_start_rows by lia. done.
  - intros i Hi. cbv zeta.
    set (first := Z.min h (i * rowsPer)).
    set (rows := Z.min h ((i + 1) * rowsPer) - first).
    rewrite list_lookup_fmap, (lookup_seqZ_lt 0 sends) by lia. simpl.
    rewrite Z2Nat.id, Z.add_0_l by lia. unfold send_request, send_data.
    rewrite Hlen, !send_start_rows by lia. fold first.
    replace (4 * w * Z.min h ((i + 1) * rowsPer) - 4 * w * first)
      with (4 * w * rows) by (unfold rows; lia).
    rewrite length_take_le.
    + rewrite Z2Nat.id by (unfold rows, first; nia).
      replace (4 * w * rows / 4 / w) with rows.
      * rewrite !Hu16 by (unfold rows, first; lia). done.
      * rewrite Z.div_div by lia. symmetry.
        replace (4 * w * rows) with (rows * (4 * w)) by lia.
        apply Z.div_mul. lia.
    + rewrite length_drop. unfold rows, first. nia.
Qed.

(** X9. An image whose bytes stay below MAX_REQ_SIZE - 28 goes out whole
    in one [PutImage] request, placed at row 0 with the height of the
    image. *)
Theorem CreatePixmap_single_request MAX_REQ_SIZE xu pid img :
  28 < MAX_REQ_SIZE ≤ 2 ^ 31 →
  0 < (GetDim img).1 ≤ 65535 → 0 ≤ (GetDim img).2 ≤ 65535 →
  (GetDim img).1 * (GetDim img).2 * 4 < MAX_REQ_SIZE - 28 →
  ∃ imgData,
    CreatePixmap_data img = Ret imgData
    ∧ CreatePixmap MAX_REQ_SIZE xu pid img
      = Ret ([ CreatePixmapReq (RootDepth xu) pid (RootWin xu)
                               (GetDim img).1 (GetDim img).2;
               PutImageReq ImageFormatZPixmap pid (GC xu)
                           (GetDim img).1 (GetDim img).2 0 0 0 24 imgData ],
             pid).
Proof.
  intros HM Hw Hh Hfit.
  pose proof (CreatePixmap_requests MAX_REQ_SIZE xu pid img HM Hw Hh)
    as Hall.
  destruct (CreatePixmap_data_bytes img Hw Hh) as (imgData' & Hdata' & Hlen & _).
  destruct (GetDim img) as [w h]. cbn [fst snd] in *.
  destruct Hall as (imgData & puts & Hdata & Hrun & Hputs & _ & Hreq).
  assert (imgData' = imgData) as -> by congruence.
  rewrite (Z.div_small (w * h * 4)) in Hputs, Hreq by nia.
  exists imgData. split; [done|]. rewrite Hrun. do 2 f_equal.
  destruct puts as [|put [|put' puts]]; simpl in Hputs; [lia| |lia].
  specialize (Hreq 0 ltac:(lia)). cbv zeta in Hreq.
  assert (Hrows : h ≤ (MAX_REQ_SIZE - 28) / (w * 4)).
  { apply Z.div_le_lower_bound; nia. }
  rewrite Z.mul_0_l, (Z.min_r h 0), (Z.min_l h) in Hreq by lia.
  rewrite Z.mul_0_r, Z.sub_0_r in Hreq.
  change (Z.to_nat 0) with 0%nat in Hreq. rewrite drop_0 in Hreq.
  rewrite take_ge in Hreq by lia.
  simpl in Hreq. by injection Hreq as ->.
Qed.

(** X10. [CreatePixmap] does not always send the whole image: when sends
    * rowsPer is below the height, the requests carry the first sends *
    rowsPer rows and the rows after them go out in no request. *)
Theorem CreatePixmap_rows_left_out MAX_REQ_SIZE xu pid img :
  28 < MAX_REQ_SIZE ≤ 2 ^ 31 →
  0 < (GetDim img).1 ≤ 65535 → 0 ≤ (GetDim img).2 ≤ 65535 →
  let '(width, height) := GetDim img in
  let sends := width * height * 4 / (MAX_REQ_SIZE - 28) + 1 in
  let rowsPer := (MAX_REQ_SIZE - 28) / (width * 4) in
  sends * rowsPer < height →
  ∃ imgData reqs,
    CreatePixmap_data img = Ret imgData
    ∧ CreatePixmap MAX_REQ_SIZE xu pid img = Ret (reqs, pid)
    ∧ concat (put_data reqs)
      = take (Z.to_nat (4 * width * (sends * rowsPer))) imgData
    ∧ Z.of_nat (length (concat (put_data reqs)))
      = 4 * width * (sends * rowsPer)
    ∧ Z.of_nat (length imgData) = 4 * width * height.
Proof.
  intros HM Hw Hh.
  pose proof (CreatePixmap_requests MAX_REQ_SIZE xu pid img HM Hw Hh)
    as Hall.
  destruct (CreatePixmap_data_bytes img Hw Hh) as (imgData' & Hdata' & Hlen & _).
  destruct (GetDim img) as [w h]. cbn [fst snd] in *.
  intros Hshort.
  destruct Hall as (imgData & puts & Hdata & Hrun & Hputs & Hcat & _).
  assert (imgData' = imgData) as -> by congruence.
  assert (0 ≤ (MAX_REQ_SIZE - 28) / (w * 4)) by (apply Z.div_pos; lia).
  assert (0 ≤ w * h * 4 / (MAX_REQ_SIZE - 28)) by (apply Z.div_pos; lia).
  eexists imgData, _. split; [done|]. split; [exact Hrun|].
  rewrite put_data_cons_create, Hcat, Z.min_r by lia.
  split_and!; [done| |lia].
  rewrite length_take_le by nia. nia.
Qed.

(** X11. [CreatePixmap] on an image of width 0 panics on the division by
    width * 4 that gives the rows of a request. *)
Theorem CreatePixmap_zero_width_panics MAX_REQ_SIZE xu pid img :
  28 < MAX_REQ_SIZE →
  (GetDim img).1 = 0 → 0 ≤ (GetDim img).2 →
  CreatePixmap MAX_REQ_SIZE xu pid img = Panic DivideByZero.
Proof.
  intros HM Hw Hh. unfold CreatePixmap, CreatePixmap_data.
  destruct (GetDim img) as [w h]. cbn [fst snd] in *. subst w.
  unfold make. simpl. unfold quot.
  destruct (Z.eqb_spec (MAX_REQ_SIZE - 28) 0); [lia|]. done.
Qed.

(** X6. [CreatePixmap] lays the image out row by row, four bytes a
    pixel: for an image of width w and height h it builds 4 * w * h
    bytes, and the pixel at (x, y) has, from index 4 * (x + y * w) on,
    the high bytes of its blue, green, red and alpha channels, in this
    order. *)
Theorem CreatePixmap_data_layout img :
  0 < (GetDim img).1 ≤ 65535 → 0 ≤ (GetDim img).2 ≤ 65535 →
  ∃ imgData,
    CreatePixmap_data img = Ret imgData
    ∧ Z.of_nat (length imgData) = (GetDim img).1 * (GetDim img).2 * 4
    ∧ ∀ x y (k : nat), 0 ≤ x < (GetDim img).1 → 0 ≤ y < (GetDim img).2 →
        (k < 4)%nat →
        imgData !! Z.to_nat (4 * (x + y * (GetDim img).1) + Z.of_nat k)
        = BGRA_bytes (At img x y) !! k.
Proof. apply CreatePixmap_data_bytes. Qed.

(** X8. The [PutImage] requests of [CreatePixmap] carry the image in
    order: with sends = len / (MAX_REQ_SIZE - 28) + 1 requests of rowsPer
    = (MAX_REQ_SIZE - 28) / (width * 4) rows each, request i is placed at
    row i * rowsPer (as an int16) and carries the rows from there up to
    row (i + 1) * rowsPer, as far as the image has them; end to end the
    requests carry the first min(height, sends * rowsPer) rows. *)
Theorem CreatePixmap_requests_in_order MAX_REQ_SIZE xu pid img :
  28 < MAX_REQ_SIZE ≤ 2 ^ 31 →
  0 < (GetDim img).1 ≤ 65535 → 0 ≤ (GetDim img).2 ≤ 65535 →
  let '(width, height) := GetDim img in
  let sends := width * height * 4 / (MAX_REQ_SIZE - 28) + 1 in
  let rowsPer := (MAX_REQ_SIZE - 28) / (width * 4) in
  ∃ imgData puts,
    CreatePixmap_data img = Ret imgData
    ∧ CreatePixmap MAX_REQ_SIZE xu pid img
      = Ret (CreatePixmapReq (RootDepth xu) pid (RootWin xu) width height
             :: puts, pid)
    ∧ Z.of_nat (length puts) = sends
    ∧ concat (put_data puts)
      = take (Z.to_nat (4 * width * Z.min height (sends * rowsPer))) imgData
    ∧ ∀ i, 0 ≤ i < sends →
        let first := Z.min height (i * rowsPer) in
        let rows := Z.min height ((i + 1) * rowsPer) - first in
        puts !! Z.to_nat i
        = Some (PutImageReq ImageFormatZPixmap pid (GC xu) width rows 0
                  (int16 (i * rowsPer)) 0 24
                  (take (Z.to_nat (4 * width * rows))
                        (drop (Z.to_nat (4 * width * first)) imgData))).
Proof. apply CreatePixmap_requests. Qed.

(** X22. The row of a [PutImage] request is an [int16]: a request of
    [CreatePixmap] that carries rows from row 32768 on is placed 65536
    rows higher, at a negative row. *)
Theorem CreatePixmap_row_wraps MAX_REQ_SIZE xu pid img i :
  28 < MAX_REQ_SIZE ≤ 2 ^ 31 →
  0 < (GetDim img).1 ≤ 65535 → 0 ≤ (GetDim img).2 ≤ 65535 →
  let '(width, height) := GetDim img in
  let sends := width * height * 4 / (MAX_REQ_SIZE - 28) + 1 in
  let rowsPer := (MAX_REQ_SIZE - 28) / (width * 4) in
  0 ≤ i < sends →
  32768 ≤ i * rowsPer < height →
  ∃ imgData reqs rows dstY,
    CreatePixmap_data img = Ret imgData
    ∧ CreatePixmap MAX_REQ_SIZE xu pid img = Ret (reqs, pid)
    ∧ reqs !! Z.to_nat (i + 1)
      = Some (PutImageReq ImageFormatZPixmap pid (GC xu) width rows 0
                dstY 0 24
                (take (Z.to_nat (4 * width * rows))
                      (drop (Z.to_nat (4 * width * (i * rowsPer))) imgData)))
    ∧ 0 < rows
    ∧ dstY = i * rowsPer - 65536
    ∧ dstY < 0.
Proof.
  intros HM Hw Hh.
  pose proof (CreatePixmap_requests MAX_REQ_SIZE xu pid img HM Hw Hh) as Hreqs.
  destruct (GetDim img) as [w h]. cbn [fst snd] in *. cbv zeta in *.
  intros Hi Hrow.
  destruct Hreqs as (imgData & puts & Hdata & Hrun & _ & _ & Hput).
  set (rowsPer := (MAX_REQ_SIZE - 28) / (w * 4)) in *.
  assert (HrowsPer : 0 < rowsPer) by nia.
  specialize (Hput i Hi).
  rewrite (Z.min_r h (i * rowsPer)) in Hput by lia.
  eexists imgData, _, (Z.min h ((i + 1) * rowsPer) - i * rowsPer),
          (i * rowsPer - 65536).
  split; [done|]. split; [exact Hrun|]. split_and!; [|lia|done|lia].
  replace (Z.to_nat (i + 1)) with (S (Z.to_nat i)) by lia. simpl.
  rewrite Hput. do 2 f_equal. unfold int16.
  rewrite <- (Z.mod_unique (i * rowsPer + 32768) 65536 1
                (i * rowsPer - 32768)); lia.
Qed.

(** ** PixmapToImage *)

Lemma index_cases {A} (l : list A) i :
  (∃ x, index l i = Ret x) ∨ index l i = Panic IndexOutOfRange.
Proof.
  unfold index. case_bool_decide; [|by right].
  destruct (l !! Z.to_nat i); [left; by eexists|by right].
Qed.

Lemma store_cases {A} (l : list A) i v :
  (∃ l', store l i v = Ret l' ∧ length l' = length l)
  ∨ store l i v = Panic IndexOutOfRange.
Proof.
  unfold store. case_bool_decide; [left|by right].
  eexists. split; [done|]. by rewrite length_insert.
Qed.

(** [for_each_panics] along an invariant of the state. *)
Lemma for_each_panics_inv {S A} (Inv : S → Prop) (xs : list A)
    (body : S → A → Res S) p x s :
  Inv s →
  x ∈ xs →
  (∀ s, Inv s → body s x = Panic p) →
  (∀ s y, Inv s → y ∈ xs →
          (∃ s', body s y = Ret s' ∧ Inv s') ∨ body s y = Panic p) →
  for_each xs body s = Panic p.
Proof.
  revert s. induction xs as [|y xs IH]; intros s Hs Hx Hpanic Hbody.
  - by apply elem_of_nil in Hx.
  - simpl. destruct (Hbody s y Hs) as [(s' & Hy & Hs')|Hy];
      [left| |by rewrite Hy].
    rewrite Hy, Res_bind_Ret.
    apply elem_of_cons in Hx as [->|Hx]; [by rewrite Hpanic in Hy|].
    apply IH; [done..|]. intros s'' z Hs'' Hz. apply Hbody; [done|by right].
Qed.

(** A list after stores at the indices [js], each with the value of its
    index. *)
Lemma foldl_insert_lookup {A} (f : Z → A) js : ∀ (l : list A) j,
  (∀ i, i ∈ js → 0 ≤ i < Z.of_nat (length l)) →
  j ∈ js →
  foldl (λ l i, <[Z.to_nat i := f i]> l) l js !! Z.to_nat j = Some (f j).
Proof.
  induction js as [|i js IH] using rev_ind; intros l j Hjs Hj.
  - by apply elem_of_nil in Hj.
  - rewrite foldl_app. cbn [foldl].
    assert (Hlen : ∀ js' (l' : list A),
      length (foldl (λ l i, <[Z.to_nat i := f i]> l) l' js') = length l').
    { clear. induction js' as [|i js' IH]; intros l'; [done|].
      cbn [foldl]. by rewrite IH, length_insert. }
    assert (Hi : 0 ≤ i < Z.of_nat (length l)).
    { apply Hjs, elem_of_app. right. by left. }
    destruct (decide (j = i)) as [->|Hne].
    + apply list_lookup_insert_eq. rewrite Hlen. lia.
    + assert (Hj' : 0 ≤ j < Z.of_nat (length l)) by (by apply Hjs).
      rewrite list_lookup_insert_ne by lia.
      apply elem_of_app in Hj as [Hj|Hj%list_elem_of_singleton]; [|done].
      apply IH; [|done]. intros i' Hi'. apply Hjs, elem_of_app. by left.
Qed.

Lemma foldl_insert_length {A} (f : Z → A) js : ∀ (l : list A),
  length (foldl (λ l i, <[Z.to_nat i := f i]> l) l js) = length l.
Proof.
  induction js as [|i js IH]; intros l; [done|].
  cbn [foldl]. by rewrite IH, length_insert.
Qed.

(** The colour [PixmapToImage] makes of pixel [j] of the data. *)
Lemma PixmapToImage_pixel_stores data (buf : list RGBAColor) j :
  0 ≤ j < Z.of_nat (length buf) →
  4 * j + 3 < Z.of_nat (length data) →
  PixmapToImage_pixel data buf j
  = Ret (<[Z.to_nat j :=
            {| cR := uint8 (nth (Z.to_nat (4 * j + 2)) data 0);
               cG := uint8 (nth (Z.to_nat (4 * j + 1)) data 0);
               cB := uint8 (nth (Z.to_nat (4 * j)) data 0);
               cA := 255 |}]> buf).
Proof.
  intros Hj Hdata. unfold PixmapToImage_pixel, mbind, Res_bind.
  rewrite !index_nth by lia. cbv beta iota.
  by rewrite Z.add_0_r, store_Ret by lia.
Qed.

(** The second half of [PixmapToImage]: the image of a buffer of width *
    height colours. *)
Lemma buffer_to_image (buf : list RGBAColor) zero width height :
  0 ≤ width → 0 ≤ height →
  Z.of_nat (length buf) = width * height →
  ∃ img,
    for_each (seqZ 0 width) (λ img x,
      for_each (seqZ 0 height) (λ img y,
        c ← index buf (x + y * width); Ret (SetRGBA img x y c)) img)
      (NewRGBA (image_Rect 0 0 width height)) = Ret img
    ∧ Rect img = image_Rect 0 0 width height
    ∧ ∀ x y, 0 ≤ x < width → 0 ≤ y < height →
             RGBAAt img x y = nth (Z.to_nat (x + y * width)) buf zero.
Proof.
  intros Hw Hh Hlen.
  destruct (for_each_points (λ _, True)
    (λ im p, SetRGBA im p.1 p.2 (nth (Z.to_nat (p.1 + p.2 * width)) buf zero))
    (seqZ 0 width) (seqZ 0 height)
    (λ img x y, c ← index buf (x + y * width); Ret (SetRGBA img x y c))
    (NewRGBA (image_Rect 0 0 width height))) as [Hrun _]; [done| |].
  { intros img x y _ Hx%elem_of_seqZ Hy%elem_of_seqZ. split; [|done].
    cbv beta.
    rewrite (index_Ret _ _ (nth (Z.to_nat (x + y * width)) buf zero)); [done|nia|].
    destruct (nth_lookup_or_length buf (Z.to_nat (x + y * width)) zero);
      [done|nia]. }
  eexists. split; [exact Hrun|]. rewrite foldl_SetRGBA_Rect.
  split; [done|]. intros x y Hx Hy.
  by rewrite (RGBAAt_filled
    (λ p, nth (Z.to_nat (p.1 + p.2 * width)) buf zero)).
Qed.

Lemma PixmapToImage_decoded xu pix width height data :
  0 ≤ width ≤ 65535 → 0 ≤ height ≤ 65535 →
  RawGeometry xu pix = (Some (width, height), None) →
  GetImage xu ImageFormatZPixmap pix 0 0 width height (2 ^ 32 - 1)
    = (Some data, None) →
  Z.of_nat (length data) = 4 * width * height →
  ∃ img,
    PixmapToImage xu pix = Ret (Some img, None)
    ∧ Rect img = image_Rect 0 0 width height
    ∧ ∀ x y, 0 ≤ x < width → 0 ≤ y < height →
        let j := x + y * width in
        RGBAAt img x y
        = {| cR := uint8 (nth (Z.to_nat (4 * j + 2)) data 0);
             cG := uint8 (nth (Z.to_nat (4 * j + 1)) data 0);
             cB := uint8 (nth (Z.to_nat (4 * j)) data 0);
             cA := 255 |}.
Proof.
  intros Hw Hh Hgeom Himage Hlen. unfold PixmapToImage.
  rewrite Hgeom. rewrite bool_decide_eq_false_2 by (by intros ?).
  unfold deref, make, mbind, Res_bind. cbv beta iota.
  assert (Hu16 : ∀ n, 0 ≤ n ≤ 65535 → uint16 n = n).
  { intros n Hn. unfold uint16. apply Z.mod_small. lia. }
  rewrite !Hu16, Himage by done.
  rewrite bool_decide_eq_false_2 by (by intros ?).
  destruct (Z.ltb_spec (width * height) 0) as [|_]; [nia|].
  set (colour := λ j,
    {| cR := uint8 (nth (Z.to_nat (4 * j + 2)) data 0);
       cG := uint8 (nth (Z.to_nat (4 * j + 1)) data 0);
       cB := uint8 (nth (Z.to_nat (4 * j)) data 0);
       cA := 255 |}).
  set (zero := {| cR := 0; cG := 0; cB := 0; cA := 0 |}).
  replace ((Z.of_nat (length data) + 3) / 4) with (width * height)
    by (rewrite Hlen; apply Z.div_unique with 3; lia).
  destruct (for_each_pure
    (λ buf : list RGBAColor, Z.of_nat (length buf) = width * height)
    (λ buf j, <[Z.to_nat j := colour j]> buf)
    (seqZ 0 (width * height)) (PixmapToImage_pixel data)
    (replicate (Z.to_nat (width * height)) zero)) as [Hbuf Hbuflen].
  { rewrite length_replicate. nia. }
  { intros buf j Hbuf Hj%elem_of_seqZ.
    rewrite PixmapToImage_pixel_stores by lia.
    split; [done|]. by rewrite length_insert. }
  rewrite Hbuf.
  destruct (buffer_to_image
    (foldl (λ buf j, <[Z.to_nat j := colour j]> buf)
           (replicate (Z.to_nat (width * height)) zero)
           (seqZ 0 (width * height))) zero width height)
    as (img & Himg & Hrect & Hpix); [lia..|done|].
  fold (@mbind Res _) in Himg. unfold mbind, Res_bind in Himg.
  rewrite Himg. exists img. split; [done|]. split; [done|].
  intros x y Hx Hy. cbv zeta. rewrite Hpix by done.
  set (j := x + y * width).
  assert (Hj : 0 ≤ j < width * height) by (unfold j; nia).
  apply nth_lookup_Some. apply (foldl_insert_lookup colour).
  - intros i Hi%elem_of_seqZ. rewrite length_replicate. lia.
  - apply elem_of_seqZ. lia.
Qed.

(** X12. [PixmapToImage] reads the data of the pixmap as rows of pixels
    of four bytes in the order blue, green, red: when the server gives
    the geometry width, height and 4 * width * height bytes, the image
    returned has that size and its pixel at (x, y) takes red from byte
    4 * j + 2, green from byte 4 * j + 1 and blue from byte 4 * j, for
    j = x + y * width, and is opaque; the fourth byte is not read. *)
Theorem PixmapToImage_reads_BGR xu pix width height data :
  0 ≤ width ≤ 65535 → 0 ≤ height ≤ 65535 →
  RawGeometry xu pix = (Some (width, height), None) →
  GetImage xu ImageFormatZPixmap pix 0 0 width height (2 ^ 32 - 1)
    = (Some data, None) →
  Z.of_nat (length data) = 4 * width * height →
  ∃ img,
    PixmapToImage xu pix = Ret (Some img, None)
    ∧ Rect img = image_Rect 0 0 width height
    ∧ ∀ x y, 0 ≤ x < width → 0 ≤ y < height →
        let j := x + y * width in
        RGBAAt img x y
        = {| cR := uint8 (nth (Z.to_nat (4 * j + 2)) data 0);
             cG := uint8 (nth (Z.to_nat (4 * j + 1)) data 0);
             cB := uint8 (nth (Z.to_nat (4 * j)) data 0);
             cA := 255 |}.
Proof. apply PixmapToImage_decoded. Qed.

Lemma PixmapToImage_pixel_cases data (buf : list RGBAColor) j :
  (∃ buf', PixmapToImage_pixel data buf j = Ret buf'
           ∧ length buf' = length buf)
  ∨ PixmapToImage_pixel data buf j = Panic IndexOutOfRange.
Proof.
  unfold PixmapToImage_pixel, mbind, Res_bind.
  destruct (index_cases data (4 * j + 0)) as [[b ->]| ->]; [|by right].
  destruct (index_cases data (4 * j + 1)) as [[g ->]| ->]; [|by right].
  destruct (index_cases data (4 * j + 2)) as [[r ->]| ->]; [|by right].
  apply store_cases.
Qed.

(** X13. [PixmapToImage] panics on an index when the server gives more
    than 4 * width * height bytes for a pixmap of that geometry. *)
Theorem PixmapToImage_long_data_panics xu pix width height data :
  0 ≤ width ≤ 65535 → 0 ≤ height ≤ 65535 →
  RawGeometry xu pix = (Some (width, height), None) →
  GetImage xu ImageFormatZPixmap pix 0 0 width height (2 ^ 32 - 1)
    = (Some data, None) →
  4 * width * height < Z.of_nat (length data) →
  PixmapToImage xu pix = Panic IndexOutOfRange.
Proof.
  intros Hw Hh Hgeom Himage Hlen. unfold PixmapToImage.
  rewrite Hgeom. rewrite bool_decide_eq_false_2 by (by intros ?).
  unfold deref, make, mbind, Res_bind. cbv beta iota.
  assert (Hu16 : ∀ n, 0 ≤ n ≤ 65535 → uint16 n = n).
  { intros n Hn. unfold uint16. apply Z.mod_small. lia. }
  rewrite !Hu16, Himage by done.
  rewrite bool_decide_eq_false_2 by (by intros ?).
  destruct (Z.ltb_spec (width * height) 0) as [|_]; [nia|].
  rewrite (for_each_panics_inv
    (λ buf : list RGBAColor, Z.of_nat (length buf) = width * height)
    _ _ IndexOutOfRange (width * height)); [done| | | |].
  - rewrite length_replicate. nia.
  - apply elem_of_seqZ. split; [nia|].
    assert (width * height + 1 ≤ (Z.of_nat (length data) + 3) / 4)
      by (apply Z.div_le_lower_bound; lia).
    lia.
  - intros buf Hbuf.
    destruct (PixmapToImage_pixel_cases data buf (width * height))
      as [(buf' & Hrun & _)|Hrun]; [|done].
    exfalso. revert Hrun. unfold PixmapToImage_pixel, mbind, Res_bind.
    destruct (index data (4 * (width * height) + 0)); [|done].
    destruct (index data (4 * (width * height) + 1)); [|done].
    destruct (index data (4 * (width * height) + 2)); [|done].
    unfold store. by rewrite bool_decide_eq_false_2 by lia.
  - intros buf j Hbuf _.
    destruct (PixmapToImage_pixel_cases data buf j)
      as [(buf' & Hrun & Hlen')|Hrun]; [left|by right].
    exists buf'. split; [done|]. by rewrite Hlen'.
Qed.

(** X14. What [CreatePixmap] writes, [PixmapToImage] reads back: when the
    server returns, for a pixmap of the image's width and height, the
    bytes [CreatePixmap] built for the image, the pixel at (x, y) of the
    image [PixmapToImage] returns has the high bytes of the red, green
    and blue channels of the pixel at (x, y), and is opaque. *)
Theorem PixmapToImage_of_CreatePixmap_data xu pix img imgData :
  0 < (GetDim img).1 ≤ 65535 → 0 ≤ (GetDim img).2 ≤ 65535 →
  CreatePixmap_data img = Ret imgData →
  RawGeometry xu pix = (Some (GetDim img), None) →
  GetImage xu ImageFormatZPixmap pix 0 0 (GetDim img).1 (GetDim img).2
           (2 ^ 32 - 1) = (Some imgData, None) →
  ∃ out,
    PixmapToImage xu pix = Ret (Some out, None)
    ∧ ∀ x y, 0 ≤ x < (GetDim img).1 → 0 ≤ y < (GetDim img).2 →
        RGBAAt out x y
        = {| cR := byte (Z.shiftr (RGBA_r (At img x y)) 8);
             cG := byte (Z.shiftr (RGBA_g (At img x y)) 8);
             cB := byte (Z.shiftr (RGBA_b (At img x y)) 8);
             cA := 255 |}.
Proof.
  intros Hw Hh Hdata Hgeom Himage.
  destruct (CreatePixmap_data_bytes img Hw Hh) as (imgData' & Hdata' & Hlen & Hbytes).
  assert (imgData' = imgData) as -> by congruence.
  destruct (GetDim img) as [w h]. cbn [fst snd] in *.
  destruct (PixmapToImage_decoded xu pix w h imgData)
    as (out & Hrun & _ & Hpix); [lia..|done|done|lia|].
  exists out. split; [done|]. intros x y Hx Hy.
  rewrite Hpix by done. cbv zeta.
  assert (Hbyte : ∀ v, uint8 (byte v) = byte v).
  { intros v. unfold uint8, byte. apply Z.mod_mod. lia. }
  pose proof (Hbytes x y 0%nat Hx Hy ltac:(lia)) as H0.
  pose proof (Hbytes x y 1%nat Hx Hy ltac:(lia)) as H1.
  pose proof (Hbytes x y 2%nat Hx Hy ltac:(lia)) as H2.
  rewrite Z.add_0_r in H0. simpl in H0, H1, H2.
  rewrite (nth_lookup_Some _ _ _ _ H0), (nth_lookup_Some _ _ _ _ H1),
    (nth_lookup_Some _ _ _ _ H2).
  by rewrite !Hbyte.
Qed.

(** ** BitmapToImage *)

Lemma whiteOrBlack_testbit b :
  whiteOrBlack b = if Z.testbit b 0 then 255 else 0.
Proof.
  unfold whiteOrBlack. rewrite Z.land_ones with (n := 1) by lia.
  change (2 ^ 1) with 2. rewrite <- Z.bit0_mod.
  by destruct (Z.testbit b 0).
Qed.

Lemma bitmap_alpha_testbit data j :
  0 ≤ j →
  bitmap_alpha data j
  = if Z.testbit (nth (Z.to_nat (j / 8)) data 0) (j mod 8) then 255 else 0.
Proof.
  intros Hj. unfold bitmap_alpha.
  rewrite whiteOrBlack_testbit, Z.shiftr_spec, Z.add_0_l by lia. done.
Qed.

Lemma uint8_shiftr_byte b k :
  0 ≤ b < 256 → 0 ≤ k →
  uint8 (Z.shiftr (Z.shiftr b k) 1) = Z.shiftr b (k + 1)
  ∧ 0 ≤ Z.shiftr b (k + 1) < 256.
Proof.
  intros Hb Hk. rewrite Z.shiftr_shiftr by lia.
  assert (0 ≤ Z.shiftr b (k + 1) < 256).
  { rewrite Z.shiftr_div_pow2 by lia. split; [apply Z.div_pos; lia|].
    apply Z.div_lt_upper_bound; [lia|].
    assert (1 ≤ 2 ^ (k + 1)) by (apply Z.pow_le_mono_r with (b := 0); lia).
    nia. }
  split; [|done]. unfold uint8. apply Z.mod_small. lia.
Qed.

Lemma bitmap_index_div_mod i k :
  0 ≤ k < 8 → (i * 8 + k) / 8 = i ∧ (i * 8 + k) mod 8 = k.
Proof.
  intros Hk. split.
  - symmetry. apply Z.div_unique with k; lia.
  - symmetry. apply Z.mod_unique with i; lia.
Qed.

(** One byte of the bitmap fills its eight indices. *)
Lemma BitmapToImage_byte_stores data (buf : list Z) i :
  0 ≤ i < Z.of_nat (length data) →
  i * 8 + 7 < Z.of_nat (length buf) →
  0 ≤ nth (Z.to_nat i) data 0 < 256 →
  BitmapToImage_byte data buf i
  = Ret (foldl (λ l p, <[Z.to_nat p := bitmap_alpha data p]> l) buf
               (bitmap_indices i)).
Proof.
  intros Hi Hbuf Hbyte. unfold BitmapToImage_byte.
  rewrite index_nth by lia. unfold mbind at 1, Res_bind at 1.
  set (b := nth (Z.to_nat i) data 0) in *.
  destruct (for_each_pure
    (λ st : list Z * Z, length st.1 = length buf)
    (λ st k, (<[Z.to_nat (i * 8 + k) := whiteOrBlack st.2]> st.1,
              uint8 (Z.shiftr st.2 1)))
    (seqZ 0 8)
    (λ (st : list Z * Z) k,
       let '(buf, b) := st in
       buf ← store buf (i * 8 + k) (whiteOrBlack b);
       Ret (buf, uint8 (Z.shiftr b 1)))
    (buf, b)) as [Hrun _].
  { done. }
  { intros [buf' b'] k Hlen Hk%elem_of_seqZ.
    cbn [fst snd] in *. rewrite store_Ret by lia.
    split; [done|]. cbn [fst snd]. by rewrite length_insert. }
  rewrite Hrun. unfold mbind, Res_bind. f_equal.
  unfold bitmap_indices. change (seqZ 0 8) with [0; 1; 2; 3; 4; 5; 6; 7].
  cbn [foldl fmap list_fmap fst snd].
  assert (Hshift : ∀ k, 0 ≤ k →
    uint8 (Z.shiftr (Z.shiftr b k) 1) = Z.shiftr b (k + 1)).
  { intros k Hk. by apply uint8_shiftr_byte. }
  rewrite <- (Z.shiftr_0_r b) at 1 2 3 4 5 6 7.
  rewrite !Hshift by lia. simpl Z.add.
  assert (Halpha : ∀ k, 0 ≤ k < 8 →
    bitmap_alpha data (i * 8 + k) = whiteOrBlack (Z.shiftr b k)).
  { intros k Hk. unfold bitmap_alpha.
    by destruct (bitmap_index_div_mod i k Hk) as [-> ->]. }
  rewrite !Halpha by lia. by rewrite Z.shiftr_0_r.
Qed.

Lemma foldl_insert_lookup_other {A} (f : Z → A) js : ∀ (l : list A) (n : nat),
  (∀ i, i ∈ js → 0 ≤ i) →
  Z.of_nat n ∉ js →
  foldl (λ l i, <[Z.to_nat i := f i]> l) l js !! n = l !! n.
Proof.
  induction js as [|i js IH]; intros l n Hjs Hn; [done|].
  cbn [foldl]. rewrite IH.
  - apply list_lookup_insert_ne. intros <-. apply Hn.
    rewrite Z2Nat.id by (apply Hjs; by left). by left.
  - intros i' Hi'. apply Hjs. by right.
  - intros Hin. apply Hn. by right.
Qed.

Lemma foldl_bind {S A B} (g : S → B → S) (k : A → list B) xs s :
  foldl (λ s x, foldl g s (k x)) s xs = foldl g s (xs ≫= k).
Proof.
  revert s. induction xs as [|x xs IH]; intros s; [done|].
  csimpl. rewrite foldl_app. apply IH.
Qed.

Lemma elem_of_bitmap_indices n j :
  0 ≤ n →
  j ∈ seqZ 0 n ≫= bitmap_indices ↔ 0 ≤ j < 8 * n.
Proof.
  intros Hn. rewrite list_elem_of_bind. unfold bitmap_indices. split.
  - intros (i & (k & -> & Hk%elem_of_seqZ)%list_elem_of_fmap & Hi%elem_of_seqZ).
    lia.
  - intros Hj. exists (j / 8). split.
    + apply list_elem_of_fmap. exists (j mod 8). split.
      * rewrite (Z.div_mod j 8) at 1 by lia. lia.
      * apply elem_of_seqZ. pose proof (Z.mod_pos_bound j 8). lia.
    + apply elem_of_seqZ. split; [apply Z.div_pos; lia|].
      apply Z.div_lt_upper_bound; lia.
Qed.

(** The second half of [BitmapToImage]: the image of a buffer of width *
    height alphas. *)
Lemma alpha_buffer_to_image (buf : list Z) width height :
  0 ≤ width → 0 ≤ height →
  Z.of_nat (length buf) = width * height →
  ∃ img,
    for_each (seqZ 0 width) (λ img x,
      for_each (seqZ 0 height) (λ img y,
        a ← index buf (x + y * width); Ret (Set_Alpha img x y a)) img)
      (NewRGBA (image_Rect 0 0 width height)) = Ret img
    ∧ Rect img = image_Rect 0 0 width height
    ∧ ∀ x y, 0 ≤ x < width → 0 ≤ y < height →
        let a := nth (Z.to_nat (x + y * width)) buf 0 in
        RGBAAt img x y = {| cR := a; cG := a; cB := a; cA := a |}.
Proof.
  intros Hw Hh Hlen.
  set (colour := λ p : Z * Z,
    let a := nth (Z.to_nat (p.1 + p.2 * width)) buf 0 in
    {| cR := a; cG := a; cB := a; cA := a |}).
  destruct (for_each_points (λ _, True)
    (λ im p, SetRGBA im p.1 p.2 (colour p))
    (seqZ 0 width) (seqZ 0 height)
    (λ img x y, a ← index buf (x + y * width); Ret (Set_Alpha img x y a))
    (NewRGBA (image_Rect 0 0 width height))) as [Hrun _]; [done| |].
  { intros img x y _ Hx%elem_of_seqZ Hy%elem_of_seqZ. split; [|done].
    cbv beta. by rewrite index_nth by nia. }
  eexists. split; [exact Hrun|]. rewrite foldl_SetRGBA_Rect.
  split; [done|]. intros x y Hx Hy. by rewrite (RGBAAt_filled colour).
Qed.

Lemma BitmapToImage_decoded xu pix width height data :
  0 ≤ width ≤ 65535 → 0 ≤ height ≤ 65535 →
  RawGeometry xu pix = (Some (width, height), None) →
  GetImage xu ImageFormatXYPixmap pix 0 0 width height (2 ^ 32 - 1)
    = (Some data, None) →
  Forall (λ b, 0 ≤ b < 256) data →
  8 * Z.of_nat (length data) ≤ width * height →
  ∃ img,
    BitmapToImage xu pix = Ret (Some img, None)
    ∧ Rect img = image_Rect 0 0 width height
    ∧ ∀ x y, 0 ≤ x < width → 0 ≤ y < height →
        let j := x + y * width in
        let a := if bool_decide (j < 8 * Z.of_nat (length data))
                 then bitmap_alpha data j else 0 in
        RGBAAt img x y = {| cR := a; cG := a; cB := a; cA := a |}.
Proof.
  intros Hw Hh Hgeom Himage Hbytes Hlen. unfold BitmapToImage.
  rewrite Hgeom. rewrite bool_decide_eq_false_2 by (by intros ?).
  unfold deref, make, mbind, Res_bind. cbv beta iota.
  assert (Hu16 : ∀ n, 0 ≤ n ≤ 65535 → uint16 n = n).
  { intros n Hn. unfold uint16. apply Z.mod_small. lia. }
  rewrite !Hu16, Himage by done.
  rewrite bool_decide_eq_false_2 by (by intros ?).
  destruct (Z.ltb_spec (width * height) 0) as [|_]; [nia|].
  destruct (for_each_pure
    (λ buf : list Z, Z.of_nat (length buf) = width * height)
    (λ buf i, foldl (λ l p, <[Z.to_nat p := bitmap_alpha data p]> l) buf
                    (bitmap_indices i))
    (seqZ 0 (Z.of_nat (length data))) (BitmapToImage_byte data)
    (replicate (Z.to_nat (width * height)) 0)) as [Hbuf Hbuflen].
  { rewrite length_replicate. nia. }
  { intros buf i Hbuf Hi%elem_of_seqZ.
    rewrite BitmapToImage_byte_stores; [|lia..|].
    - split; [done|]. by rewrite foldl_insert_length.
    - rewrite Forall_forall in Hbytes. apply Hbytes.
      apply (list_elem_of_lookup_2 _ (Z.to_nat i)).
      destruct (nth_lookup_or_length data (Z.to_nat i) 0); [done|lia]. }
  rewrite Hbuf.
  destruct (alpha_buffer_to_image _ width height ltac:(lia) ltac:(lia) Hbuflen)
    as (img & Himg & Hrect & Hpix).
  unfold mbind, Res_bind in Himg.
  rewrite Himg. exists img. split; [done|]. split; [done|].
  intros x y Hx Hy. cbv zeta. rewrite Hpix by done. cbv zeta.
  rewrite foldl_bind.
  set (j := x + y * width).
  assert (Hj : 0 ≤ j < width * height) by (unfold j; nia).
  assert (Hindices : ∀ p,
    p ∈ seqZ 0 (Z.of_nat (length data)) ≫= bitmap_indices →
    0 ≤ p < 8 * Z.of_nat (length data))
    by (intros p Hp; apply elem_of_bitmap_indices in Hp; lia).
  case_bool_decide as Hin.
  - rewrite (nth_lookup_Some _ _ _ (bitmap_alpha data j)); [done|].
    apply (foldl_insert_lookup (bitmap_alpha data)).
    + intros p Hp%Hindices. rewrite length_replicate. lia.
    + apply elem_of_bitmap_indices; lia.
  - rewrite (nth_lookup_Some _ _ _ 0); [done|].
    rewrite foldl_insert_lookup_other.
    + apply lookup_replicate_2. lia.
    + intros p Hp%Hindices. lia.
    + rewrite Z2Nat.id by lia. intros Hp%Hindices. lia.
Qed.

(** X15. [BitmapToImage] reads the data of the bitmap a bit a pixel, the
    low bit of each byte first: when the server gives the geometry
    width, height and bytes for at most width * height pixels, the pixel
    at (x, y) of the image returned has, for j = x + y * width, all four
    channels at 255 when bit j mod 8 of byte j / 8 is set, and at 0 when
    it is clear or the data has no such byte. *)
Theorem BitmapToImage_reads_bits xu pix width height data :
  0 ≤ width ≤ 65535 → 0 ≤ height ≤ 65535 →
  RawGeometry xu pix = (Some (width, height), None) →
  GetImage xu ImageFormatXYPixmap pix 0 0 width height (2 ^ 32 - 1)
    = (Some data, None) →
  Forall (λ b, 0 ≤ b < 256) data →
  8 * Z.of_nat (length data) ≤ width * height →
  ∃ img,
    BitmapToImage xu pix = Ret (Some img, None)
    ∧ Rect img = image_Rect 0 0 width height
    ∧ ∀ x y, 0 ≤ x < width → 0 ≤ y < height →
        let j := x + y * width in
        let a := if bool_decide (j < 8 * Z.of_nat (length data))
                    && Z.testbit (nth (Z.to_nat (j / 8)) data 0) (j mod 8)
                 then 255 else 0 in
        RGBAAt img x y = {| cR := a; cG := a; cB := a; cA := a |}.
Proof.
  intros Hw Hh Hgeom Himage Hbytes Hlen.
  destruct (BitmapToImage_decoded xu pix width height data)
    as (img & Hrun & Hrect & Hpix); [done..|].
  exists img. split; [done|]. split; [done|].
  intros x y Hx Hy. cbv zeta. rewrite Hpix by done. cbv zeta.
  case_bool_decide; [|done].
  rewrite bitmap_alpha_testbit by nia. simpl.
  by destruct (Z.testbit _ _).
Qed.

(** A loop whose body returns, keeping an invariant, or panics with [p]
    does the same. *)
Lemma for_each_cases {S A} (Inv : S → Prop) (xs : list A)
    (body : S → A → Res S) p s :
  Inv s →
  (∀ s y, Inv s → y ∈ xs →
          (∃ s', body s y = Ret s' ∧ Inv s') ∨ body s y = Panic p) →
  (∃ s', for_each xs body s = Ret s' ∧ Inv s') ∨ for_each xs body s = Panic p.
Proof.
  revert s. induction xs as [|y xs IH]; intros s Hs Hbody; [left; eauto|].
  simpl. destruct (Hbody s y Hs) as [(s' & Hy & Hs')|Hy];
    [left| |right; by rewrite Hy].
  rewrite Hy, Res_bind_Ret. apply IH; [done|].
  intros s'' z Hs'' Hz. apply Hbody; [done|by right].
Qed.

Lemma BitmapToImage_bit_cases (n : nat) i (st : list Z * Z) k :
  length st.1 = n →
  (∃ st', (let '(buf, b) := st in
           buf ← store buf (i * 8 + k) (whiteOrBlack b);
           Ret (buf, uint8 (Z.shiftr b 1))) = Ret st'
          ∧ length st'.1 = n)
  ∨ (let '(buf, b) := st in
     buf ← store buf (i * 8 + k) (whiteOrBlack b);
     Ret (buf, uint8 (Z.shiftr b 1))) = Panic IndexOutOfRange.
Proof.
  destruct st as [buf b]. intros Hlen. cbn [fst] in Hlen.
  destruct (store_cases buf (i * 8 + k) (whiteOrBlack b))
    as [(buf' & -> & Hlen')| ->]; [left|by right].
  eexists. split; [done|]. simpl. congruence.
Qed.

Lemma BitmapToImage_byte_cases data (buf : list Z) i :
  (∃ buf', BitmapToImage_byte data buf i = Ret buf'
           ∧ length buf' = length buf)
  ∨ BitmapToImage_byte data buf i = Panic IndexOutOfRange.
Proof.
  unfold BitmapToImage_byte.
  destruct (index_cases data i) as [[b ->]| ->]; [|by right].
  rewrite Res_bind_Ret.
  destruct (for_each_cases (λ st : list Z * Z, length st.1 = length buf)
    (seqZ 0 8)
    (λ (st : list Z * Z) k,
       let '(buf, b) := st in
       buf ← store buf (i * 8 + k) (whiteOrBlack b);
       Ret (buf, uint8 (Z.shiftr b 1)))
    IndexOutOfRange (buf, b)) as [(st' & -> & Hlen)| ->]; [done| | |by right].
  - intros st k Hst _. by apply BitmapToImage_bit_cases.
  - left. by exists st'.1.
Qed.

(** X16. [BitmapToImage] panics on an index when the server gives bytes
    for more than width * height pixels. *)
Theorem BitmapToImage_long_data_panics xu pix width height data :
  0 ≤ width ≤ 65535 → 0 ≤ height ≤ 65535 →
  RawGeometry xu pix = (Some (width, height), None) →
  GetImage xu ImageFormatXYPixmap pix 0 0 width height (2 ^ 32 - 1)
    = (Some data, None) →
  width * height < 8 * Z.of_nat (length data) →
  BitmapToImage xu pix = Panic IndexOutOfRange.
Proof.
  intros Hw Hh Hgeom Himage Hlen. unfold BitmapToImage.
  rewrite Hgeom. rewrite bool_decide_eq_false_2 by (by intros ?).
  unfold deref, make, mbind, Res_bind. cbv beta iota.
  assert (Hu16 : ∀ n, 0 ≤ n ≤ 65535 → uint16 n = n).
  { intros n Hn. unfold uint16. apply Z.mod_small. lia. }
  rewrite !Hu16, Himage by done.
  rewrite bool_decide_eq_false_2 by (by intros ?).
  destruct (Z.ltb_spec (width * height) 0) as [|_]; [nia|].
  assert (Hi0 : 0 ≤ width * height / 8 < Z.of_nat (length data)).
  { split; [apply Z.div_pos; nia|]. apply Z.div_lt_upper_bound; lia. }
  assert (Hlast : width * height ≤ width * height / 8 * 8 + 7).
  { pose proof (Z.div_mod (width * height) 8).
    pose proof (Z.mod_pos_bound (width * height) 8). lia. }
  rewrite (for_each_panics_inv
    (λ buf : list Z, Z.of_nat (length buf) = width * height)
    _ _ IndexOutOfRange (width * height / 8)); [done| | | |].
  - rewrite length_replicate. nia.
  - apply elem_of_seqZ. lia.
  - intros buf Hbuf. unfold BitmapToImage_byte.
    rewrite index_nth by lia. rewrite Res_bind_Ret.
    rewrite (for_each_panics_inv
      (λ st : list Z * Z, Z.of_nat (length st.1) = width * height)
      _ _ IndexOutOfRange 7); [done|done| | |].
    + by apply elem_of_seqZ.
    + intros [buf' b'] Hbuf'. cbn [fst] in Hbuf'.
      unfold store. by rewrite bool_decide_eq_false_2 by lia.
    + intros st k Hst _.
      destruct (BitmapToImage_bit_cases (length st.1) (width * height / 8) st k)
        as [(st' & Hrun & Hlen')|Hrun]; [done|left|by right].
      exists st'. split; [done|]. by rewrite Hlen'.
  - intros buf i Hbuf _.
    destruct (BitmapToImage_byte_cases data buf i)
      as [(buf' & Hrun & Hlen')|Hrun]; [left|by right].
    exists buf'. split; [done|]. by rewrite Hlen'.
Qed.

(** * keybind, further *)

Section MoreBindings.
Context `{!GoStrings, !SymbolTables}.

Lemma Split_nonempty s sep : Split s sep ≠ [].
Proof.
  destruct s as [|c s]; simpl; [done|].
  case_bool_decide; [done|]. by destruct (Split s sep).
Qed.

Lemma Split_app s1 s2 sep :
  Split (s1 +:+ String sep s2) sep = Split s1 sep ++ Split s2 sep.
Proof.
  induction s1 as [|c s1 IH]; simpl.
  - by rewrite bool_decide_eq_true_2.
  - rewrite IH. case_bool_decide; [done|].
    pose proof (Split_nonempty s1 sep). by destruct (Split s1 sep).
Qed.

Lemma mask_of_app parts1 parts2 :
  mask_of (parts1 ++ parts2) = Z.lor (mask_of parts1) (mask_of parts2).
Proof.
  induction parts1 as [|part parts1 IH]; [done|].
  rewrite <- app_comm_cons.
  destruct (modifier_bit (ToLower part)) as [bit|] eqn:Hbit.
  - rewrite !(mask_of_modifier _ _ bit), IH by done. apply Z.lor_assoc.
  - by rewrite !mask_of_key, IH by done.
Qed.

Lemma first_resolved_app xu parts1 parts2 :
  first_resolved_keycode xu (parts1 ++ parts2)
  = if first_resolved_keycode xu parts1 =? 0
    then first_resolved_keycode xu parts2
    else first_resolved_keycode xu parts1.
Proof.
  induction parts1 as [|part parts1 IH]; [done|].
  rewrite <- app_comm_cons.
  destruct (modifier_bit (ToLower part)) as [bit|] eqn:Hbit.
  - by rewrite !(first_resolved_modifier _ _ _ bit), IH by done.
  - rewrite !first_resolved_key, IH by done.
    by destruct (Z.eqb_spec (resolved xu part) 0) as [|Hne];
      [|destruct (Z.eqb_spec (resolved xu part) 0)].
Qed.

Lemma modifier_bit_known low bit :
  modifier_bit low = Some bit → Z.land bit 33023 = bit.
Proof.
  unfold modifier_bit.
  repeat (destruct (String.eqb _ _); [by intros [= <-]|]). done.
Qed.

Lemma mask_of_known parts : Z.land (mask_of parts) 33023 = mask_of parts.
Proof.
  induction parts as [|part parts IH]; [done|].
  destruct (modifier_bit (ToLower part)) as [bit|] eqn:Hbit.
  - rewrite (mask_of_modifier _ _ bit), Z.land_lor_distr_l, IH by done.
    by rewrite (modifier_bit_known _ _ Hbit).
  - by rewrite mask_of_key.
Qed.

Lemma resolved_in_range xu part :
  wf_keymap xu →
  resolved xu part = 0
  ∨ MinKeycode xu ≤ resolved xu part ≤ MaxKeycode xu.
Proof.
  intros Hwf. unfold resolved, lookupString.
  destruct (lookupString_sym part) as [sym|]; [|by left].
  destruct (keycodeGet_spec xu sym Hwf)
    as (kc & -> & [(Hrange & _)|[-> _]]); [by right|by left].
Qed.

Lemma first_resolved_in_range xu parts :
  wf_keymap xu →
  first_resolved_keycode xu parts = 0
  ∨ MinKeycode xu ≤ first_resolved_keycode xu parts ≤ MaxKeycode xu.
Proof.
  intros Hwf. induction parts as [|part parts IH]; [by left|].
  destruct (modifier_bit (ToLower part)) as [bit|] eqn:Hbit.
  - by rewrite (first_resolved_modifier _ _ _ bit).
  - rewrite first_resolved_key by done.
    destruct (Z.eqb_spec (resolved xu part) 0) as [|Hne]; [done|].
    destruct (resolved_in_range xu part Hwf) as [Hz|Hr]; [done|by right].
Qed.

(** X17. On a well-formed key map [ParseString] returns for every
    string: a mask made of the nine modifier bits only, and a keycode
    that is 0 or a keycode of the server's range; the warning is logged
    exactly when the keycode is 0. *)
Theorem ParseString_always_returns xu str :
  wf_keymap xu →
  ∃ log mods kc,
    ParseString xu str = (log, Ret (mods, kc))
    ∧ Z.land mods (Z.lor 255 ModMaskAny) = mods
    ∧ (kc = 0 ∨ MinKeycode xu ≤ kc ≤ MaxKeycode xu)
    ∧ (kc = 0 → log = [Logged (ParseString_warning str)])
    ∧ (kc ≠ 0 → log = []).
Proof.
  intros Hwf. rewrite ParseString_result by done.
  eexists _, _, _. split; [done|]. split_and!.
  - apply mask_of_known.
  - by apply first_resolved_in_range.
  - by intros ->.
  - intros Hne. by destruct (Z.eqb_spec (first_resolved_keycode xu
                                            (Split str "-"%char)) 0).
Qed.

(** X18. Bindings compose at the hyphen: on a well-formed key map the
    mask of [s1-s2] is the OR of the masks of [s1] and of [s2], and its
    keycode is the keycode of [s1] unless that is 0, and then the keycode
    of [s2]; so the mask does not depend on the order of the two. *)
Theorem ParseString_joins_at_hyphen xu s1 s2 :
  wf_keymap xu →
  ∃ log1 mods1 kc1 log2 mods2 kc2 log log',
    ParseString xu s1 = (log1, Ret (mods1, kc1))
    ∧ ParseString xu s2 = (log2, Ret (mods2, kc2))
    ∧ ParseString xu (s1 +:+ String "-"%char s2)
      = (log, Ret (Z.lor mods1 mods2, if kc1 =? 0 then kc2 else kc1))
    ∧ ParseString xu (s2 +:+ String "-"%char s1)
      = (log', Ret (Z.lor mods1 mods2, if kc2 =? 0 then kc1 else kc2)).
Proof.
  intros Hwf. rewrite !ParseString_result, !Split_app by done.
  rewrite !mask_of_app, !first_resolved_app.
  rewrite (Z.lor_comm (mask_of (Split s2 "-"%char))).
  by eexists _, _, _, _, _, _, _, _.
Qed.

End MoreBindings.

(** X19. On a well-formed modifier map of at most 255 slots, [modGet] of
    the keycode of any slot returns the mask of one of the eight
    modifiers, never 0 and never Any: that of the first row that holds
    the keycode, which is the row of the slot or one before it. *)
Theorem modGet_of_slot xu i keycode :
  wf_modmap xu →
  Z.of_nat (length (Keycodes (ModMapGet xu))) ≤ 255 →
  Keycodes (ModMapGet xu) !! i = Some keycode →
  ∃ r row,
    (∀ fuel, (length (Keycodes (ModMapGet xu)) < fuel)%nat →
             modGet fuel xu keycode = Some (Ret r))
    ∧ 0 ≤ row ≤ Z.of_nat i / KeycodesPerModifier (ModMapGet xu)
    ∧ row < 8
    ∧ modifiers !! Z.to_nat row = Some r
    ∧ r ≠ 0 ∧ r ≠ ModMaskAny
    ∧ keycode ∈ row_slots xu row
    ∧ ∀ row', 0 ≤ row' < row → keycode ∉ row_slots xu row'.
Proof.
  intros Hwf Hlen Hslot.
  pose proof (lookup_lt_Some _ _ _ Hslot) as Hi.
  destruct Hwf as [Hper Hslots].
  assert (Hwf : wf_modmap xu) by (by split).
  destruct (modGet_small_table xu keycode Hwf Hlen)
    as (r & Hrun & [(i0 & (Hi0 & Hk0 & Hfirst) & Hrow & Hnz)|[_ Hno]]).
  2: { exfalso. apply Hno. by eapply list_elem_of_lookup_2. }
  pose proof (lookup_lt_Some _ _ _ Hk0) as Hi0len.
  set (kpm := KeycodesPerModifier (ModMapGet xu)) in *.
  assert (Hkpm : 0 < kpm) by lia.
  assert (Hle : i0 ≤ Z.of_nat i).
  { destruct (decide (i0 ≤ Z.of_nat i)) as [|Hgt]; [done|].
    exfalso. apply (Hfirst (Z.of_nat i) keycode); [lia| |done].
    by rewrite Nat2Z.id. }
  assert (Hrow8 : 0 ≤ i0 / kpm < 8).
  { split; [apply Z.div_pos; lia|]. apply Z.div_lt_upper_bound; lia. }
  exists r, (i0 / kpm). split_and!; [done|lia| |lia| | | | |].
  - by apply Z.div_le_mono.
  - unfold index in Hrow. rewrite bool_decide_eq_true_2 in Hrow by lia.
    by destruct (modifiers !! Z.to_nat (i0 / kpm)) eqn:Hm; [injection Hrow as ->|].
  - done.
  - intros ->.
    assert (Hcases : i0 / kpm = 0 ∨ i0 / kpm = 1 ∨ i0 / kpm = 2 ∨ i0 / kpm = 3
                     ∨ i0 / kpm = 4 ∨ i0 / kpm = 5 ∨ i0 / kpm = 6
                     ∨ i0 / kpm = 7) by lia.
    destruct_or! Hcases; rewrite Hcases in Hrow; by vm_compute in Hrow.
  - unfold row_slots. fold kpm.
    apply (list_elem_of_lookup_2 _ (Z.to_nat (i0 - i0 / kpm * kpm))).
    pose proof (Z.div_mod i0 kpm ltac:(lia)).
    pose proof (Z.mod_pos_bound i0 kpm ltac:(lia)).
    rewrite lookup_take_lt by lia. rewrite lookup_drop.
    rewrite <- Hk0. f_equal. lia.
  - intros row' Hrow' Hin. unfold row_slots in Hin. fold kpm in Hin.
    apply list_elem_of_lookup_1 in Hin as [n Hn].
    apply lookup_take_Some in Hn as [Hn Hnlt]. rewrite lookup_drop in Hn.
    apply (Hfirst (row' * kpm + Z.of_nat n) keycode); [|  |done].
    + pose proof (Z.div_mod i0 kpm ltac:(lia)).
      pose proof (Z.mod_pos_bound i0 kpm ltac:(lia)). nia.
    + rewrite <- Hn. f_equal. lia.
Qed.

(** X20. [Grab] sends one [GrabKey] request for each entry of
    [IgnoreMods], in order, all for the window and the key given, and
    the mask of each holds every bit of [mods] beside the bits of its
    entry. *)
Theorem Grab_masks_hold_mods IgnoreMods win mods key :
  length (Grab IgnoreMods win mods key) = length IgnoreMods
  ∧ ∀ (n : nat) m, IgnoreMods !! n = Some m →
      ∃ mask,
        Grab IgnoreMods win mods key !! n
        = Some (GrabKeyReq true win mask key GrabModeAsync GrabModeAsync)
        ∧ Z.land mask mods = mods
        ∧ Z.land mask m = m
        ∧ Z.land mask (Z.lnot (Z.lor mods m)) = 0.
Proof.
  unfold Grab.
  assert (Hmap : ∀ sent,
    foldl (λ sent m, sent ++ [GrabKeyReq true win (Z.lor mods m) key
                                         GrabModeAsync GrabModeAsync])
          sent IgnoreMods
    = sent ++ ((λ m, GrabKeyReq true win (Z.lor mods m) key
                                GrabModeAsync GrabModeAsync) <$> IgnoreMods)).
  { induction IgnoreMods as [|m ms IH]; intros sent; simpl.
    - by rewrite app_nil_r.
    - by rewrite IH, <- app_assoc. }
  rewrite Hmap, app_nil_l. split; [by rewrite length_fmap|].
  intros n m Hm. exists (Z.lor mods m). rewrite list_lookup_fmap, Hm.
  split_and!; [done| | |].
  - apply Z.bits_inj'. intros k _. rewrite Z.land_spec, Z.lor_spec.
    by destruct (Z.testbit mods k), (Z.testbit m k).
  - apply Z.bits_inj'. intros k _. rewrite Z.land_spec, Z.lor_spec.
    by destruct (Z.testbit mods k), (Z.testbit m k).
  - apply Z.land_lnot_diag.
Qed.

(** X21. When the request for the modifier mapping alone fails,
    the panic of [mapsGet] does not tell why: its message prints the
    error of the request for the keyboard mapping, which is nil, whatever
    the error of the modifier request is. *)
Theorem mapsGet_modifier_error_not_reported xu newKeymap newModmap err :
  GetKeyboardMapping xu (MinKeycode xu)
    (byte (MaxKeycode xu - MinKeycode xu + 1)) = (newKeymap, None) →
  GetModifierMapping xu = (newModmap, Some err) →
  mapsGet xu
  = Panic (Explicit ("COULD NOT GET MODIFIER MAPPING: <nil>" +:+ newline
                     +:+ "THIS IS AN UNRECOVERABLE ERROR." +:+ newline)).
Proof.
  intros Hkey Hmod. unfold mapsGet, minMaxKeycodeGet. rewrite Hkey, Hmod.
  rewrite bool_decide_eq_false_2 by (by intros Hne; apply Hne).
  by rewrite bool_decide_eq_true_2.
Qed.

(** * The theorems at sample data *)

(** X1 at three icons. *)
Lemma FindBestIcon_nil_iff_no_icons_witness :
  sample_icons ≠ []
  ∧ ∃ best icon, FindBestIcon 48 48 sample_icons = Ret (Some best)
                 ∧ 0 ≤ best
                 ∧ sample_icons !! Z.to_nat best = Some icon.
Proof.
  assert (Hne : sample_icons ≠ []) by discriminate.
  split; [exact Hne|].
  exact (proj2 (FindBestIcon_nil_iff_no_icons 48 48 sample_icons) Hne).
Defined.

Lemma sample_icons_fit : icon_sizes_fit sample_icons.
Proof.
  intros icon Hin. unfold sample_icons in Hin.
  repeat (apply elem_of_cons in Hin as [->|Hin]; [simpl; lia|]).
  by apply elem_of_nil in Hin.
Qed.

Lemma sample_icons_index j :
  0 ≤ j < Z.of_nat (length sample_icons) → j = 0 ∨ j = 1 ∨ j = 2.
Proof. simpl. lia. Qed.

(** X2 at three icons, none of 100 by 100 pixels: the one of 64 by 64
    is the best. *)
Lemma FindBestIcon_biggest_when_none_reaches_witness :
  ∃ best, FindBestIcon 100 100 sample_icons = Ret (Some best)
          ∧ 0 ≤ best < 3
          ∧ ∀ j, 0 ≤ j < 3 →
                 icon_area sample_icons j ≤ icon_area sample_icons best
                 ∧ (icon_area sample_icons j = icon_area sample_icons best
                    → best ≤ j).
Proof.
  apply (FindBestIcon_biggest_when_none_reaches 100 100 sample_icons
           sample_icons_fit); [lia|lia|discriminate|].
  intros j Hj.
  destruct (sample_icons_index j Hj) as [->|[->| ->]]; vm_compute; reflexivity.
Defined.

(** X3 at three icons, two of them of 20 by 20 pixels or more. *)
Lemma FindBestIcon_smallest_that_reaches_witness :
  ∃ best, FindBestIcon 20 20 sample_icons = Ret (Some best)
          ∧ 0 ≤ best < 3
          ∧ 20 * 20 ≤ icon_area sample_icons best
          ∧ ∀ j, 0 ≤ j < 3 →
                 20 * 20 ≤ icon_area sample_icons j →
                 icon_area sample_icons best ≤ icon_area sample_icons j
                 ∧ (icon_area sample_icons j = icon_area sample_icons best
                    → j ≤ best).
Proof.
  apply (FindBestIcon_smallest_that_reaches 20 20 sample_icons 2
           sample_icons_fit); [lia|lia|simpl; lia|].
  vm_compute. discriminate.
Defined.

(** X4 at an icon of two by two pixels. *)
Lemma EwmhIconToImage_pixels_witness :
  ∃ img mask,
    EwmhIconToImage sample_icon = Ret (img, mask)
    ∧ Rect img = image_Rect 0 0 2 2
    ∧ Rect mask = image_Rect 0 0 2 2
    ∧ ∀ x y, 0 ≤ x < 2 → 0 ≤ y < 2 →
        ∃ argb,
          Data sample_icon !! Z.to_nat (x + y * 2) = Some argb
          ∧ RGBAAt img x y
            = {| cR := byte_of argb 2; cG := byte_of argb 1;
                 cB := byte_of argb 0; cA := 255 |}
          ∧ RGBAAt mask x y
            = {| cR := byte_of argb 3; cG := byte_of argb 3;
                 cB := byte_of argb 3; cA := byte_of argb 3 |}.
Proof.
  apply (EwmhIconToImage_pixels sample_icon); simpl; lia.
Defined.

(** X5 at an icon of two by two pixels with one word of data. *)
Lemma EwmhIconToImage_short_data_panics_witness :
  EwmhIconToImage short_icon = Panic IndexOutOfRange.
Proof.
  apply (EwmhIconToImage_short_data_panics short_icon); simpl; lia.
Defined.

(** X6 at a red and a blue pixel. *)
Lemma CreatePixmap_data_layout_witness :
  ∃ imgData,
    CreatePixmap_data sample_image = Ret imgData
    ∧ Z.of_nat (length imgData) = 2 * 1 * 4
    ∧ ∀ x y (k : nat), 0 ≤ x < 2 → 0 ≤ y < 1 → (k < 4)%nat →
        imgData !! Z.to_nat (4 * (x + y * 2) + Z.of_nat k)
        = BGRA_bytes (At sample_image x y) !! k.
Proof.
  apply (CreatePixmap_data_layout sample_image); simpl; lia.
Defined.

(** X7 at a red and a blue pixel, with requests of 2^16 blocks of 4
    bytes. *)
Lemma CreatePixmap_requests_fit_witness :
  ∃ reqs,
    CreatePixmap 262144 sample_display 7 sample_image = Ret (reqs, 7)
    ∧ ∀ data, data ∈ put_data reqs →
        Z.of_nat (length data) ≤ 262144 - 28
        ∧ ∃ rows, 0 ≤ rows ∧ Z.of_nat (length data) = rows * (2 * 4).
Proof.
  apply (CreatePixmap_requests_fit 262144 sample_display 7 sample_image);
    simpl; lia.
Defined.

(** X9 at a red and a blue pixel. *)
Lemma CreatePixmap_single_request_witness :
  ∃ imgData,
    CreatePixmap_data sample_image = Ret imgData
    ∧ CreatePixmap 262144 sample_display 7 sample_image
      = Ret ([ CreatePixmapReq 24 7 1 2 1;
               PutImageReq ImageFormatZPixmap 7 2 2 1 0 0 0 24 imgData ],
             7).
Proof.
  apply (CreatePixmap_single_request 262144 sample_display 7 sample_image);
    simpl; lia.
Defined.

(** X11 at an image of no width. *)
Lemma CreatePixmap_zero_width_panics_witness :
  CreatePixmap 262144 sample_display 7 (black_image 0 1)
  = Panic DivideByZero.
Proof.
  apply (CreatePixmap_zero_width_panics 262144 sample_display 7
           (black_image 0 1)); simpl; lia.
Defined.

(** X8 at an image of two by three pixels and requests of 44 bytes, of
    which 16 are data: two rows go out first, then the third. *)
Lemma CreatePixmap_requests_in_order_witness :
  ∃ imgData puts,
    CreatePixmap_data (black_image 2 3) = Ret imgData
    ∧ CreatePixmap 44 sample_display 7 (black_image 2 3)
      = Ret (CreatePixmapReq 24 7 1 2 3 :: puts, 7)
    ∧ Z.of_nat (length puts) = 2
    ∧ puts !! 1%nat
      = Some (PutImageReq ImageFormatZPixmap 7 2 2 1 0 2 0 24
                          (take 8 (drop 16 imgData))).
Proof.
  pose proof (CreatePixmap_requests_in_order 44 sample_display 7
                (black_image 2 3) ltac:(lia) ltac:(simpl; lia)
                ltac:(simpl; lia)) as H.
  cbv beta iota zeta delta [GetDim black_image Bounds MinX MinY MaxX MaxY] in H.
  destruct H as (imgData & puts & Hdata & Hrun & Hlen & _ & Hput).
  exists imgData, puts. split; [exact Hdata|]. split; [exact Hrun|].
  split; [exact Hlen|]. apply (Hput 1). vm_compute. by split.
Defined.

(** X10 at an image of 3840 by 2160 pixels and requests of 2^16 blocks
    of 4 bytes: 127 requests of 17 rows carry 2159 rows, one row short
    of the image. *)
Lemma CreatePixmap_rows_left_out_witness :
  ∃ imgData reqs,
    CreatePixmap_data (black_image 3840 2160) = Ret imgData
    ∧ CreatePixmap 262144 sample_display 7 (black_image 3840 2160)
      = Ret (reqs, 7)
    ∧ Z.of_nat (length (concat (put_data reqs))) = 4 * 3840 * 2159
    ∧ Z.of_nat (length imgData) = 4 * 3840 * 2160.
Proof.
  pose proof (CreatePixmap_rows_left_out 262144 sample_display 7
                (black_image 3840 2160) ltac:(lia) ltac:(simpl; lia)
                ltac:(simpl; lia)) as H.
  cbv beta iota zeta delta [GetDim black_image Bounds MinX MinY MaxX MaxY] in H.
  destruct H as (imgData & reqs & Hdata & Hrun & _ & Hsent & Hlen);
    [reflexivity|].
  exists imgData, reqs. split; [exact Hdata|]. split; [exact Hrun|].
  split; [exact Hsent|exact Hlen].
Defined.

(** X12 at the bytes of a red and a blue pixel. *)
Lemma PixmapToImage_reads_BGR_witness :
  ∃ img,
    PixmapToImage (sample_conn 2 1 [0; 0; 255; 255; 255; 0; 0; 255]) 5
    = Ret (Some img, None)
    ∧ Rect img = image_Rect 0 0 2 1
    ∧ RGBAAt img 0 0 = {| cR := 255; cG := 0; cB := 0; cA := 255 |}
    ∧ RGBAAt img 1 0 = {| cR := 0; cG := 0; cB := 255; cA := 255 |}.
Proof.
  destruct (PixmapToImage_reads_BGR
              (sample_conn 2 1 [0; 0; 255; 255; 255; 0; 0; 255]) 5 2 1
              [0; 0; 255; 255; 255; 0; 0; 255])
    as (img & Hrun & Hrect & Hpix); [lia|lia|reflexivity|reflexivity|
                                     reflexivity|].
  exists img. split; [exact Hrun|]. split; [exact Hrect|].
  split; [apply (Hpix 0 0); lia|apply (Hpix 1 0); lia].
Defined.

(** X13 at a pixmap of one pixel for which the server gives eight
    bytes. *)
Lemma PixmapToImage_long_data_panics_witness :
  PixmapToImage (sample_conn 1 1 [1; 2; 3; 4; 5; 6; 7; 8]) 5
  = Panic IndexOutOfRange.
Proof.
  apply (PixmapToImage_long_data_panics
           (sample_conn 1 1 [1; 2; 3; 4; 5; 6; 7; 8]) 5 1 1
           [1; 2; 3; 4; 5; 6; 7; 8]);
    [lia|lia|reflexivity|reflexivity|simpl; lia].
Defined.

(** X14 at a red and a blue pixel. *)
Lemma PixmapToImage_of_CreatePixmap_data_witness :
  CreatePixmap_data sample_image = Ret [0; 0; 255; 255; 255; 0; 0; 255]
  ∧ ∃ out,
      PixmapToImage (sample_conn 2 1 [0; 0; 255; 255; 255; 0; 0; 255]) 5
      = Ret (Some out, None)
      ∧ RGBAAt out 0 0 = {| cR := 255; cG := 0; cB := 0; cA := 255 |}
      ∧ RGBAAt out 1 0 = {| cR := 0; cG := 0; cB := 255; cA := 255 |}.
Proof.
  assert (Hdata : CreatePixmap_data sample_image
                  = Ret [0; 0; 255; 255; 255; 0; 0; 255]) by reflexivity.
  split; [exact Hdata|].
  destruct (PixmapToImage_of_CreatePixmap_data
              (sample_conn 2 1 [0; 0; 255; 255; 255; 0; 0; 255]) 5
              sample_image [0; 0; 255; 255; 255; 0; 0; 255])
    as (out & Hrun & Hpix);
    [simpl; lia|simpl; lia|exact Hdata|reflexivity|reflexivity|].
  exists out. split; [exact Hrun|].
  split; [apply (Hpix 0 0); simpl; lia|apply (Hpix 1 0); simpl; lia].
Defined.

(** X15 at a bitmap of four by two pixels in one byte, 10100101 in
    binary. *)
Lemma BitmapToImage_reads_bits_witness :
  ∃ img,
    BitmapToImage (sample_conn 4 2 [165]) 5 = Ret (Some img, None)
    ∧ Rect img = image_Rect 0 0 4 2
    ∧ RGBAAt img 0 0 = {| cR := 255; cG := 255; cB := 255; cA := 255 |}
    ∧ RGBAAt img 1 0 = {| cR := 0; cG := 0; cB := 0; cA := 0 |}
    ∧ RGBAAt img 1 1 = {| cR := 255; cG := 255; cB := 255; cA := 255 |}.
Proof.
  destruct (BitmapToImage_reads_bits (sample_conn 4 2 [165]) 5 4 2 [165])
    as (img & Hrun & Hrect & Hpix);
    [lia|lia|reflexivity|reflexivity|repeat constructor; lia|simpl; lia|].
  exists img. split; [exact Hrun|]. split; [exact Hrect|].
  split; [apply (Hpix 0 0); lia|].
  split; [apply (Hpix 1 0); lia|apply (Hpix 1 1); lia].
Defined.

(** X16 at a bitmap of three pixels, for which the server gives a byte. *)
Lemma BitmapToImage_long_data_panics_witness :
  BitmapToImage (sample_conn 3 1 [5]) 5 = Panic IndexOutOfRange.
Proof.
  apply (BitmapToImage_long_data_panics (sample_conn 3 1 [5]) 5 3 1 [5]);
    [lia|lia|reflexivity|reflexivity|simpl; lia].
Defined.

(** X17 at the sample keyboard. *)
Lemma ParseString_always_returns_witness :
  wf_keymap sample_xu
  ∧ ∃ log mods kc,
      @ParseString ascii_strings sample_tables sample_xu "Mod4-J"
      = (log, Ret (mods, kc))
      ∧ Z.land mods (Z.lor 255 ModMaskAny) = mods
      ∧ (kc = 0 ∨ 8 ≤ kc ≤ 11).
Proof.
  assert (Hwf : wf_keymap sample_xu) by sample_wf.
  split; [exact Hwf|].
  destruct (@ParseString_always_returns ascii_strings sample_tables
              sample_xu "Mod4-J" Hwf)
    as (log & mods & kc & Hrun & Hmask & Hkc & _).
  exists log, mods, kc. split; [exact Hrun|]. split; [exact Hmask|exact Hkc].
Defined.

(** X18 at the sample keyboard. *)
Lemma ParseString_joins_at_hyphen_witness :
  wf_keymap sample_xu
  ∧ ∃ log1 mods1 kc1 log2 mods2 kc2 log log',
      @ParseString ascii_strings sample_tables sample_xu "Mod4-x"
      = (log1, Ret (mods1, kc1))
      ∧ @ParseString ascii_strings sample_tables sample_xu "shift-J"
        = (log2, Ret (mods2, kc2))
      ∧ @ParseString ascii_strings sample_tables sample_xu "Mod4-x-shift-J"
        = (log, Ret (Z.lor mods1 mods2, if kc1 =? 0 then kc2 else kc1))
      ∧ @ParseString ascii_strings sample_tables sample_xu "shift-J-Mod4-x"
        = (log', Ret (Z.lor mods1 mods2, if kc2 =? 0 then kc1 else kc2)).
Proof.
  assert (Hwf : wf_keymap sample_xu) by sample_wf.
  split; [exact Hwf|].
  exact (@ParseString_joins_at_hyphen ascii_strings sample_tables sample_xu
           "Mod4-x" "shift-J" Hwf).
Defined.

(** X19 at the sample keyboard: keycode 11 sits in slot 7, in the row of
    Mod1. *)
Lemma modGet_of_slot_witness :
  wf_modmap sample_xu
  ∧ ∃ r row,
      (∀ fuel, (16 < fuel)%nat → modGet fuel sample_xu 11 = Some (Ret r))
      ∧ 0 ≤ row ≤ 3
      ∧ modifiers !! Z.to_nat row = Some r
      ∧ r ≠ 0 ∧ r ≠ ModMaskAny.
Proof.
  assert (Hmod : wf_modmap sample_xu) by sample_wf.
  split; [exact Hmod|].
  destruct (modGet_of_slot sample_xu 7 11 Hmod)
    as (r & row & Hrun & Hrow & _ & Hr & Hnz & Hany & _);
    [simpl; lia|reflexivity|].
  exists r, row. split; [exact Hrun|]. split; [exact Hrow|].
  split; [exact Hr|]. split; [exact Hnz|exact Hany].
Defined.

(** X20 at the masks a window manager ignores, for Mod4 and key 44. *)
Lemma Grab_masks_hold_mods_witness :
  length (Grab sample_IgnoreMods 1 64 44) = 4%nat
  ∧ ∃ mask,
      Grab sample_IgnoreMods 1 64 44 !! 3%nat
      = Some (GrabKeyReq true 1 mask 44 GrabModeAsync GrabModeAsync)
      ∧ Z.land mask 64 = 64
      ∧ Z.land mask 18 = 18.
Proof.
  destruct (Grab_masks_hold_mods sample_IgnoreMods 1 64 44) as [Hlen Hreq].
  split; [exact Hlen|].
  destruct (Hreq 3%nat 18) as (mask & Hmask & Hmods & Hm & _); [reflexivity|].
  exists mask. split; [exact Hmask|]. split; [exact Hmods|exact Hm].
Defined.

(** X21 at a connection whose request for the modifier mapping fails. *)
Lemma mapsGet_modifier_error_not_reported_witness :
  mapsGet failing_xu
  = Panic (Explicit ("COULD NOT GET MODIFIER MAPPING: <nil>" +:+ newline
                     +:+ "THIS IS AN UNRECOVERABLE ERROR." +:+ newline)).
Proof.
  apply (mapsGet_modifier_error_not_reported failing_xu (Some sample_keymap)
           None "connection closed"); reflexivity.
Defined.

(** X22 at an image of 16 by 40000 pixels and requests of 2^16 blocks of
    4 bytes: the tenth request, of the rows from 36855 on, is placed at
    row -28681. *)
Lemma CreatePixmap_row_wraps_witness :
  ∃ imgData reqs rows,
    CreatePixmap_data (black_image 16 40000) = Ret imgData
    ∧ CreatePixmap 262144 sample_display 7 (black_image 16 40000)
      = Ret (reqs, 7)
    ∧ reqs !! 10%nat
      = Some (PutImageReq ImageFormatZPixmap 7 2 16 rows 0 (-28681) 0 24
                (take (Z.to_nat (4 * 16 * rows))
                      (drop (Z.to_nat (4 * 16 * 36855)) imgData))).
Proof.
  pose proof (CreatePixmap_row_wraps 262144 sample_display 7
                (black_image 16 40000) 9 ltac:(lia) ltac:(simpl; lia)
                ltac:(simpl; lia)) as H.
  cbv beta iota zeta delta [GetDim black_image Bounds MinX MinY MaxX MaxY] in H.
  destruct H as (imgData & reqs & rows & dstY & Hdata & Hrun & Hreq & _
                 & -> & _); [by vm_compute|by vm_compute|].
  exists imgData, reqs, rows. split; [exact Hdata|]. split; [exact Hrun|].
  exact Hreq.
Defined.
